(** * The outbound federation dispatcher ([FederationSender])

    A shallow embedding of [synapse/federation/sender/__init__.py].

    The dispatcher is a single-threaded (reactor driven) object.  Every
    method body is cut at its suspension points ([await] / [yield]): the
    code between two suspension points runs atomically and is modelled
    as a function on the dispatcher state.  Values produced by the
    external collaborators at a suspension point (state resolver, event
    store, presence interest) are arguments of the function that resumes
    the method; [None] stands for a raised exception.

    Calls made on external collaborators (the per-destination queues, the
    clock, the store, the replication client) are recorded, in program
    order, in the [trace] field. *)

From Stdlib Require Import QArith Lqa.
From stdpp Require Import gmap strings list fin_maps fin_sets sorting.

Local Open Scope string_scope.
Local Open Scope Z_scope.
Local Open Scope list_scope.
Set Warnings "-register-all,-clear-no-such-hyp".

(** ** Data model *)

(** [EventBase], as far as the sender reads it. *)
Record EventBase := {
  event_id : string;
  room_id : string;
  sender : string;
  prev_event_ids : list string;
  (* event.internal_metadata.get_send_on_behalf_of() *)
  send_on_behalf_of : option string;
  (* event.internal_metadata.should_proactively_send() *)
  should_proactively_send : bool
}.

(** [Edu(origin, destination, edu_type, content)]; the JSON content is
    kept as an opaque string. *)
Record Edu := {
  origin : string;
  destination : string;
  edu_type : string;
  content : string
}.

(** [UserPresenceState]: the sender only reads [user_id]. *)
Record UserPresenceState := {
  user_id : string;
  presence : string;
  last_active_ts : Z
}.

(** [ReadReceipt(room_id, receipt_type, user_id, event_ids, data)]. *)
Record ReadReceipt := {
  rr_room_id : string;
  rr_receipt_type : string;
  rr_user_id : string;
  rr_event_ids : list string;
  rr_data : string
}.

(** The values a clobbering key ([Optional[Hashable]]) can take.  The
    absent key is Python's [None], modelled by [option]. *)
Inductive Hashable :=
| HInt (z : Z)
| HStr (s : string)
| HBool (b : bool)
| HTuple (items : list Hashable).

(** Python truthiness, [bool(x)]. *)
Definition truthy (h : Hashable) : bool :=
  match h with
  | HInt z => negb (z =? 0)
  | HStr s => negb (String.eqb s "")
  | HBool b => b
  | HTuple items => match items with [] => false | _ => true end
  end.

(** Calls made by the sender on its collaborators.  A
    [PerDestinationQueue] object is created once for each destination
    and never dropped from the registry, so a queue is identified by its
    destination. *)
Inductive Effect :=
(* PerDestinationQueue methods *)
| send_pdu (dest : string) (pdu : EventBase) (order : Z)
| queue_send_edu (dest : string) (edu : Edu)
| send_keyed_edu (dest : string) (edu : Edu) (key : Hashable)
| queue_send_presence (dest : string) (states : list UserPresenceState)
| queue_read_receipt (dest : string) (receipt : ReadReceipt)
| flush_read_receipts_for_room (dest : string) (room : string)
| attempt_new_transaction (dest : string)
(* clock.call_later(delay_ms, self._flush_rrs_for_room, room_id) *)
| call_later (delay_ms : Q) (room : string)
(* get_interested_remotes(store, states, state) *)
| get_interested_remotes (states : list UserPresenceState)
(* store.update_federation_out_pos(name, token) *)
| update_federation_out_pos (name : string) (token : Z)
(* hs.get_tcp_replication().send_federation_ack(token) *)
| send_federation_ack (token : Z).

(** The destination a queue call is made on. *)
Definition queue_call_dest (e : Effect) : option string :=
  match e with
  | send_pdu d _ _ | queue_send_edu d _ | send_keyed_edu d _ _
  | queue_send_presence d _ | queue_read_receipt d _
  | flush_read_receipts_for_room d _ | attempt_new_transaction d => Some d
  | _ => None
  end.

(** The fields of [FederationSender], the two module-level Prometheus
    counters, the clock, and the bookkeeping of running passes. *)
Record FederationSender := {
  (* self._per_destination_queues : keys of the registry *)
  per_destination_queues : gset string;
  (* self.pending_presence *)
  pending_presence : gmap string UserPresenceState;
  (* self._order *)
  order : Z;
  (* self._is_processing *)
  is_processing : bool;
  (* self._last_poked_id *)
  last_poked_id : Z;
  (* self._processing_pending_presence *)
  processing_pending_presence : bool;
  (* self._queues_awaiting_rr_flush_by_room *)
  queues_awaiting_rr_flush_by_room : gmap string (gset string);
  (* self.federation_position *)
  federation_position : Z;
  (* self._last_ack *)
  last_ack : Z;
  (* sent_pdus_destination_dist_count / _total *)
  sent_pdus_destination_dist_count : Z;
  sent_pdus_destination_dist_total : Z;
  (* the clock: current time (ms) and the armed one-shot timers, each
     with its deadline and the room it will flush *)
  clock_now : Q;
  clock_timers : list (Q * string);
  (* number of running _process_event_queue_loop coroutines and of
     send_presence coroutines that are inside their batch loop *)
  event_loop_passes : nat;
  presence_passes : nat;
  (* calls on collaborators, oldest first *)
  trace : list Effect
}.

Definition with_queues (f : gset string → gset string) (s : FederationSender) :=
  {| per_destination_queues := f (per_destination_queues s);
     pending_presence := pending_presence s; order := order s;
     is_processing := is_processing s; last_poked_id := last_poked_id s;
     processing_pending_presence := processing_pending_presence s;
     queues_awaiting_rr_flush_by_room := queues_awaiting_rr_flush_by_room s;
     federation_position := federation_position s; last_ack := last_ack s;
     sent_pdus_destination_dist_count := sent_pdus_destination_dist_count s;
     sent_pdus_destination_dist_total := sent_pdus_destination_dist_total s;
     clock_now := clock_now s; clock_timers := clock_timers s;
     event_loop_passes := event_loop_passes s;
     presence_passes := presence_passes s; trace := trace s |}.

Definition with_pending_presence
    (f : gmap string UserPresenceState → gmap string UserPresenceState)
    (s : FederationSender) :=
  {| per_destination_queues := per_destination_queues s;
     pending_presence := f (pending_presence s); order := order s;
     is_processing := is_processing s; last_poked_id := last_poked_id s;
     processing_pending_presence := processing_pending_presence s;
     queues_awaiting_rr_flush_by_room := queues_awaiting_rr_flush_by_room s;
     federation_position := federation_position s; last_ack := last_ack s;
     sent_pdus_destination_dist_count := sent_pdus_destination_dist_count s;
     sent_pdus_destination_dist_total := sent_pdus_destination_dist_total s;
     clock_now := clock_now s; clock_timers := clock_timers s;
     event_loop_passes := event_loop_passes s;
     presence_passes := presence_passes s; trace := trace s |}.

Definition with_order (v : Z) (s : FederationSender) :=
  {| per_destination_queues := per_destination_queues s;
     pending_presence := pending_presence s; order := v;
     is_processing := is_processing s; last_poked_id := last_poked_id s;
     processing_pending_presence := processing_pending_presence s;
     queues_awaiting_rr_flush_by_room := queues_awaiting_rr_flush_by_room s;
     federation_position := federation_position s; last_ack := last_ack s;
     sent_pdus_destination_dist_count := sent_pdus_destination_dist_count s;
     sent_pdus_destination_dist_total := sent_pdus_destination_dist_total s;
     clock_now := clock_now s; clock_timers := clock_timers s;
     event_loop_passes := event_loop_passes s;
     presence_passes := presence_passes s; trace := trace s |}.

(** [self._is_processing := v], with the count of running loops. *)
Definition with_event_loop (v : bool) (n : nat) (s : FederationSender) :=
  {| per_destination_queues := per_destination_queues s;
     pending_presence := pending_presence s; order := order s;
     is_processing := v; last_poked_id := last_poked_id s;
     processing_pending_presence := processing_pending_presence s;
     queues_awaiting_rr_flush_by_room := queues_awaiting_rr_flush_by_room s;
     federation_position := federation_position s; last_ack := last_ack s;
     sent_pdus_destination_dist_count := sent_pdus_destination_dist_count s;
     sent_pdus_destination_dist_total := sent_pdus_destination_dist_total s;
     clock_now := clock_now s; clock_timers := clock_timers s;
     event_loop_passes := n;
     presence_passes := presence_passes s; trace := trace s |}.

Definition with_last_poked_id (v : Z) (s : FederationSender) :=
  {| per_destination_queues := per_destination_queues s;
     pending_presence := pending_presence s; order := order s;
     is_processing := is_processing s; last_poked_id := v;
     processing_pending_presence := processing_pending_presence s;
     queues_awaiting_rr_flush_by_room := queues_awaiting_rr_flush_by_room s;
     federation_position := federation_position s; last_ack := last_ack s;
     sent_pdus_destination_dist_count := sent_pdus_destination_dist_count s;
     sent_pdus_destination_dist_total := sent_pdus_destination_dist_total s;
     clock_now := clock_now s; clock_timers := clock_timers s;
     event_loop_passes := event_loop_passes s;
     presence_passes := presence_passes s; trace := trace s |}.

(** [self._processing_pending_presence := v], with the count of passes. *)
Definition with_presence_loop (v : bool) (n : nat) (s : FederationSender) :=
  {| per_destination_queues := per_destination_queues s;
     pending_presence := pending_presence s; order := order s;
     is_processing := is_processing s; last_poked_id := last_poked_id s;
     processing_pending_presence := v;
     queues_awaiting_rr_flush_by_room := queues_awaiting_rr_flush_by_room s;
     federation_position := federation_position s; last_ack := last_ack s;
     sent_pdus_destination_dist_count := sent_pdus_destination_dist_count s;
     sent_pdus_destination_dist_total := sent_pdus_destination_dist_total s;
     clock_now := clock_now s; clock_timers := clock_timers s;
     event_loop_passes := event_loop_passes s;
     presence_passes := n; trace := trace s |}.

Definition with_rr
    (f : gmap string (gset string) → gmap string (gset string))
    (s : FederationSender) :=
  {| per_destination_queues := per_destination_queues s;
     pending_presence := pending_presence s; order := order s;
     is_processing := is_processing s; last_poked_id := last_poked_id s;
     processing_pending_presence := processing_pending_presence s;
     queues_awaiting_rr_flush_by_room := f (queues_awaiting_rr_flush_by_room s);
     federation_position := federation_position s; last_ack := last_ack s;
     sent_pdus_destination_dist_count := sent_pdus_destination_dist_count s;
     sent_pdus_destination_dist_total := sent_pdus_destination_dist_total s;
     clock_now := clock_now s; clock_timers := clock_timers s;
     event_loop_passes := event_loop_passes s;
     presence_passes := presence_passes s; trace := trace s |}.

Definition with_federation_position (v : Z) (s : FederationSender) :=
  {| per_destination_queues := per_destination_queues s;
     pending_presence := pending_presence s; order := order s;
     is_processing := is_processing s; last_poked_id := last_poked_id s;
     processing_pending_presence := processing_pending_presence s;
     queues_awaiting_rr_flush_by_room := queues_awaiting_rr_flush_by_room s;
     federation_position := v; last_ack := last_ack s;
     sent_pdus_destination_dist_count := sent_pdus_destination_dist_count s;
     sent_pdus_destination_dist_total := sent_pdus_destination_dist_total s;
     clock_now := clock_now s; clock_timers := clock_timers s;
     event_loop_passes := event_loop_passes s;
     presence_passes := presence_passes s; trace := trace s |}.

Definition with_last_ack (v : Z) (s : FederationSender) :=
  {| per_destination_queues := per_destination_queues s;
     pending_presence := pending_presence s; order := order s;
     is_processing := is_processing s; last_poked_id := last_poked_id s;
     processing_pending_presence := processing_pending_presence s;
     queues_awaiting_rr_flush_by_room := queues_awaiting_rr_flush_by_room s;
     federation_position := federation_position s; last_ack := v;
     sent_pdus_destination_dist_count := sent_pdus_destination_dist_count s;
     sent_pdus_destination_dist_total := sent_pdus_destination_dist_total s;
     clock_now := clock_now s; clock_timers := clock_timers s;
     event_loop_passes := event_loop_passes s;
     presence_passes := presence_passes s; trace := trace s |}.

(** [sent_pdus_destination_dist_total.inc(n)] followed by
    [sent_pdus_destination_dist_count.inc()]. *)
Definition inc_dist_counters (n : Z) (s : FederationSender) :=
  {| per_destination_queues := per_destination_queues s;
     pending_presence := pending_presence s; order := order s;
     is_processing := is_processing s; last_poked_id := last_poked_id s;
     processing_pending_presence := processing_pending_presence s;
     queues_awaiting_rr_flush_by_room := queues_awaiting_rr_flush_by_room s;
     federation_position := federation_position s; last_ack := last_ack s;
     sent_pdus_destination_dist_count := sent_pdus_destination_dist_count s + 1;
     sent_pdus_destination_dist_total := sent_pdus_destination_dist_total s + n;
     clock_now := clock_now s; clock_timers := clock_timers s;
     event_loop_passes := event_loop_passes s;
     presence_passes := presence_passes s; trace := trace s |}.

Definition with_clock (now : Q) (timers : list (Q * string))
    (s : FederationSender) :=
  {| per_destination_queues := per_destination_queues s;
     pending_presence := pending_presence s; order := order s;
     is_processing := is_processing s; last_poked_id := last_poked_id s;
     processing_pending_presence := processing_pending_presence s;
     queues_awaiting_rr_flush_by_room := queues_awaiting_rr_flush_by_room s;
     federation_position := federation_position s; last_ack := last_ack s;
     sent_pdus_destination_dist_count := sent_pdus_destination_dist_count s;
     sent_pdus_destination_dist_total := sent_pdus_destination_dist_total s;
     clock_now := now; clock_timers := timers;
     event_loop_passes := event_loop_passes s;
     presence_passes := presence_passes s; trace := trace s |}.

(** Record one more call on a collaborator. *)
Definition emit (e : Effect) (s : FederationSender) :=
  {| per_destination_queues := per_destination_queues s;
     pending_presence := pending_presence s; order := order s;
     is_processing := is_processing s; last_poked_id := last_poked_id s;
     processing_pending_presence := processing_pending_presence s;
     queues_awaiting_rr_flush_by_room := queues_awaiting_rr_flush_by_room s;
     federation_position := federation_position s; last_ack := last_ack s;
     sent_pdus_destination_dist_count := sent_pdus_destination_dist_count s;
     sent_pdus_destination_dist_total := sent_pdus_destination_dist_total s;
     clock_now := clock_now s; clock_timers := clock_timers s;
     event_loop_passes := event_loop_passes s;
     presence_passes := presence_passes s; trace := trace s ++ [e] |}.

(** A row of the receipts replication stream
    ([ReceiptsStream.ReceiptsStreamRow]), as [_on_new_receipts] reads it. *)
Record ReceiptsStreamRow := {
  row_room_id : string;
  row_receipt_type : string;
  row_user_id : string;
  row_event_id : string;
  row_data : string
}.

(** [entity.startswith("@")] *)
Definition startswith_at (entity : string) : bool :=
  match entity with
  | String c _ => String.eqb (String c EmptyString) "@"
  | EmptyString => false
  end.

(** ** Sample values

    Used below to run the dispatcher on concrete inputs. *)

(** The server name of a user id: what follows its first colon. *)
Fixpoint domain_of (id : string) : string :=
  match id with
  | EmptyString => EmptyString
  | String c rest =>
      if String.eqb (String c EmptyString) ":" then rest else domain_of rest
  end.

Definition is_mine_s1 (id : string) : bool := String.eqb (domain_of id) "s1".

Definition event_of (id from : string) (on_behalf_of : option string)
    : EventBase :=
  {| event_id := id; room_id := "!room:s1"; sender := from;
     prev_event_ids := ["$prev"]; send_on_behalf_of := on_behalf_of;
     should_proactively_send := true |}.

Definition receipt_of (user : string) (event : string) : ReadReceipt :=
  {| rr_room_id := "!room:s1"; rr_receipt_type := "m.read";
     rr_user_id := user; rr_event_ids := [event]; rr_data := "{}" |}.

Definition row_of (user : string) (event : string) : ReceiptsStreamRow :=
  {| row_room_id := "!room:s1"; row_receipt_type := "m.read";
     row_user_id := user; row_event_id := event; row_data := "{}" |}.

Definition presence_of (user : string) (status : string) : UserPresenceState :=
  {| user_id := user; presence := status; last_active_ts := 0 |}.

(** ** The methods of [FederationSender] *)

Section Sender.

(** [hs.hostname], [hs.is_mine_id], [hs.config.use_presence] and
    [hs.config.federation_rr_transactions_per_room_per_second]. *)
Variable server_name : string.
Variable is_mine_id : string → bool.
Variable use_presence : bool.
Variable federation_rr_transactions_per_room_per_second : Q.

(** [self._rr_txn_interval_per_room_ms]; the float is read as the
    rational it denotes and its arithmetic is exact. *)
Definition rr_txn_interval_per_room_ms : Q :=
  (1000 / federation_rr_transactions_per_room_per_second)%Q.

(** The state [__init__] builds, before it pokes the event loop;
    [pos] is [store.federation_out_pos_startup]. *)
Definition init (pos : Z) (now : Q) : FederationSender :=
  {| per_destination_queues := ∅;
     pending_presence := ∅;
     order := 1;
     is_processing := false;
     last_poked_id := -1;
     processing_pending_presence := false;
     queues_awaiting_rr_flush_by_room := ∅;
     federation_position := pos;
     last_ack := pos;
     sent_pdus_destination_dist_count := 0;
     sent_pdus_destination_dist_total := 0;
     clock_now := now;
     clock_timers := [];
     event_loop_passes := 0;
     presence_passes := 0;
     trace := [] |}.

(** [_get_per_destination_queue]: the queue of [dest] is created on
    first use and kept. *)
Definition _get_per_destination_queue (dest : string)
    (s : FederationSender) : FederationSender :=
  with_queues (λ qs, {[dest]} ∪ qs) s.

(** [self._get_per_destination_queue(dest).<method>(...)]. *)
Definition call_queue (dest : string) (e : Effect)
    (s : FederationSender) : FederationSender :=
  emit e (_get_per_destination_queue dest s).

(** *** Event fan-out *)

(** [notify_new_events].  [run_as_background_process] runs the loop
    coroutine up to its first [await], so [_is_processing] is set
    before [notify_new_events] returns. *)
Definition notify_new_events (current_id : Z)
    (s : FederationSender) : FederationSender :=
  let s := with_last_poked_id (Z.max current_id (last_poked_id s)) s in
  if is_processing s then s
  else with_event_loop true (S (event_loop_passes s)) s.

(** The [finally] clause of [_process_event_queue_loop]: the coroutine
    ends. *)
Definition event_loop_finally (s : FederationSender) : FederationSender :=
  with_event_loop false (pred (event_loop_passes s)) s.

(** A running loop resumes with the page read from the store
    ([get_federation_out_pos], then [get_all_new_events_stream]);
    [None] when one of the two raised.  The result also tells whether
    the loop goes on to handle the page. *)
Definition event_loop_fetched (page : option (Z * list EventBase))
    (s : FederationSender) : FederationSender * bool :=
  match event_loop_passes s with
  | O => (s, false)
  | S _ =>
      match page with
      | None => (event_loop_finally s, false)
      | Some (next_token, events) =>
          if bool_decide (events = []) && (next_token >=? last_poked_id s)
          then (event_loop_finally s, false)
          else (s, true)
      end
  end.

(** [_send_pdu]. *)
Definition _send_pdu (pdu : EventBase) (destinations : list string)
    (s : FederationSender) : FederationSender :=
  let order := order s in
  let s := with_order (order + 1) s in
  let destinations : gset string :=
    list_to_set destinations ∖ {[server_name]} in
  if decide (destinations = ∅) then s
  else
    let s := inc_dist_counters (Z.of_nat (size destinations)) s in
    foldl (λ s destination, call_queue destination
                              (send_pdu destination pdu order) s)
          s (elements destinations).

(** [handle_event]; [hosts] is what [get_hosts_in_room_at_events]
    returns when it is called, [None] when it raises. *)
Definition handle_event (event : EventBase) (hosts : option (list string))
    (s : FederationSender) : FederationSender :=
  let sob := send_on_behalf_of event in
  let is_mine := is_mine_id (sender event) in
  if negb is_mine && negb (bool_decide (is_Some sob)) then s
  else if negb (should_proactively_send event) then s
  else
    match hosts with
    | None => s
    | Some destinations =>
        let destinations : gset string := list_to_set destinations in
        let destinations :=
          match sob with
          | Some origin_server => destinations ∖ {[origin_server]}
          | None => destinations
          end in
        _send_pdu event (elements destinations) s
    end.

(** The rest of a loop iteration after the page was handled:
    [update_federation_out_pos("events", next_token)], then
    [get_received_ts] and the gauges.  [raised] tells whether one of
    the store calls raised. *)
Definition event_loop_page_done (next_token : Z) (raised : bool)
    (s : FederationSender) : FederationSender :=
  match event_loop_passes s with
  | O => s
  | S _ =>
      let s := emit (update_federation_out_pos "events" next_token) s in
      if raised then event_loop_finally s else s
  end.

(** *** Read receipts *)

(** [clock.call_later(delay_ms, self._flush_rrs_for_room, room)]. *)
Definition clock_call_later (delay_ms : Q) (room : string)
    (s : FederationSender) : FederationSender :=
  let s := emit (call_later delay_ms room) s in
  with_clock (clock_now s)
             (clock_timers s ++ [((clock_now s + delay_ms)%Q, room)]) s.

(** [_schedule_rr_flush_for_room]. *)
Definition _schedule_rr_flush_for_room (room : string) (n_domains : nat)
    (s : FederationSender) : FederationSender :=
  let backoff_ms :=
    (rr_txn_interval_per_room_ms * inject_Z (Z.of_nat n_domains))%Q in
  let s := clock_call_later backoff_ms room s in
  with_rr (λ m, <[room := ∅]> m) s.

(** [send_read_receipt], resumed with the hosts that
    [get_current_hosts_in_room] returned.  [queues_pending_flush] is
    the set object stored in the table, so [add] updates the table. *)
Definition send_read_receipt (receipt : ReadReceipt) (hosts : list string)
    (s : FederationSender) : FederationSender :=
  let room := rr_room_id receipt in
  let domains := filter (λ d, d ≠ server_name) hosts in
  match domains with
  | [] => s
  | _ =>
      let queues_pending_flush := queues_awaiting_rr_flush_by_room s !! room in
      let s :=
        match queues_pending_flush with
        | Some _ => s
        | None => _schedule_rr_flush_for_room room (length domains) s
        end in
      foldl (λ s domain,
               let s := call_queue domain (queue_read_receipt domain receipt) s in
               match queues_pending_flush with
               | Some _ => with_rr (alter (λ qs, {[domain]} ∪ qs) room) s
               | None => emit (flush_read_receipts_for_room domain room) s
               end)
            s domains
  end.

(** [_flush_rrs_for_room]; [None] is the [KeyError] of [pop]. *)
Definition _flush_rrs_for_room (room : string)
    (s : FederationSender) : option FederationSender :=
  match queues_awaiting_rr_flush_by_room s !! room with
  | None => None
  | Some queues =>
      let s := with_rr (delete room) s in
      if decide (queues = ∅) then Some s
      else
        let s := _schedule_rr_flush_for_room room (size queues) s in
        Some (foldl (λ s queue, emit (flush_read_receipts_for_room queue room) s)
                    s (elements queues))
  end.

(** The first armed timer of [room] that is due. *)
Fixpoint take_due_timer (now : Q) (room : string)
    (timers : list (Q * string)) : option (list (Q * string)) :=
  match timers with
  | [] => None
  | (deadline, r) :: rest =>
      if Qle_bool deadline now && bool_decide (r = room) then Some rest
      else cons (deadline, r) <$> take_due_timer now room rest
  end.

(** The clock fires a due timer of [room] and runs the callback; when
    no timer of the room is due nothing happens.  An exception in the
    callback is logged by the reactor. *)
Definition timer_fires (room : string)
    (s : FederationSender) : FederationSender :=
  match take_due_timer (clock_now s) room (clock_timers s) with
  | None => s
  | Some rest =>
      let s := with_clock (clock_now s) rest s in
      default s (_flush_rrs_for_room room s)
  end.

(** Time passes; the clock never runs backwards. *)
Definition clock_advance (t : Q) (s : FederationSender) : FederationSender :=
  if Qle_bool (clock_now s) t then with_clock t (clock_timers s) s else s.

(** *** Presence *)

(** [{state.user_id: state for state in states if is_mine_id(state.user_id)}] *)
Definition mine_by_user (states : list UserPresenceState)
    : gmap string UserPresenceState :=
  foldl (λ m state, <[user_id state := state]> m) ∅
        (filter (λ state, is_mine_id (user_id state) = true) states).

(** [list(states_map.values())] *)
Definition values (m : gmap string UserPresenceState)
    : list UserPresenceState :=
  (map_to_list m).*2.

(** The [finally] clause of [send_presence]. *)
Definition presence_finally (s : FederationSender) : FederationSender :=
  with_presence_loop false (pred (presence_passes s)) s.

(** One turn of the [while True] loop of [send_presence], up to the
    [yield] on [_process_presence_inner] (which starts by calling
    [get_interested_remotes]) or to the [break]. *)
Definition presence_loop (s : FederationSender) : FederationSender :=
  let states_map := pending_presence s in
  let s := with_pending_presence (λ _, ∅) s in
  if decide (states_map = ∅) then presence_finally s
  else emit (get_interested_remotes (values states_map)) s.

(** [send_presence], up to its first suspension. *)
Definition send_presence (states : list UserPresenceState)
    (s : FederationSender) : FederationSender :=
  if negb use_presence then s
  else
    let s := with_pending_presence (λ m, mine_by_user states ∪ m) s in
    if processing_pending_presence s then s
    else
      let s := with_presence_loop true (S (presence_passes s)) s in
      presence_loop s.

(** The body of [_process_presence_inner] after [get_interested_remotes]. *)
Definition _process_presence_inner
    (hosts_and_states : list (list string * list UserPresenceState))
    (s : FederationSender) : FederationSender :=
  foldl (λ s '(destinations, states),
           foldl (λ s destination,
                    if decide (destination = server_name) then s
                    else call_queue destination
                           (queue_send_presence destination states) s)
                 s destinations)
        s hosts_and_states.

(** A suspended [send_presence] resumes with the result of
    [get_interested_remotes] ([None] when it raised, which the
    [except] clause logs) and runs to its next suspension or its end. *)
Definition presence_resumed
    (result : option (list (list string * list UserPresenceState)))
    (s : FederationSender) : FederationSender :=
  match presence_passes s with
  | O => s
  | S _ =>
      match result with
      | None => presence_finally s
      | Some hosts_and_states =>
          presence_loop (_process_presence_inner hosts_and_states s)
      end
  end.

(** [send_presence_to_destinations]. *)
Definition send_presence_to_destinations (states : list UserPresenceState)
    (destinations : list string) (s : FederationSender) : FederationSender :=
  if bool_decide (states = []) || negb use_presence then s
  else
    foldl (λ s destination,
             if decide (destination = server_name) then s
             else call_queue destination
                    (queue_send_presence destination states) s)
          s destinations.

(** *** EDUs and device messages *)

(** [send_edu]; [if key:] is false for [None] and for a falsy key. *)
Definition send_edu (edu : Edu) (key : option Hashable)
    (s : FederationSender) : FederationSender :=
  let dest := destination edu in
  match key with
  | Some k =>
      if truthy k then call_queue dest (send_keyed_edu dest edu k) s
      else call_queue dest (queue_send_edu dest edu) s
  | None => call_queue dest (queue_send_edu dest edu) s
  end.

(** [build_and_send_edu]. *)
Definition build_and_send_edu (dest : string) (type : string)
    (body : string) (key : option Hashable)
    (s : FederationSender) : FederationSender :=
  if decide (dest = server_name) then s
  else
    let edu := {| origin := server_name; destination := dest;
                  edu_type := type; content := body |} in
    send_edu edu key s.

(** [send_device_messages]. *)
Definition send_device_messages (dest : string)
    (s : FederationSender) : FederationSender :=
  if decide (dest = server_name) then s
  else call_queue dest (attempt_new_transaction dest) s.

(** [wake_destination]. *)
Definition wake_destination (dest : string)
    (s : FederationSender) : FederationSender :=
  if decide (dest = server_name) then s
  else call_queue dest (attempt_new_transaction dest) s.

(** *** The federation position *)

(** [get_current_token]. *)
Definition get_current_token (s : FederationSender) : Z :=
  federation_position s.

(** [update_token], cut at its suspension points: the assignment
    before the linearizer is entered, the test and the call to the
    store inside it, and what follows the store's answer ([raised]
    when the store call raised; the [except] clause logs it). *)
Definition update_token_enter (token : Z)
    (s : FederationSender) : FederationSender :=
  with_federation_position token s.

Definition update_token_locked
    (s : FederationSender) : FederationSender * bool :=
  if last_ack s <? federation_position s
  then (emit (update_federation_out_pos "federation" (federation_position s)) s,
        true)
  else (s, false).

Definition update_token_persisted (raised : bool)
    (s : FederationSender) : FederationSender :=
  if raised then s
  else
    let s := emit (send_federation_ack (federation_position s)) s in
    with_last_ack (federation_position s) s.

(** [update_token] run without interleaving. *)
Definition update_token (token : Z) (raised : bool)
    (s : FederationSender) : FederationSender :=
  let s := update_token_enter token s in
  let '(s, persisting) := update_token_locked s in
  if persisting then update_token_persisted raised s else s.

(** *** Runs of the dispatcher *)

(** What can happen to the dispatcher: a method is entered, or a
    suspended coroutine is resumed, or the clock moves. *)
Inductive Op :=
| op_notify_new_events (current_id : Z)
| op_event_loop_fetched (page : option (Z * list EventBase))
| op_handle_event (event : EventBase) (hosts : option (list string))
| op_event_loop_page_done (next_token : Z) (raised : bool)
| op_send_pdu (pdu : EventBase) (destinations : list string)
| op_send_read_receipt (receipt : ReadReceipt) (hosts : list string)
| op_timer_fires (room : string)
| op_clock_advance (t : Q)
| op_send_presence (states : list UserPresenceState)
| op_presence_resumed
    (result : option (list (list string * list UserPresenceState)))
| op_send_presence_to_destinations (states : list UserPresenceState)
                                   (destinations : list string)
| op_build_and_send_edu (dest type body : string) (key : option Hashable)
| op_send_edu (edu : Edu) (key : option Hashable)
| op_send_device_messages (dest : string)
| op_wake_destination (dest : string)
| op_update_token_enter (token : Z)
| op_update_token_locked
| op_update_token_persisted (raised : bool).

Definition step (s : FederationSender) (op : Op) : FederationSender :=
  match op with
  | op_notify_new_events current_id => notify_new_events current_id s
  | op_event_loop_fetched page => (event_loop_fetched page s).1
  | op_handle_event event hosts => handle_event event hosts s
  | op_event_loop_page_done next_token raised =>
      event_loop_page_done next_token raised s
  | op_send_pdu pdu destinations => _send_pdu pdu destinations s
  | op_send_read_receipt receipt hosts => send_read_receipt receipt hosts s
  | op_timer_fires room => timer_fires room s
  | op_clock_advance t => clock_advance t s
  | op_send_presence states => send_presence states s
  | op_presence_resumed result => presence_resumed result s
  | op_send_presence_to_destinations states destinations =>
      send_presence_to_destinations states destinations s
  | op_build_and_send_edu dest type body key =>
      build_and_send_edu dest type body key s
  | op_send_edu edu key => send_edu edu key s
  | op_send_device_messages dest => send_device_messages dest s
  | op_wake_destination dest => wake_destination dest s
  | op_update_token_enter token => update_token_enter token s
  | op_update_token_locked => (update_token_locked s).1
  | op_update_token_persisted raised => update_token_persisted raised s
  end.

Definition run (ops : list Op) (s : FederationSender) : FederationSender :=
  foldl step s ops.

(** A sequence of [_send_pdu] calls. *)
Definition send_pdus (calls : list (EventBase * list string))
    (s : FederationSender) : FederationSender :=
  foldl (λ s call, _send_pdu call.1 call.2 s) s calls.


(** ** Predicates used in the statements *)

(** A call on the queue of the local server. *)
Definition self_call (e : Effect) : Prop :=
  queue_call_dest e = Some server_name.

(** An EDU handed to [send_edu] directly and addressed to the local
    server. *)
Definition self_edu (op : Op) : Prop :=
  match op with
  | op_send_edu edu _ => destination edu = server_name
  | _ => False
  end.

(** The [order] values of the [send_pdu] calls made on the queue of
    [dest], oldest first. *)
Fixpoint pdu_orders (dest : string) (t : list Effect) : list Z :=
  match t with
  | [] => []
  | send_pdu d _ o :: rest =>
      if decide (d = dest) then o :: pdu_orders dest rest
      else pdu_orders dest rest
  | _ :: rest => pdu_orders dest rest
  end.

(** The destinations [_send_pdu] is left with after it dropped the
    local server. *)
Definition remote_destinations (destinations : list string) : gset string :=
  list_to_set destinations ∖ {[server_name]}.

(** The invocations of a sequence of [_send_pdu] calls that are left
    with at least one destination. *)
Definition effective (calls : list (EventBase * list string))
    : list (EventBase * list string) :=
  filter (λ call, remote_destinations call.2 ≠ ∅) calls.

(** [s'] differs from [s] at most in the registry and the trace. *)
Definition queue_frame (s s' : FederationSender) : Prop :=
  order s' = order s
  ∧ sent_pdus_destination_dist_count s' = sent_pdus_destination_dist_count s
  ∧ sent_pdus_destination_dist_total s' = sent_pdus_destination_dist_total s
  ∧ pending_presence s' = pending_presence s
  ∧ queues_awaiting_rr_flush_by_room s' = queues_awaiting_rr_flush_by_room s
  ∧ clock_now s' = clock_now s ∧ clock_timers s' = clock_timers s
  ∧ is_processing s' = is_processing s
  ∧ event_loop_passes s' = event_loop_passes s
  ∧ processing_pending_presence s' = processing_pending_presence s
  ∧ presence_passes s' = presence_passes s
  ∧ federation_position s' = federation_position s
  ∧ last_ack s' = last_ack s
  ∧ last_poked_id s' = last_poked_id s.

(** The calls a step may make on the collaborators, from state [s]. *)
Definition may_emit (s : FederationSender) (op : Op) (e : Effect) : Prop :=
  match op with
  | op_handle_event pdu _ | op_send_pdu pdu _ =>
      ∃ d, d ≠ server_name ∧ e = send_pdu d pdu (order s)
  | op_event_loop_page_done next_token _ =>
      e = update_federation_out_pos "events" next_token
  | op_send_read_receipt receipt _ =>
      let room := rr_room_id receipt in
      (∃ d, d ≠ server_name ∧ e = queue_read_receipt d receipt)
      ∨ (queues_awaiting_rr_flush_by_room s !! room = None
         ∧ ((∃ d, d ≠ server_name ∧ e = flush_read_receipts_for_room d room)
            ∨ ∃ delay, e = call_later delay room))
  | op_timer_fires room =>
      is_Some (take_due_timer (clock_now s) room (clock_timers s))
      ∧ ((∃ qs d, queues_awaiting_rr_flush_by_room s !! room = Some qs
                  ∧ d ∈ qs ∧ e = flush_read_receipts_for_room d room)
         ∨ ∃ delay, e = call_later delay room)
  | op_send_presence _ => ∃ batch, e = get_interested_remotes batch
  | op_presence_resumed _ =>
      (∃ d states, d ≠ server_name ∧ e = queue_send_presence d states)
      ∨ ∃ batch, e = get_interested_remotes batch
  | op_send_presence_to_destinations states _ =>
      ∃ d, d ≠ server_name ∧ e = queue_send_presence d states
  | op_build_and_send_edu dest _ _ _ =>
      dest ≠ server_name
      ∧ ((∃ edu, e = queue_send_edu dest edu)
         ∨ ∃ edu k, e = send_keyed_edu dest edu k)
  | op_send_edu edu _ =>
      e = queue_send_edu (destination edu) edu
      ∨ ∃ k, e = send_keyed_edu (destination edu) edu k
  | op_send_device_messages dest | op_wake_destination dest =>
      dest ≠ server_name ∧ e = attempt_new_transaction dest
  | op_update_token_locked =>
      ∃ token, e = update_federation_out_pos "federation" token
  | op_update_token_persisted _ => ∃ token, e = send_federation_ack token
  | _ => False
  end.

(** The orders handed to the queue of [dest] so far increase strictly
    and lie below the counter. *)
Definition orders_below_counter (dest : string) (s : FederationSender) : Prop :=
  StronglySorted Z.lt (pdu_orders dest (trace s))
  ∧ Forall (λ o, o < order s) (pdu_orders dest (trace s)).

(** No queue registered for a flush is the queue of the local server. *)
Definition no_self_pending (s : FederationSender) : Prop :=
  ∀ room qs,
    queues_awaiting_rr_flush_by_room s !! room = Some qs → server_name ∉ qs.

(** Each flag is set exactly while one pass of its loop is running. *)
Definition singleflight (s : FederationSender) : Prop :=
  event_loop_passes s = (if is_processing s then 1 else 0)%nat
  ∧ presence_passes s = (if processing_pending_presence s then 1 else 0)%nat.



(** The armed timers of a room. *)
Definition timers_of (room : string) (timers : list (Q * string))
    : list (Q * string) :=
  filter (λ t, t.2 = room) timers.

(** A room has one armed timer when a flush is scheduled for it (it has
    an entry in the table), and none otherwise. *)
Definition timers_consistent (s : FederationSender) : Prop :=
  ∀ room,
    length (timers_of room (clock_timers s)) =
      if queues_awaiting_rr_flush_by_room s !! room is Some _ then 1%nat
      else 0%nat.

(** Scheduler activity for a room: a timer armed for it, or a flush of
    its receipts. *)
Definition rr_activity (room : string) (e : Effect) : Prop :=
  match e with
  | call_later _ r => r = room
  | flush_read_receipts_for_room _ r => r = room
  | _ => False
  end.

(** The state of a room between the receipt that armed its timer and
    the deadline of that timer: the entry is there, the timer is the
    only one of the room, and since [base] the scheduler did nothing
    for the room. *)
Definition rr_window (room : string) (deadline : Q) (base : list Effect)
    (s : FederationSender) : Prop :=
  is_Some (queues_awaiting_rr_flush_by_room s !! room)
  ∧ timers_of room (clock_timers s) = [(deadline, room)]
  ∧ ∃ later, trace s = base ++ later
             ∧ Forall (λ e, ¬ rr_activity room e) later.

(** ** The rest of the sender *)

(** *** A page of events, room by room *)

(** [events_by_room.setdefault(room, []).append(event)]; the dict keeps
    its keys in insertion order. *)
Fixpoint setdefault_append (room : string) (event : EventBase)
    (by_room : list (string * list EventBase))
    : list (string * list EventBase) :=
  match by_room with
  | [] => [(room, [event])]
  | (r, events) :: rest =>
      if decide (r = room) then (r, events ++ [event]) :: rest
      else (r, events) :: setdefault_append room event rest
  end.

(** The [for event in events] loop that fills [events_by_room]. *)
Definition events_by_room (events : list EventBase)
    : list (string * list EventBase) :=
  foldl (λ by_room event, setdefault_append (room_id event) event by_room)
        [] events.

(** *** Replication rows *)

(** [_on_new_receipts]; each row comes with what
    [get_current_hosts_in_room] answers when [send_read_receipt] is
    called for it, [None] when it raises, which ends the coroutine. *)
Fixpoint _on_new_receipts
    (rows : list (ReceiptsStreamRow * option (list string)))
    (s : FederationSender) : FederationSender :=
  match rows with
  | [] => s
  | (receipt, hosts) :: rest =>
      if negb (is_mine_id (row_user_id receipt)) then _on_new_receipts rest s
      else
        let receipt_info :=
          {| rr_room_id := row_room_id receipt;
             rr_receipt_type := row_receipt_type receipt;
             rr_user_id := row_user_id receipt;
             rr_event_ids := [row_event_id receipt];
             rr_data := row_data receipt |} in
        match hosts with
        | None => s
        | Some hosts =>
            _on_new_receipts rest (send_read_receipt receipt_info hosts s)
        end
  end.

(** [{row.entity for row in rows if not row.entity.startswith("@")}] *)
Definition row_hosts (entities : list string) : gset string :=
  list_to_set (filter (λ entity, startswith_at entity = false) entities).

(** [send_queue.process_rows_for_federation], which is not part of this
    file, and the rows it takes. *)
Variable FederationRow : Type.
Variable process_rows_for_federation :
  list FederationRow → FederationSender → FederationSender.

(** The rows handed to [process_replication_rows], by the stream they
    come from; [other_rows] is any other stream name. *)
Inductive ReplicationRows :=
| federation_rows (rows : list FederationRow)
| events_rows
| receipts_rows (rows : list ReceiptsStreamRow)
| device_lists_rows (entities : list string)
| to_device_rows (entities : list string)
| other_rows.

(** [process_replication_rows], up to the first suspension of the
    coroutines it starts: [update_token] goes on with
    [update_token_locked], and [_on_new_receipts] has not touched the
    sender yet. *)
Definition process_replication_rows (token : Z) (rows : ReplicationRows)
    (s : FederationSender) : FederationSender :=
  match rows with
  | federation_rows rows =>
      update_token_enter token (process_rows_for_federation rows s)
  | events_rows => notify_new_events token s
  | receipts_rows _ => s
  | device_lists_rows entities | to_device_rows entities =>
      foldl (λ s host, send_device_messages host s) s
            (elements (row_hosts entities))
  | other_rows => s
  end.

(** *** Quantities read off the trace *)

(** The tokens acknowledged over replication, oldest first. *)
Definition acks (t : list Effect) : list Z :=
  omap (λ e, match e with send_federation_ack token => Some token | _ => None end)
       t.

(** The queues holding a receipt of [room] that was queued after the
    last flush of the room's receipts on that queue. *)
Definition unflushed_step (room : string) (acc : gset string) (e : Effect)
    : gset string :=
  match e with
  | queue_read_receipt d receipt =>
      if decide (rr_room_id receipt = room) then {[d]} ∪ acc else acc
  | flush_read_receipts_for_room d r =>
      if decide (r = room) then acc ∖ {[d]} else acc
  | _ => acc
  end.

Definition unflushed (room : string) (t : list Effect) : gset string :=
  foldl (unflushed_step room) ∅ t.

(** The calls of a trace that queue a receipt. *)
Definition receipts_queued (t : list Effect) : list (string * ReadReceipt) :=
  omap (λ e, match e with queue_read_receipt d r => Some (d, r) | _ => None end)
       t.

(** Whether [handle_event] gets as far as [_send_pdu]. *)
Definition reaches_send_pdu (event : EventBase * option (list string)) : bool :=
  (is_mine_id (sender event.1) || bool_decide (is_Some (send_on_behalf_of event.1)))
  && should_proactively_send event.1
  && bool_decide (is_Some event.2).

(** Every queue the sender called, and every queue waiting for a receipt
    flush, is in the registry. *)
Definition registered (s : FederationSender) : Prop :=
  (∀ e d, e ∈ trace s → queue_call_dest e = Some d →
          d ∈ per_destination_queues s)
  ∧ (∀ room qs d, queues_awaiting_rr_flush_by_room s !! room = Some qs →
                  d ∈ qs → d ∈ per_destination_queues s).

(** Every queue of the registry was created for a call that was made. *)
Definition created_for_call (s : FederationSender) : Prop :=
  ∀ d, d ∈ per_destination_queues s →
       ∃ e, e ∈ trace s ∧ queue_call_dest e = Some d.

(** *** Interleaved [update_token] calls *)

(** No [update_token] of the run is called with a token below the
    position it finds: at every [op_update_token_enter] the token is at
    least [federation_position] at that moment. *)
Fixpoint tokens_ascend (s : FederationSender) (ops : list Op) : Prop :=
  match ops with
  | [] => True
  | op :: rest =>
      match op with
      | op_update_token_enter token => federation_position s ≤ token
      | _ => True
      end
      ∧ tokens_ascend (step s op) rest
  end.

(** The discipline of [_fed_position_linearizer] on a run: one call at
    a time is inside the [with] block.  [holding] tells whether a call is
    inside, suspended on the store.  The test of the block runs only
    when no call is inside, and the call stays inside exactly when the
    test sends it to the store; the answer of the store is taken only by
    a call that is inside, and ends its block.  Calls may enter
    [update_token], and anything else may run, at any time. *)
Fixpoint linearized (holding : bool) (s : FederationSender) (ops : list Op)
    : Prop :=
  match ops with
  | [] => True
  | op :: rest =>
      match op with
      | op_update_token_locked =>
          holding = false
          ∧ linearized (update_token_locked s).2 (step s op) rest
      | op_update_token_persisted _ =>
          holding = true ∧ linearized false (step s op) rest
      | _ => linearized holding (step s op) rest
      end
  end.

(** *** Steps that take an order number *)

(** Whether a step gets as far as the first lines of [_send_pdu]. *)
Definition takes_order (op : Op) : bool :=
  match op with
  | op_handle_event event hosts => reaches_send_pdu (event, hosts)
  | op_send_pdu _ _ => true
  | _ => false
  end.

(** *** The receipt of a row *)

(** The [ReadReceipt] that [_on_new_receipts] builds from a row. *)
Definition row_receipt (row : ReceiptsStreamRow) : ReadReceipt :=
  {| rr_room_id := row_room_id row;
     rr_receipt_type := row_receipt_type row;
     rr_user_id := row_user_id row;
     rr_event_ids := [row_event_id row];
     rr_data := row_data row |}.

(** ** Generic facts about folds *)

Lemma foldl_invariant {A B} (P : A → Prop) (f : A → B → A) (l : list B) (a : A) :
  P a → (∀ a b, P a → b ∈ l → P (f a b)) → P (foldl f a l).
Proof.
  revert a. induction l as [|b l IH]; intros a Ha Hf; simpl; [done|].
  apply IH.
  - apply Hf; [done | left].
  - intros a' b' Ha' Hb'. apply Hf; [done | by right].
Qed.

(** A fold of queue calls appends one call for each element. *)
Lemma trace_foldl_call_queue {B} (g : B → string) (h : B → Effect)
    (l : list B) (s : FederationSender) :
  trace (foldl (λ s b, call_queue (g b) (h b) s) s l) = trace s ++ (h <$> l).
Proof.
  revert s. induction l as [|b l IH]; intros s; simpl.
  - by rewrite app_nil_r.
  - rewrite IH. simpl. by rewrite <- app_assoc.
Qed.

Lemma trace_foldl_emit {B} (h : B → Effect) (l : list B) (s : FederationSender) :
  trace (foldl (λ s b, emit (h b) s) s l) = trace s ++ (h <$> l).
Proof.
  revert s. induction l as [|b l IH]; intros s; simpl.
  - by rewrite app_nil_r.
  - rewrite IH. simpl. by rewrite <- app_assoc.
Qed.

(** ** The federation position *)

Lemma update_token_position (token : Z) (raised : bool) (s : FederationSender) :
  federation_position (update_token token raised s) = token.
Proof.
  unfold update_token, update_token_locked, update_token_persisted. simpl.
  destruct (last_ack s <? token); [destruct raised|]; reflexivity.
Qed.

Lemma update_token_last_ack (token : Z) (raised : bool) (s : FederationSender) :
  last_ack (update_token token raised s) =
    if (last_ack s <? token) && negb raised then token else last_ack s.
Proof.
  unfold update_token, update_token_locked, update_token_persisted. simpl.
  destruct (last_ack s <? token); [destruct raised|]; reflexivity.
Qed.

(** ** EDUs *)

(** [send_edu] takes the keyed path exactly for truthy keys. *)
Lemma send_edu_trace (edu : Edu) (key : option Hashable) (s : FederationSender) :
  trace (send_edu edu key s) =
    trace s ++ [match key with
                | Some k => if truthy k
                            then send_keyed_edu (destination edu) edu k
                            else queue_send_edu (destination edu) edu
                | None => queue_send_edu (destination edu) edu
                end].
Proof. unfold send_edu. destruct key as [k|]; [destruct (truthy k)|]; done. Qed.

(** C3 (the code at the failing inputs): a key that is given but falsy,
    such as [0] or the empty string, is dropped: the EDU is queued with
    the unkeyed [send_edu] of the destination queue, as it is when no
    key is given; only a truthy key reaches [send_keyed_edu]. *)
Theorem send_edu_falsy_key_unkeyed (edu : Edu) (s : FederationSender) :
  trace (send_edu edu (Some (HInt 0)) s)
    = trace s ++ [queue_send_edu (destination edu) edu]
  ∧ trace (send_edu edu (Some (HStr "")) s)
    = trace s ++ [queue_send_edu (destination edu) edu]
  ∧ trace (send_edu edu None s)
    = trace s ++ [queue_send_edu (destination edu) edu]
  ∧ ∀ k, trace (send_edu edu (Some k) s)
         = trace s ++ [if truthy k
                       then send_keyed_edu (destination edu) edu k
                       else queue_send_edu (destination edu) edu].
Proof.
  repeat split; try by rewrite send_edu_trace.
  intros k. rewrite send_edu_trace. by destruct (truthy k).
Qed.

(** ** [_send_pdu] *)

Lemma queue_frame_refl s : queue_frame s s.
Proof. by repeat split. Qed.

Lemma queue_frame_trans s1 s2 s3 :
  queue_frame s1 s2 → queue_frame s2 s3 → queue_frame s1 s3.
Proof.
  unfold queue_frame. intros H1 H2. destruct_and!.
  repeat split; congruence.
Qed.

Lemma call_queue_frame dest e s : queue_frame s (call_queue dest e s).
Proof. by repeat split. Qed.

Lemma emit_frame e s : queue_frame s (emit e s).
Proof. by repeat split. Qed.

(** Fields a fold of queue calls leaves alone. *)
Lemma foldl_call_queue_frame {B} (g : B → string) (h : B → Effect)
    (l : list B) (s : FederationSender) :
  queue_frame s (foldl (λ s b, call_queue (g b) (h b) s) s l).
Proof.
  apply (foldl_invariant (queue_frame s)); [apply queue_frame_refl|].
  intros a b Ha _. eapply queue_frame_trans; [exact Ha|apply call_queue_frame].
Qed.

Lemma send_pdu_trace (pdu : EventBase) (destinations : list string)
    (s : FederationSender) :
  trace (_send_pdu pdu destinations s) =
    trace s ++ ((λ d, send_pdu d pdu (order s))
                  <$> elements (remote_destinations destinations)).
Proof.
  unfold _send_pdu, remote_destinations.
  destruct (decide (list_to_set destinations ∖ {[server_name]} = ∅)) as [->|_].
  - rewrite elements_empty. simpl. by rewrite app_nil_r.
  - by rewrite (trace_foldl_call_queue id).
Qed.

Lemma send_pdu_order (pdu : EventBase) (destinations : list string)
    (s : FederationSender) :
  order (_send_pdu pdu destinations s) = order s + 1.
Proof.
  unfold _send_pdu.
  destruct (decide (list_to_set destinations ∖ {[server_name]} = ∅)); [done|].
  by rewrite (proj1 (foldl_call_queue_frame id _ _ _)).
Qed.

Lemma send_pdu_counters (pdu : EventBase) (destinations : list string)
    (s : FederationSender) :
  let dsts := remote_destinations destinations in
  let s' := _send_pdu pdu destinations s in
  sent_pdus_destination_dist_count s' =
    sent_pdus_destination_dist_count s + (if decide (dsts = ∅) then 0 else 1)
  ∧ sent_pdus_destination_dist_total s' =
    sent_pdus_destination_dist_total s + Z.of_nat (size dsts).
Proof.
  unfold _send_pdu, remote_destinations. simpl.
  destruct (decide (list_to_set destinations ∖ {[server_name]} = ∅)) as [->|_].
  - rewrite size_empty. simpl. lia.
  - match goal with
    | |- context [foldl _ ?s0 ?l] =>
        destruct (foldl_call_queue_frame id (λ d, send_pdu d pdu (order s)) l s0)
          as (_ & Hc & Ht & _)
    end.
    simpl in Hc, Ht. by rewrite Hc, Ht.
Qed.

(** C10: over a sequence of [_send_pdu] invocations,
    [sent_pdus_destination_dist_count] grows by the number of
    invocations whose destination set, the local server removed, is not
    empty, and [sent_pdus_destination_dist_total] by the sum of the
    sizes of those sets; an invocation left with no destination changes
    neither. *)
Theorem send_pdu_metrics_exact
    (calls : list (EventBase * list string)) (s : FederationSender) :
  let s' := send_pdus calls s in
  sent_pdus_destination_dist_count s' =
    sent_pdus_destination_dist_count s + Z.of_nat (length (effective calls))
  ∧ sent_pdus_destination_dist_total s' =
    sent_pdus_destination_dist_total s
    + Z.of_nat (sum_list ((λ call, size (remote_destinations call.2))
                            <$> effective calls))
  ∧ ∀ pdu destinations s0,
      sent_pdus_destination_dist_count (_send_pdu pdu destinations s0)
        = sent_pdus_destination_dist_count s0
          + (if decide (remote_destinations destinations = ∅) then 0 else 1)
      ∧ sent_pdus_destination_dist_total (_send_pdu pdu destinations s0)
        = sent_pdus_destination_dist_total s0
          + (if decide (remote_destinations destinations = ∅) then 0
             else Z.of_nat (size (remote_destinations destinations))).
Proof.
  simpl. split_and!.
  - revert s. induction calls as [|[pdu ds] calls IH]; intros s; simpl.
    + lia.
    + unfold send_pdus in *. simpl. rewrite IH.
      rewrite (proj1 (send_pdu_counters pdu ds s)).
      unfold effective. rewrite filter_cons. simpl.
      destruct (decide (remote_destinations ds = ∅)) as [He|Hne].
      * rewrite decide_False by (intros H; by apply H). lia.
      * rewrite decide_True by done. simpl. lia.
  - revert s. induction calls as [|[pdu ds] calls IH]; intros s; simpl.
    + lia.
    + unfold send_pdus in *. simpl. rewrite IH.
      rewrite (proj2 (send_pdu_counters pdu ds s)).
      unfold effective. rewrite filter_cons. simpl.
      destruct (decide (remote_destinations ds = ∅)) as [He|Hne].
      * rewrite decide_False by (intros H; by apply H).
        rewrite He, size_empty. lia.
      * rewrite decide_True by done. rewrite fmap_cons. cbn [sum_list snd].
        rewrite Nat2Z.inj_add. unfold id. lia.
  - intros pdu ds s0.
    destruct (send_pdu_counters pdu ds s0) as [Hc Ht]. simpl in Hc, Ht.
    rewrite Hc, Ht.
    destruct (decide (remote_destinations ds = ∅)) as [->|_]; [|done].
    by rewrite size_empty.
Qed.

(** ** [handle_event] *)

(** The destinations [handle_event] hands to [_send_pdu], when it gets
    that far. *)
Lemma handle_event_trace (event : EventBase) (hosts : option (list string))
    (s : FederationSender) :
  trace (handle_event event hosts s) =
    trace s ++
    if negb (is_mine_id (sender event))
       && negb (bool_decide (is_Some (send_on_behalf_of event)))
    then []
    else if negb (should_proactively_send event) then []
    else match hosts with
         | None => []
         | Some hs =>
             (λ d, send_pdu d event (order s)) <$>
               elements (match send_on_behalf_of event with
                         | Some x => list_to_set hs ∖ {[x]}
                         | None => list_to_set hs
                         end ∖ {[server_name]} : gset string)
         end.
Proof.
  unfold handle_event.
  destruct (negb (is_mine_id (sender event))
            && negb (bool_decide (is_Some (send_on_behalf_of event))));
    [by rewrite app_nil_r|].
  destruct (negb (should_proactively_send event)); [by rewrite app_nil_r|].
  destruct hosts as [hs|]; [|by rewrite app_nil_r].
  rewrite send_pdu_trace. unfold remote_destinations.
  by rewrite list_to_set_elements_L.
Qed.

(** C4: the [send_pdu] calls [handle_event] makes for an event go, once
    each, to the hosts the resolver returned, less the server the event
    is sent on behalf of and less the local server, and they are made
    only for an event that is ours or sent on behalf of a server, that
    should be sent proactively, and whose hosts the resolver could
    compute; in every other case, and when no host is left, no call is
    made. *)
Theorem handle_event_fanout (event : EventBase) (hosts : option (list string))
    (s : FederationSender) :
  ∃ calls : list Effect,
    trace (handle_event event hosts s) = trace s ++ calls
    ∧ NoDup calls
    ∧ (∀ e, e ∈ calls → ∃ d, e = send_pdu d event (order s))
    ∧ (∀ d, send_pdu d event (order s) ∈ calls ↔
         (is_mine_id (sender event) = true
          ∨ is_Some (send_on_behalf_of event))
         ∧ should_proactively_send event = true
         ∧ ∃ hs, hosts = Some hs ∧ d ∈ hs
                 ∧ send_on_behalf_of event ≠ Some d ∧ d ≠ server_name).
Proof.
  eexists. split; [apply handle_event_trace|].
  destruct (is_mine_id (sender event)) eqn:Hmine;
    destruct (send_on_behalf_of event) as [x|] eqn:Hsob;
    destruct (should_proactively_send event) eqn:Hgate;
    destruct hosts as [hs|]; simpl;
    try (split_and!;
         [ apply NoDup_nil_2
         | intros e He; by apply elem_of_nil in He
         | intros d; split;
           [ intros He; by apply elem_of_nil in He
           | intros (Ho & Hg & hs' & Hh & _);
             first [ discriminate
                   | destruct Ho as [Ho|[? Ho]]; discriminate ] ] ]).
  all: split_and!.
  all: try (apply NoDup_fmap_2; [intros ?? [=]; done | apply NoDup_elements]).
  all: try (intros e [d [-> _]]%list_elem_of_fmap; by eexists).
  all: intros d; rewrite list_elem_of_fmap; split.
  all: try (intros (d' & [= <-] & Hd); apply elem_of_elements in Hd;
            split_and!; eauto; exists hs; set_solver).
  all: intros (_ & _ & hs' & [= <-] & Hd & Hx & Hs); exists d;
       split; [done|]; apply elem_of_elements; set_solver.
Qed.

(** ** What a step adds to the trace *)

Lemma foldl_emits {B} (P : Effect → Prop)
    (f : FederationSender → B → FederationSender) (l : list B)
    (s : FederationSender) :
  (∀ a b, b ∈ l → ∃ l', trace (f a b) = trace a ++ l' ∧ Forall P l') →
  ∃ l', trace (foldl f s l) = trace s ++ l' ∧ Forall P l'.
Proof.
  revert s. induction l as [|b l IH]; intros s Hf; simpl.
  - exists []. by rewrite app_nil_r.
  - destruct (Hf s b) as (l1 & H1 & HP1); [left|].
    destruct (IH (f s b)) as (l2 & H2 & HP2).
    { intros a b' Hb'. apply Hf. by right. }
    exists (l1 ++ l2). split.
    + by rewrite H2, H1, <- app_assoc.
    + by apply Forall_app.
Qed.

Lemma emits_nothing (P : Effect → Prop) (s s' : FederationSender) :
  trace s' = trace s → ∃ l, trace s' = trace s ++ l ∧ Forall P l.
Proof. intros ->. exists []. by rewrite app_nil_r. Qed.

Lemma send_read_receipt_emits receipt hosts s :
  ∃ l, trace (send_read_receipt receipt hosts s) = trace s ++ l
       ∧ Forall (may_emit s (op_send_read_receipt receipt hosts)) l.
Proof.
  unfold send_read_receipt.
  destruct (filter (λ d, d ≠ server_name) hosts) as [|d0 ds] eqn:Hdom;
    [by apply emits_nothing|].
  rewrite <- Hdom.
  assert (Hne : ∀ d, d ∈ filter (λ d, d ≠ server_name) hosts → d ≠ server_name).
  { intros d Hd. by apply list_elem_of_filter in Hd as [? _]. }
  destruct (queues_awaiting_rr_flush_by_room s !! rr_room_id receipt)
    as [qs|] eqn:Hrr.
  - apply foldl_emits. intros a d Hd. eexists. split; [simpl; reflexivity|].
    constructor; [|constructor]. left. exists d. split; [by apply Hne|done].
  - match goal with
    | |- context [foldl ?f ?s0 ?l] =>
        destruct (foldl_emits
                    (may_emit s (op_send_read_receipt receipt hosts)) f l s0)
          as (l' & Hl' & HP)
    end.
    { intros a d Hd. eexists. split; [simpl; rewrite <- app_assoc; reflexivity|].
      constructor; [|constructor; [|constructor]].
      - left. exists d. split; [by apply Hne|done].
      - right. split; [done|]. left. exists d. split; [by apply Hne|done]. }
    rewrite Hl'. simpl. rewrite <- app_assoc. eexists. split; [reflexivity|].
    constructor; [|done]. right. split; [done|]. right. by eexists.
Qed.

Lemma timer_fires_emits room s :
  ∃ l, trace (timer_fires room s) = trace s ++ l
       ∧ Forall (may_emit s (op_timer_fires room)) l.
Proof.
  unfold timer_fires.
  destruct (take_due_timer (clock_now s) room (clock_timers s))
    as [rest|] eqn:Hdue; [|by apply emits_nothing].
  unfold _flush_rrs_for_room. simpl.
  destruct (queues_awaiting_rr_flush_by_room s !! room) as [qs|] eqn:Hrr;
    [|by apply emits_nothing].
  destruct (decide (qs = ∅)); [by apply emits_nothing|].
  simpl. rewrite trace_foldl_emit. simpl. rewrite <- app_assoc.
  eexists. split; [reflexivity|]. simpl.
  constructor.
  - split; [by rewrite Hdue|]. right. by eexists.
  - apply Forall_fmap, Forall_forall. intros q Hq. simpl.
    split; [by rewrite Hdue|]. left. exists qs, q.
    apply elem_of_elements in Hq. by rewrite Hrr.
Qed.

Lemma foldl_presence_emits (states : list UserPresenceState)
    (destinations : list string) (P : Effect → Prop) (s : FederationSender) :
  (∀ d, d ≠ server_name → P (queue_send_presence d states)) →
  ∃ l, trace (foldl (λ s destination,
                       if decide (destination = server_name) then s
                       else call_queue destination
                              (queue_send_presence destination states) s)
                    s destinations) = trace s ++ l
       ∧ Forall P l.
Proof.
  intros HP. apply foldl_emits. intros a d _.
  destruct (decide (d = server_name)); [by apply emits_nothing|].
  eexists. split; [simpl; reflexivity|]. constructor; [by apply HP|constructor].
Qed.

Lemma process_presence_inner_emits hosts_and_states (P : Effect → Prop) s :
  (∀ d states, d ≠ server_name → P (queue_send_presence d states)) →
  ∃ l, trace (_process_presence_inner hosts_and_states s) = trace s ++ l
       ∧ Forall P l.
Proof.
  intros HP. unfold _process_presence_inner. apply foldl_emits.
  intros a [destinations states] _. apply foldl_presence_emits.
  intros d Hd. by apply HP.
Qed.

Lemma presence_loop_emits (P : Effect → Prop) s :
  (∀ batch, P (get_interested_remotes batch)) →
  ∃ l, trace (presence_loop s) = trace s ++ l ∧ Forall P l.
Proof.
  intros HP. unfold presence_loop.
  destruct (decide (pending_presence s = ∅)); [by apply emits_nothing|].
  eexists. split; [simpl; reflexivity|]. constructor; [apply HP|constructor].
Qed.

(** Every step appends to the trace, and only calls it [may_emit]. *)
Lemma step_emits (s : FederationSender) (op : Op) :
  ∃ l, trace (step s op) = trace s ++ l ∧ Forall (may_emit s op) l.
Proof.
  destruct op; simpl step.
  - apply emits_nothing. unfold notify_new_events.
    by destruct (is_processing _).
  - apply emits_nothing. unfold event_loop_fetched.
    destruct (event_loop_passes s); [done|].
    destruct page as [[nt evs]|]; [|done].
    by destruct (bool_decide (evs = []) && (nt >=? last_poked_id s)).
  - eexists. split; [apply handle_event_trace|].
    destruct (negb (is_mine_id (sender event))
              && negb (bool_decide (is_Some (send_on_behalf_of event))));
      [done|].
    destruct (negb (should_proactively_send event)); [done|].
    destruct hosts as [hs|]; [|done].
    apply Forall_fmap, Forall_forall. intros d Hd. exists d.
    split; [|done]. apply elem_of_elements in Hd. set_solver.
  - unfold event_loop_page_done.
    destruct (event_loop_passes s); [by apply emits_nothing|].
    exists [update_federation_out_pos "events" next_token].
    split; [by destruct raised|]. by constructor.
  - eexists. split; [apply send_pdu_trace|].
    apply Forall_fmap, Forall_forall. intros d Hd. exists d.
    split; [|done]. apply elem_of_elements in Hd.
    unfold remote_destinations in Hd. set_solver.
  - apply send_read_receipt_emits.
  - apply timer_fires_emits.
  - apply emits_nothing. unfold clock_advance.
    by destruct (Qle_bool (clock_now s) t).
  - unfold send_presence. destruct use_presence; [|by apply emits_nothing].
    simpl. destruct (processing_pending_presence s); [by apply emits_nothing|].
    match goal with
    | |- context [presence_loop ?s0] =>
        destruct (presence_loop_emits
                    (may_emit s (op_send_presence states)) s0) as (l & Hl & HP)
    end.
    { intros batch. by eexists. }
    exists l. by rewrite Hl.
  - unfold presence_resumed.
    destruct (presence_passes s); [by apply emits_nothing|].
    destruct result as [hs|]; [|by apply emits_nothing].
    destruct (process_presence_inner_emits hs
                (may_emit s (op_presence_resumed (Some hs))) s)
      as (l1 & H1 & HP1).
    { intros d states Hd. left. by exists d, states. }
    destruct (presence_loop_emits (may_emit s (op_presence_resumed (Some hs)))
                (_process_presence_inner hs s)) as (l2 & H2 & HP2).
    { intros batch. right. by eexists. }
    exists (l1 ++ l2). split; [by rewrite H2, H1, <- app_assoc|].
    by apply Forall_app.
  - unfold send_presence_to_destinations.
    destruct (bool_decide (states = []) || negb use_presence);
      [by apply emits_nothing|].
    apply foldl_presence_emits. intros d Hd. by exists d.
  - unfold build_and_send_edu.
    destruct (decide (dest = server_name)); [by apply emits_nothing|].
    eexists. split; [apply send_edu_trace|].
    constructor; [|constructor]. split; [done|]. simpl.
    destruct key as [k|]; [destruct (truthy k)|]; eauto.
  - eexists. split; [apply send_edu_trace|].
    constructor; [|constructor]. simpl.
    destruct key as [k|]; [destruct (truthy k)|]; eauto.
  - unfold send_device_messages.
    destruct (decide (dest = server_name)); [by apply emits_nothing|].
    eexists. split; [simpl; reflexivity|]. by constructor.
  - unfold wake_destination.
    destruct (decide (dest = server_name)); [by apply emits_nothing|].
    eexists. split; [simpl; reflexivity|]. by constructor.
  - by apply emits_nothing.
  - unfold update_token_locked.
    destruct (last_ack s <? federation_position s); [|by apply emits_nothing].
    eexists. split; [simpl; reflexivity|]. constructor; [by eexists|constructor].
  - unfold update_token_persisted.
    destruct raised; [by apply emits_nothing|].
    eexists. split; [simpl; reflexivity|]. constructor; [by eexists|constructor].
Qed.

(** ** Fields a step leaves alone *)

Ltac frame_fold :=
  match goal with
  | |- ?proj (foldl ?f ?a ?l) = ?rhs =>
      apply (foldl_invariant (λ x, proj x = rhs) f l a);
      [| let H := fresh "Hacc" in intros ? ? H _; cbn; try rewrite H]
  end.

Ltac frame_case :=
  match goal with
  | |- context [match ?x with _ => _ end] =>
      first [ is_var x; destruct x | destruct x eqn:? ]
  end.

Ltac frame := cbn; repeat first [ done | frame_fold | progress cbn | frame_case ].

Lemma send_pdu_frame pdu destinations s :
  let s' := _send_pdu pdu destinations s in
  pending_presence s' = pending_presence s
  ∧ queues_awaiting_rr_flush_by_room s' = queues_awaiting_rr_flush_by_room s
  ∧ clock_now s' = clock_now s ∧ clock_timers s' = clock_timers s
  ∧ is_processing s' = is_processing s
  ∧ event_loop_passes s' = event_loop_passes s
  ∧ processing_pending_presence s' = processing_pending_presence s
  ∧ presence_passes s' = presence_passes s.
Proof. unfold _send_pdu. split_and!; frame. Qed.

Lemma handle_event_frame event hosts s :
  let s' := handle_event event hosts s in
  pending_presence s' = pending_presence s
  ∧ queues_awaiting_rr_flush_by_room s' = queues_awaiting_rr_flush_by_room s
  ∧ clock_now s' = clock_now s ∧ clock_timers s' = clock_timers s
  ∧ is_processing s' = is_processing s
  ∧ event_loop_passes s' = event_loop_passes s
  ∧ processing_pending_presence s' = processing_pending_presence s
  ∧ presence_passes s' = presence_passes s.
Proof.
  unfold handle_event.
  destruct (negb (is_mine_id (sender event))
            && negb (bool_decide (is_Some (send_on_behalf_of event))));
    [done|].
  destruct (negb (should_proactively_send event)); [done|].
  destruct hosts; [|done]. apply send_pdu_frame.
Qed.

Lemma send_read_receipt_frame receipt hosts s :
  let s' := send_read_receipt receipt hosts s in
  order s' = order s
  ∧ pending_presence s' = pending_presence s
  ∧ clock_now s' = clock_now s
  ∧ is_processing s' = is_processing s
  ∧ event_loop_passes s' = event_loop_passes s
  ∧ processing_pending_presence s' = processing_pending_presence s
  ∧ presence_passes s' = presence_passes s.
Proof. unfold send_read_receipt. split_and!; frame. Qed.

Lemma timer_fires_frame room s :
  let s' := timer_fires room s in
  order s' = order s
  ∧ pending_presence s' = pending_presence s
  ∧ clock_now s' = clock_now s
  ∧ is_processing s' = is_processing s
  ∧ event_loop_passes s' = event_loop_passes s
  ∧ processing_pending_presence s' = processing_pending_presence s
  ∧ presence_passes s' = presence_passes s.
Proof. unfold timer_fires, _flush_rrs_for_room. split_and!; frame. Qed.

Lemma process_presence_inner_frame hosts_and_states s :
  queue_frame s (_process_presence_inner hosts_and_states s).
Proof.
  unfold _process_presence_inner.
  apply (foldl_invariant (queue_frame s)); [apply queue_frame_refl|].
  intros a [destinations states] Ha _.
  apply (foldl_invariant (queue_frame s)); [done|].
  intros a' d Ha' _. destruct (decide (d = server_name)); [done|].
  eapply queue_frame_trans; [exact Ha'|apply call_queue_frame].
Qed.

Lemma presence_frame op s :
  match op with
  | op_send_presence _ | op_presence_resumed _ => True
  | _ => False
  end →
  let s' := step s op in
  order s' = order s
  ∧ queues_awaiting_rr_flush_by_room s' = queues_awaiting_rr_flush_by_room s
  ∧ clock_now s' = clock_now s ∧ clock_timers s' = clock_timers s
  ∧ is_processing s' = is_processing s
  ∧ event_loop_passes s' = event_loop_passes s.
Proof.
  destruct op; try done; intros _; simpl.
  - unfold send_presence, presence_loop, presence_finally.
    split_and!; frame.
  - unfold presence_resumed, presence_loop, presence_finally.
    destruct (presence_passes s); [done|].
    destruct result as [hs|]; [|done].
    pose proof (process_presence_inner_frame hs s) as Hf.
    unfold queue_frame in Hf. destruct_and!.
    destruct (decide (pending_presence (_process_presence_inner hs s) = ∅));
      simpl; split_and!; congruence.
Qed.

(** Steps that only call queues, or only touch the event loop, the
    clock or the positions, leave the rest alone. *)
Lemma step_order (s : FederationSender) (op : Op) :
  match op with
  | op_handle_event _ _ | op_send_pdu _ _ => False
  | _ => True
  end →
  order (step s op) = order s.
Proof.
  destruct op; try done; intros _; simpl.
  - unfold notify_new_events. frame.
  - unfold event_loop_fetched. frame.
  - unfold event_loop_page_done. frame.
  - apply send_read_receipt_frame.
  - apply timer_fires_frame.
  - unfold clock_advance. frame.
  - by apply (presence_frame (op_send_presence states)).
  - by apply (presence_frame (op_presence_resumed result)).
  - unfold send_presence_to_destinations. frame.
  - unfold build_and_send_edu, send_edu. frame.
  - unfold send_edu. frame.
  - unfold send_device_messages. frame.
  - unfold wake_destination. frame.
  - unfold update_token_locked. frame.
  - unfold update_token_persisted. frame.
Qed.

(** ** The order of PDUs *)

Lemma pdu_orders_app dest l1 l2 :
  pdu_orders dest (l1 ++ l2) = pdu_orders dest l1 ++ pdu_orders dest l2.
Proof.
  induction l1 as [|e l1 IH]; [done|].
  destruct e; simpl; try done.
  destruct (decide (dest0 = dest)); simpl; by rewrite IH.
Qed.

Lemma pdu_orders_none dest l :
  Forall (λ e, ∀ d pdu o, e ≠ send_pdu d pdu o) l → pdu_orders dest l = [].
Proof.
  induction 1 as [|e l He _ IH]; [done|].
  destruct e; simpl; try done. by destruct (He dest0 pdu order0).
Qed.

(** One [_send_pdu] hands its order to a queue at most once. *)
Lemma pdu_orders_fanout dest pdu o (ds : list string) :
  NoDup ds →
  pdu_orders dest ((λ d, send_pdu d pdu o) <$> ds) =
    if decide (dest ∈ ds) then [o] else [].
Proof.
  induction 1 as [|d ds Hd Hnd IH].
  - rewrite decide_False; [done|]. apply not_elem_of_nil.
  - rewrite fmap_cons. cbn [pdu_orders]. rewrite IH.
    destruct (decide (d = dest)) as [->|Hne].
    + rewrite decide_False by done. rewrite decide_True; [done|left].
    + destruct (decide (dest ∈ ds)).
      * rewrite decide_True; [done|by right].
      * rewrite decide_False; [done|]. rewrite elem_of_cons. naive_solver.
Qed.

Lemma orders_below_counter_send_pdu dest pdu destinations s :
  orders_below_counter dest s →
  orders_below_counter dest (_send_pdu pdu destinations s).
Proof.
  intros [Hs Hb]. unfold orders_below_counter.
  rewrite send_pdu_trace, send_pdu_order, pdu_orders_app.
  rewrite pdu_orders_fanout by apply NoDup_elements.
  destruct (decide (dest ∈ elements (remote_destinations destinations))).
  - split.
    + apply StronglySorted_app. split_and!; [|done|repeat constructor].
      intros x1 x2 H1 ->%list_elem_of_singleton.
      by apply (proj1 (Forall_forall _ _) Hb).
    + apply Forall_app. split; [|repeat constructor; lia].
      eapply Forall_impl; [exact Hb|]. simpl. intros; lia.
  - rewrite app_nil_r. split; [done|].
    eapply Forall_impl; [exact Hb|]. simpl. intros; lia.
Qed.

Lemma handle_event_cases event hosts s :
  handle_event event hosts s = s
  ∨ ∃ destinations, handle_event event hosts s = _send_pdu event destinations s.
Proof.
  unfold handle_event.
  destruct (negb (is_mine_id (sender event))
            && negb (bool_decide (is_Some (send_on_behalf_of event))));
    [by left|].
  destruct (negb (should_proactively_send event)); [by left|].
  destruct hosts; [|by left]. right. by eexists.
Qed.

Lemma orders_below_counter_step dest s op :
  orders_below_counter dest s → orders_below_counter dest (step s op).
Proof.
  intros Hinv.
  assert (Hquiet : match op with
                   | op_handle_event _ _ | op_send_pdu _ _ => False
                   | _ => True
                   end → orders_below_counter dest (step s op)).
  { intros Hop. destruct (step_emits s op) as (l & Hl & Hem).
    unfold orders_below_counter.
    rewrite Hl, pdu_orders_app, step_order by done.
    rewrite (pdu_orders_none dest l); [by rewrite app_nil_r|].
    eapply Forall_impl; [exact Hem|]. intros e He d pdu o ->.
    destruct op; simpl in He, Hop; try done; naive_solver. }
  destruct op; try (apply Hquiet; exact I); simpl.
  - destruct (handle_event_cases event hosts s) as [->|[ds ->]];
      [done|by apply orders_below_counter_send_pdu].
  - by apply orders_below_counter_send_pdu.
Qed.

Lemma orders_below_counter_run dest ops s :
  orders_below_counter dest s → orders_below_counter dest (run ops s).
Proof.
  revert s. induction ops as [|op ops IH]; intros s Hs; [done|].
  simpl. apply IH. by apply orders_below_counter_step.
Qed.

(** C5: whatever the dispatcher is made to do, the [order] values that
    the queue of a destination receives with [send_pdu] increase
    strictly; every [_send_pdu] call takes its order from the counter
    and adds one to the counter, also when it is left with no
    destination. *)
Theorem pdu_order_strictly_increasing
    (ops : list Op) (pos : Z) (now : Q) (dest : string) :
  StronglySorted Z.lt (pdu_orders dest (trace (run ops (init pos now))))
  ∧ ∀ pdu destinations s,
      order (_send_pdu pdu destinations s) = order s + 1
      ∧ ∃ calls, trace (_send_pdu pdu destinations s) = trace s ++ calls
                 ∧ Forall (λ e, ∃ d, e = send_pdu d pdu (order s)) calls.
Proof.
  split.
  - apply (orders_below_counter_run dest ops (init pos now)).
    split; simpl; constructor.
  - intros pdu ds s. split; [apply send_pdu_order|].
    eexists. split; [apply send_pdu_trace|].
    apply Forall_fmap, Forall_forall. intros d _. by exists d.
Qed.

(** ** The receipt table and the timers *)

(** Steps other than receipts and timers leave the table and the armed
    timers alone. *)
Lemma step_rr_frame (s : FederationSender) (op : Op) :
  match op with
  | op_send_read_receipt _ _ | op_timer_fires _ => False
  | _ => True
  end →
  queues_awaiting_rr_flush_by_room (step s op) = queues_awaiting_rr_flush_by_room s
  ∧ clock_timers (step s op) = clock_timers s.
Proof.
  destruct op; try done; intros _; simpl.
  - unfold notify_new_events. split; frame.
  - unfold event_loop_fetched. split; frame.
  - split; apply handle_event_frame.
  - unfold event_loop_page_done. split; frame.
  - split; apply send_pdu_frame.
  - unfold clock_advance. split; frame.
  - split; by apply (presence_frame (op_send_presence states)).
  - split; by apply (presence_frame (op_presence_resumed result)).
  - unfold send_presence_to_destinations. split; frame.
  - unfold build_and_send_edu, send_edu. split; frame.
  - unfold send_edu. split; frame.
  - unfold send_device_messages. split; frame.
  - unfold wake_destination. split; frame.
  - unfold update_token_locked. split; frame.
  - unfold update_token_persisted. split; frame.
Qed.

(** Only [clock_advance] moves the clock, and only forwards. *)
Lemma step_clock_now (s : FederationSender) (op : Op) :
  (clock_now s <= clock_now (step s op))%Q.
Proof.
  assert (Heq : ∀ s', clock_now s' = clock_now s →
                      (clock_now s <= clock_now s')%Q).
  { intros s' ->. apply Qle_refl. }
  destruct op; simpl;
    try lazymatch goal with
        | |- context [clock_advance] => idtac
        | _ => apply Heq
        end.
  - unfold notify_new_events. frame.
  - unfold event_loop_fetched. frame.
  - apply handle_event_frame.
  - unfold event_loop_page_done. frame.
  - apply send_pdu_frame.
  - apply send_read_receipt_frame.
  - apply timer_fires_frame.
  - unfold clock_advance.
    destruct (Qle_bool (clock_now s) t) eqn:Ht; [|apply Qle_refl].
    simpl. by apply Qle_bool_iff.
  - by apply (presence_frame (op_send_presence states)).
  - by apply (presence_frame (op_presence_resumed result)).
  - unfold send_presence_to_destinations. frame.
  - unfold build_and_send_edu, send_edu. frame.
  - unfold send_edu. frame.
  - unfold send_device_messages. frame.
  - unfold wake_destination. frame.
  - done.
  - unfold update_token_locked. frame.
  - unfold update_token_persisted. frame.
Qed.

Lemma run_clock_now (ops : list Op) (s : FederationSender) :
  (clock_now s <= clock_now (run ops s))%Q.
Proof.
  revert s. induction ops as [|op ops IH]; intros s; [apply Qle_refl|].
  simpl. eapply Qle_trans; [apply step_clock_now|apply IH].
Qed.

(** Receipts that find a flush scheduled register their queues. *)
Lemma foldl_register_queues receipt room (l : list string) qs s :
  queues_awaiting_rr_flush_by_room s !! room = Some qs →
  let s' := foldl (λ s domain,
                     with_rr (alter (λ qs, {[domain]} ∪ qs) room)
                       (call_queue domain (queue_read_receipt domain receipt) s))
                  s l in
  queues_awaiting_rr_flush_by_room s' =
    <[room := list_to_set l ∪ qs]> (queues_awaiting_rr_flush_by_room s)
  ∧ clock_timers s' = clock_timers s.
Proof.
  revert qs s. induction l as [|d l IH]; intros qs s Hqs; simpl.
  - split; [|done]. rewrite insert_id; [done|].
    rewrite Hqs. f_equal. set_solver.
  - match goal with
    | |- context [foldl ?f ?s1 l] =>
        destruct (IH ({[d]} ∪ qs) s1) as [Hrr Ht]
    end.
    { simpl. rewrite lookup_alter_eq, Hqs. done. }
    rewrite Hrr, Ht. simpl. split; [|done].
    apply map_eq. intros k. destruct (decide (k = room)) as [->|Hne].
    + rewrite !lookup_insert_eq. f_equal. set_solver.
    + rewrite !lookup_insert_ne by done. by rewrite lookup_alter_ne.
Qed.

(** What [send_read_receipt] does to the table and to the timers. *)
Lemma send_read_receipt_rr receipt hosts s :
  let room := rr_room_id receipt in
  let domains := filter (λ d, d ≠ server_name) hosts in
  let s' := send_read_receipt receipt hosts s in
  match domains with
  | [] => s' = s
  | _ =>
      match queues_awaiting_rr_flush_by_room s !! room with
      | Some qs =>
          queues_awaiting_rr_flush_by_room s' =
            <[room := list_to_set domains ∪ qs]>
              (queues_awaiting_rr_flush_by_room s)
          ∧ clock_timers s' = clock_timers s
      | None =>
          queues_awaiting_rr_flush_by_room s' =
            <[room := ∅]> (queues_awaiting_rr_flush_by_room s)
          ∧ clock_timers s' =
              clock_timers s ++
              [((clock_now s + rr_txn_interval_per_room_ms
                               * inject_Z (Z.of_nat (length domains)))%Q, room)]
      end
  end.
Proof.
  unfold send_read_receipt. simpl.
  destruct (filter (λ d, d ≠ server_name) hosts) as [|d0 ds] eqn:Hdom; [done|].
  destruct (queues_awaiting_rr_flush_by_room s !! rr_room_id receipt)
    as [qs|] eqn:Hrr.
  - by apply foldl_register_queues.
  - split; frame.
Qed.

Lemma take_due_timer_Some now room timers rest :
  take_due_timer now room timers = Some rest →
  ∃ deadline before after,
    timers = before ++ (deadline, room) :: after
    ∧ rest = before ++ after ∧ (deadline <= now)%Q.
Proof.
  revert rest. induction timers as [|[dl r] timers IH]; intros rest; simpl;
    [done|].
  destruct (Qle_bool dl now && bool_decide (r = room)) eqn:Hdue.
  - intros [= <-]. apply andb_true_iff in Hdue as [Hle Hr].
    apply bool_decide_eq_true in Hr as ->. apply Qle_bool_iff in Hle.
    by exists dl, [], timers.
  - destruct (take_due_timer now room timers) as [rest'|]; [|done].
    intros [= <-].
    destruct (IH rest' eq_refl) as (deadline & before & after & -> & -> & Hle).
    by exists deadline, ((dl, r) :: before), after.
Qed.

Lemma timers_of_app room l1 l2 :
  timers_of room (l1 ++ l2) = timers_of room l1 ++ timers_of room l2.
Proof. apply filter_app. Qed.

Lemma timers_of_cons_eq room deadline l :
  timers_of room ((deadline, room) :: l) = (deadline, room) :: timers_of room l.
Proof. unfold timers_of. by rewrite filter_cons_True. Qed.

Lemma timers_of_cons_ne room deadline r l :
  r ≠ room → timers_of room ((deadline, r) :: l) = timers_of room l.
Proof. intros Hne. unfold timers_of. by rewrite filter_cons_False. Qed.

(** What a firing timer does to the table and to the timers. *)
Lemma timer_fires_rr room s :
  let s' := timer_fires room s in
  match take_due_timer (clock_now s) room (clock_timers s) with
  | None => s' = s
  | Some rest =>
      match queues_awaiting_rr_flush_by_room s !! room with
      | None =>
          queues_awaiting_rr_flush_by_room s' = queues_awaiting_rr_flush_by_room s
          ∧ clock_timers s' = rest
      | Some qs =>
          if decide (qs = ∅)
          then queues_awaiting_rr_flush_by_room s' =
                 delete room (queues_awaiting_rr_flush_by_room s)
               ∧ clock_timers s' = rest
          else queues_awaiting_rr_flush_by_room s' =
                 <[room := ∅]> (delete room (queues_awaiting_rr_flush_by_room s))
               ∧ clock_timers s' =
                   rest ++ [((clock_now s + rr_txn_interval_per_room_ms
                                            * inject_Z (Z.of_nat (size qs)))%Q,
                             room)]
      end
  end.
Proof.
  unfold timer_fires. simpl.
  destruct (take_due_timer (clock_now s) room (clock_timers s)) as [rest|];
    [|done].
  unfold _flush_rrs_for_room. simpl.
  destruct (queues_awaiting_rr_flush_by_room s !! room) as [qs|]; [|done].
  destruct (decide (qs = ∅)); [done|]. simpl. split; frame.
Qed.

Lemma timers_consistent_step s op :
  timers_consistent s → timers_consistent (step s op).
Proof.
  intros Hinv.
  assert (Hquiet : match op with
                   | op_send_read_receipt _ _ | op_timer_fires _ => False
                   | _ => True
                   end → timers_consistent (step s op)).
  { intros Hop room. destruct (step_rr_frame s op Hop) as [-> ->].
    apply Hinv. }
  destruct op; try (apply Hquiet; exact I); simpl; intros r.
  - pose proof (send_read_receipt_rr receipt hosts s) as H. simpl in H.
    destruct (filter (λ d, d ≠ server_name) hosts) as [|d0 ds];
      [rewrite H; apply Hinv|].
    pose proof (Hinv (rr_room_id receipt)) as Hroom. specialize (Hinv r).
    destruct (queues_awaiting_rr_flush_by_room s !! rr_room_id receipt)
      as [qs|] eqn:Hrr; destruct H as [-> ->].
    + destruct (decide (r = rr_room_id receipt)) as [->|Hne].
      * by rewrite lookup_insert_eq, Hroom.
      * by rewrite lookup_insert_ne.
    + rewrite timers_of_app. rewrite length_app.
      destruct (decide (r = rr_room_id receipt)) as [->|Hne].
      * rewrite lookup_insert_eq, Hroom, timers_of_cons_eq. done.
      * rewrite lookup_insert_ne, timers_of_cons_ne by done.
        rewrite Hinv. simpl. lia.
  - pose proof (timer_fires_rr room s) as H. simpl in H.
    destruct (take_due_timer (clock_now s) room (clock_timers s))
      as [rest|] eqn:Hdue; [|rewrite H; apply Hinv].
    apply take_due_timer_Some in Hdue
      as (deadline & before & after & Ht & -> & Hle).
    pose proof (Hinv room) as Hroom. specialize (Hinv r).
    rewrite Ht in Hroom, Hinv.
    rewrite timers_of_app, length_app in Hroom, Hinv.
    rewrite timers_of_cons_eq in Hroom. simpl in Hroom.
    destruct (queues_awaiting_rr_flush_by_room s !! room) as [qs|] eqn:Hrr;
      [|lia].
    destruct (decide (qs = ∅)); destruct H as [-> ->].
    + rewrite timers_of_app, length_app.
      destruct (decide (r = room)) as [->|Hne].
      * rewrite lookup_delete_eq. lia.
      * rewrite lookup_delete_ne by done.
        rewrite timers_of_cons_ne in Hinv by done. done.
    + rewrite !timers_of_app, !length_app.
      destruct (decide (r = room)) as [->|Hne].
      * rewrite lookup_insert_eq, timers_of_cons_eq. simpl. lia.
      * rewrite lookup_insert_ne, lookup_delete_ne by done.
        rewrite timers_of_cons_ne in Hinv by done.
        rewrite timers_of_cons_ne by done. simpl. lia.
Qed.

Lemma timers_consistent_run ops s :
  timers_consistent s → timers_consistent (run ops s).
Proof.
  revert s. induction ops as [|op ops IH]; intros s Hs; [done|].
  simpl. apply IH. by apply timers_consistent_step.
Qed.

(** ** The window after the first receipt of a room *)

(** Before its deadline the only timer of the room is not due. *)
Lemma window_timer_not_due room deadline now timers :
  timers_of room timers = [(deadline, room)] →
  (now < deadline)%Q →
  take_due_timer now room timers = None.
Proof.
  intros Hof Hnow.
  destruct (take_due_timer now room timers) as [rest|] eqn:Hdue; [|done].
  apply take_due_timer_Some in Hdue as (dl & before & after & -> & _ & Hle).
  assert (Hin : (dl, room) ∈ timers_of room (before ++ (dl, room) :: after)).
  { apply list_elem_of_filter. split; [done|].
    apply elem_of_app. right. left. }
  rewrite Hof in Hin. apply list_elem_of_singleton in Hin as [= ->].
  exfalso. apply (Qlt_irrefl now). by eapply Qlt_le_trans.
Qed.

Lemma rr_window_step room deadline base s op :
  rr_window room deadline base s →
  (clock_now (step s op) < deadline)%Q →
  rr_window room deadline base (step s op).
Proof.
  intros (Hentry & Htimer & later & Hbase & Hquiet) Hlater.
  assert (Hnow : (clock_now s < deadline)%Q).
  { eapply Qle_lt_trans; [apply step_clock_now|exact Hlater]. }
  pose proof (window_timer_not_due _ _ _ _ Htimer Hnow) as Hdue.
  destruct (step_emits s op) as (l & Hl & Hem).
  assert (Hl' : ∃ later', trace (step s op) = base ++ later'
                          ∧ Forall (λ e, ¬ rr_activity room e) later').
  { exists (later ++ l). split; [by rewrite Hl, Hbase, <- app_assoc|].
    apply Forall_app. split; [done|].
    eapply Forall_impl; [exact Hem|]. intros e He Hact.
    destruct op; simpl in He; try done.
    - destruct He as [d [_ ->]]. done.
    - subst e. done.
    - destruct He as [d [_ ->]]. done.
    - destruct He as [(d & _ & ->)|(Hnone & [(d & _ & ->)|(delay & ->)])];
        simpl in Hact; try done; subst room;
        rewrite Hnone in Hentry; by destruct Hentry.
    - destruct He as [Hsome [(qs & d & _ & _ & ->)|(delay & ->)]];
        simpl in Hact; subst room0;
        rewrite Hdue in Hsome; by destruct Hsome.
    - destruct He as [batch ->]. done.
    - destruct He as [(d & states & _ & ->)|[batch ->]]; done.
    - destruct He as (d & _ & ->). done.
    - destruct He as [_ [[edu ->]|(edu & k & ->)]]; done.
    - destruct He as [->|[k ->]]; done.
    - destruct He as [_ ->]. done.
    - destruct He as [_ ->]. done.
    - destruct He as [token ->]. done.
    - destruct He as [token ->]. done. }
  assert (Hframe : match op with
                   | op_send_read_receipt _ _ | op_timer_fires _ => False
                   | _ => True
                   end → rr_window room deadline base (step s op)).
  { intros Hop. destruct (step_rr_frame s op Hop) as [Hrr Ht].
    unfold rr_window. by rewrite Hrr, Ht. }
  destruct op; try (apply Hframe; exact I); simpl in *;
    (split_and!; [| |exact Hl']).
  - pose proof (send_read_receipt_rr receipt hosts s) as H. simpl in H.
    destruct (filter (λ d, d ≠ server_name) hosts); [by rewrite H|].
    destruct (queues_awaiting_rr_flush_by_room s !! rr_room_id receipt)
      eqn:Hrr; destruct H as [-> _];
      (destruct (decide (room = rr_room_id receipt)) as [->|Hne];
       [by rewrite lookup_insert_eq|by rewrite lookup_insert_ne]).
  - pose proof (send_read_receipt_rr receipt hosts s) as H. simpl in H.
    destruct (filter (λ d, d ≠ server_name) hosts); [by rewrite H|].
    destruct (queues_awaiting_rr_flush_by_room s !! rr_room_id receipt)
      eqn:Hrr; destruct H as [_ ->]; [done|].
    rewrite timers_of_app, timers_of_cons_ne, app_nil_r; [done|].
    intros <-. rewrite Hrr in Hentry. by destruct Hentry.
  - pose proof (timer_fires_rr room0 s) as H. simpl in H.
    destruct (take_due_timer (clock_now s) room0 (clock_timers s))
      as [rest|] eqn:Hdue0; [|by rewrite H].
    assert (Hne : room0 ≠ room) by (intros ->; congruence).
    destruct (queues_awaiting_rr_flush_by_room s !! room0) as [qs|];
      [destruct (decide (qs = ∅))|]; destruct H as [-> _];
      rewrite ?lookup_insert_ne, ?lookup_delete_ne by done; done.
  - pose proof (timer_fires_rr room0 s) as H. simpl in H.
    destruct (take_due_timer (clock_now s) room0 (clock_timers s))
      as [rest|] eqn:Hdue0; [|by rewrite H].
    assert (Hne : room0 ≠ room) by (intros ->; congruence).
    apply take_due_timer_Some in Hdue0
      as (dl & before & after & Ht & -> & _).
    rewrite Ht, timers_of_app, timers_of_cons_ne in Htimer by done.
    destruct (queues_awaiting_rr_flush_by_room s !! room0) as [qs|];
      [destruct (decide (qs = ∅))|]; destruct H as [_ ->];
      rewrite ?timers_of_app, ?timers_of_cons_ne, ?app_nil_r by done; done.
Qed.

Lemma rr_window_run room deadline base ops s :
  rr_window room deadline base s →
  (clock_now (run ops s) < deadline)%Q →
  rr_window room deadline base (run ops s).
Proof.
  revert s. induction ops as [|op ops IH]; intros s Hs Hnow; [done|].
  simpl in *. apply IH; [|done]. apply rr_window_step; [done|].
  eapply Qle_lt_trans; [apply run_clock_now|exact Hnow].
Qed.

(** The first receipt of a room arms one timer and flushes at once. *)
Lemma send_read_receipt_first receipt hosts s :
  let room := rr_room_id receipt in
  let domains := filter (λ d, d ≠ server_name) hosts in
  queues_awaiting_rr_flush_by_room s !! room = None →
  trace (send_read_receipt receipt hosts s) =
    trace s ++
    match domains with
    | [] => []
    | _ =>
        call_later (rr_txn_interval_per_room_ms
                    * inject_Z (Z.of_nat (length domains)))%Q room
        :: (domains ≫= λ d, [queue_read_receipt d receipt;
                             flush_read_receipts_for_room d room])
    end.
Proof.
  simpl. intros Hrr. unfold send_read_receipt. rewrite Hrr.
  destruct (filter (λ d, d ≠ server_name) hosts) as [|d0 ds] eqn:Hdom;
    [by rewrite app_nil_r|].
  generalize (d0 :: ds). intros domains.
  match goal with
  | |- trace (foldl ?f ?s0 domains) = _ =>
      assert (Hfold : ∀ l a, trace (foldl f a l) =
                trace a ++ (l ≫= λ d, [queue_read_receipt d receipt;
                                        flush_read_receipts_for_room d
                                          (rr_room_id receipt)]));
      [|rewrite Hfold; simpl; by rewrite <- app_assoc]
  end.
  induction l as [|d l IH]; intros a; [by rewrite app_nil_r|].
  simpl. rewrite IH. simpl. by rewrite <- !app_assoc.
Qed.

(** C6: after the first receipt of a room (no flush is scheduled for
    it) went to [D] remote domains, and as long as less than
    [rr_txn_interval_per_room_ms * D] ms have passed, whatever else the
    dispatcher does: the first receipt armed one timer, for that delay,
    and flushed each domain at once; the entry of the room stays in the
    table, that timer stays the only timer of the room, and no further
    timer is armed and no flush is called for the room. *)
Theorem receipt_window_single_timer
    (ops0 : list Op) (pos : Z) (now0 : Q)
    (receipt : ReadReceipt) (hosts : list string) (ops : list Op) :
  let s0 := run ops0 (init pos now0) in
  let room := rr_room_id receipt in
  let domains := filter (λ d, d ≠ server_name) hosts in
  let backoff :=
    (rr_txn_interval_per_room_ms * inject_Z (Z.of_nat (length domains)))%Q in
  let s1 := send_read_receipt receipt hosts s0 in
  queues_awaiting_rr_flush_by_room s0 !! room = None →
  domains ≠ [] →
  (clock_now (run ops s1) < clock_now s0 + backoff)%Q →
  trace s1 =
    trace s0 ++ call_later backoff room
                :: (domains ≫= λ d, [queue_read_receipt d receipt;
                                     flush_read_receipts_for_room d room])
  ∧ ∀ before after, ops = before ++ after →
      let s := run before s1 in
      is_Some (queues_awaiting_rr_flush_by_room s !! room)
      ∧ timers_of room (clock_timers s) = [((clock_now s0 + backoff)%Q, room)]
      ∧ ∃ later, trace s = trace s1 ++ later
                 ∧ Forall (λ e, ¬ rr_activity room e) later.
Proof.
  intros s0 room domains backoff s1 Hidle Hdom Hwindow.
  assert (Hcons : timers_consistent s0).
  { apply timers_consistent_run. intros r. simpl. by rewrite lookup_empty. }
  pose proof (send_read_receipt_first receipt hosts s0 Hidle) as Hfirst.
  pose proof (send_read_receipt_rr receipt hosts s0) as Hrr.
  simpl in Hfirst, Hrr. fold domains in Hfirst, Hrr. fold s1 in Hfirst, Hrr.
  fold room in Hfirst, Hrr.
  destruct domains as [|d0 ds] eqn:Hd; [done|].
  rewrite Hidle in Hrr. destruct Hrr as [Hrr Ht].
  split; [exact Hfirst|].
  intros before after ->.
  apply (rr_window_run room (clock_now s0 + backoff)%Q (trace s1) before s1).
  - split_and!.
    + rewrite Hrr, lookup_insert_eq. by eexists.
    + rewrite Ht, timers_of_app, timers_of_cons_eq.
      specialize (Hcons room). rewrite Hidle in Hcons.
      apply nil_length_inv in Hcons. by rewrite Hcons.
    + exists []. by rewrite app_nil_r.
  - eapply Qle_lt_trans; [|exact Hwindow].
    unfold run. rewrite foldl_app. apply run_clock_now.
Qed.

(** C7: when the timer of a room fires, [_flush_rrs_for_room] takes the
    entry of the room out of the table.  With no queue in it, nothing
    else happens: no timer, no flush.  With [k] queues in it, a timer
    is armed for [rr_txn_interval_per_room_ms * k] ms, the room gets a
    new, empty entry, and [flush_read_receipts_for_room] is called once
    on each of the [k] queues. *)
Theorem flush_rrs_for_room_cycle
    (room : string) (queues : gset string) (s : FederationSender) :
  queues_awaiting_rr_flush_by_room s !! room = Some queues →
  ∃ s', _flush_rrs_for_room room s = Some s'
    ∧ if decide (queues = ∅)
      then queues_awaiting_rr_flush_by_room s' =
             delete room (queues_awaiting_rr_flush_by_room s)
           ∧ clock_timers s' = clock_timers s
           ∧ trace s' = trace s
      else
        let backoff :=
          (rr_txn_interval_per_room_ms * inject_Z (Z.of_nat (size queues)))%Q in
        queues_awaiting_rr_flush_by_room s' =
          <[room := ∅]> (delete room (queues_awaiting_rr_flush_by_room s))
        ∧ clock_timers s' =
            clock_timers s ++ [((clock_now s + backoff)%Q, room)]
        ∧ ∃ flushes,
            trace s' = trace s ++ call_later backoff room :: flushes
            ∧ NoDup flushes
            ∧ length flushes = size queues
            ∧ ∀ e, e ∈ flushes ↔
                   ∃ q, q ∈ queues ∧ e = flush_read_receipts_for_room q room.
Proof.
  intros Hrr. unfold _flush_rrs_for_room. rewrite Hrr.
  destruct (decide (queues = ∅)) as [->|Hne]; eexists; (split; [reflexivity|]).
  - done.
  - simpl. split_and!; [frame|frame|].
    eexists. rewrite trace_foldl_emit. simpl. rewrite <- app_assoc.
    split_and!; [reflexivity| | |].
    + apply NoDup_fmap_2; [intros ?? [=]; done|apply NoDup_elements].
    + by rewrite length_fmap.
    + intros e. rewrite list_elem_of_fmap. split.
      * intros (q & -> & Hq). exists q. by apply elem_of_elements in Hq.
      * intros (q & Hq & ->). exists q. by rewrite elem_of_elements.
Qed.

(** ** No call on the queue of the local server *)

Lemma no_self_pending_step s op :
  no_self_pending s → no_self_pending (step s op).
Proof.
  intros Hinv.
  assert (Hquiet : match op with
                   | op_send_read_receipt _ _ | op_timer_fires _ => False
                   | _ => True
                   end → no_self_pending (step s op)).
  { intros Hop r qs. destruct (step_rr_frame s op Hop) as [-> _]. apply Hinv. }
  destruct op; try (apply Hquiet; exact I); simpl; intros r qs.
  - pose proof (send_read_receipt_rr receipt hosts s) as H. simpl in H.
    destruct (filter (λ d, d ≠ server_name) hosts) as [|d0 ds] eqn:Hdom;
      [rewrite H; apply Hinv|].
    destruct (queues_awaiting_rr_flush_by_room s !! rr_room_id receipt)
      as [qs0|] eqn:Hrr; destruct H as [-> _];
      (destruct (decide (r = rr_room_id receipt)) as [->|Hne];
       [rewrite lookup_insert_eq; intros [= <-]
       |rewrite lookup_insert_ne by done; apply Hinv]).
    + assert (Hall : ∀ d, d ∈ d0 :: ds → d ≠ server_name).
      { rewrite <- Hdom. by intros d [? _]%list_elem_of_filter. }
      intros [Hin|Hin]%elem_of_union; [|by apply (Hinv _ _ Hrr)].
      apply (Hall server_name); [|done].
      apply elem_of_union in Hin
        as [->%elem_of_singleton|Hin%elem_of_list_to_set]; [left|by right].
    + set_solver.
  - pose proof (timer_fires_rr room s) as H. simpl in H.
    destruct (take_due_timer (clock_now s) room (clock_timers s));
      [|rewrite H; apply Hinv].
    destruct (queues_awaiting_rr_flush_by_room s !! room) as [qs0|];
      [destruct (decide (qs0 = ∅))|]; destruct H as [-> _].
    + intros [_ Hl]%lookup_delete_Some. by apply (Hinv _ _ Hl).
    + destruct (decide (r = room)) as [->|Hne].
      * rewrite lookup_insert_eq. intros [= <-]. set_solver.
      * rewrite lookup_insert_ne, lookup_delete_ne by done. apply Hinv.
    + apply Hinv.
Qed.

Lemma no_self_call_step s op :
  no_self_pending s → ¬ self_edu op →
  Forall (λ e, ¬ self_call e) (trace s) →
  Forall (λ e, ¬ self_call e) (trace (step s op)).
Proof.
  intros Hpend Hop Htrace.
  destruct (step_emits s op) as (l & -> & Hem).
  apply Forall_app. split; [done|].
  eapply Forall_impl; [exact Hem|]. intros e He. unfold self_call. intros Hself.
  destruct op; simpl in He, Hop; try done.
  - destruct He as [d [? ->]]. simpl in Hself. congruence.
  - subst e. done.
  - destruct He as [d [? ->]]. simpl in Hself. congruence.
  - destruct He as [(d & ? & ->)|(_ & [(d & ? & ->)|(delay & ->)])];
      simpl in Hself; congruence.
  - destruct He as [_ [(qs & d & Hqs & Hd & ->)|(delay & ->)]];
      simpl in Hself; [|done].
    injection Hself as ->. by apply (Hpend _ _ Hqs).
  - destruct He as [batch ->]. done.
  - destruct He as [(d & states & ? & ->)|[batch ->]];
      simpl in Hself; congruence.
  - destruct He as (d & ? & ->). simpl in Hself. congruence.
  - destruct He as [? [[edu ->]|(edu & k & ->)]]; simpl in Hself; congruence.
  - destruct He as [->|[k ->]]; simpl in Hself; congruence.
  - destruct He as [? ->]. simpl in Hself. congruence.
  - destruct He as [? ->]. simpl in Hself. congruence.
  - destruct He as [token ->]. done.
  - destruct He as [token ->]. done.
Qed.

(** C2 (as amended): in a run made of any of the dispatcher's
    operations in which no EDU addressed to the local server is handed
    to [send_edu] directly, no call is made on the queue of the local
    server. *)
Theorem no_self_enqueue (ops : list Op) (pos : Z) (now : Q) :
  Forall (λ op, ¬ self_edu op) ops →
  Forall (λ e, ¬ self_call e) (trace (run ops (init pos now))).
Proof.
  intros Hops.
  assert (Hgen : ∀ s, no_self_pending s →
                      Forall (λ e, ¬ self_call e) (trace s) →
                      Forall (λ e, ¬ self_call e) (trace (run ops s))).
  { induction Hops as [|op ops Hop _ IH]; intros s Hp Ht; [done|].
    simpl. apply IH; [by apply no_self_pending_step|].
    by apply no_self_call_step. }
  apply Hgen; [|constructor].
  intros room qs. simpl. by rewrite lookup_empty.
Qed.

(** ** The singleflight flags *)

Lemma step_event_loop_frame (s : FederationSender) (op : Op) :
  match op with
  | op_notify_new_events _ | op_event_loop_fetched _
  | op_event_loop_page_done _ _ => False
  | _ => True
  end →
  is_processing (step s op) = is_processing s
  ∧ event_loop_passes (step s op) = event_loop_passes s.
Proof.
  destruct op; try done; intros _; simpl.
  - split; apply handle_event_frame.
  - split; apply send_pdu_frame.
  - split; apply send_read_receipt_frame.
  - split; apply timer_fires_frame.
  - unfold clock_advance. split; frame.
  - split; by apply (presence_frame (op_send_presence states)).
  - split; by apply (presence_frame (op_presence_resumed result)).
  - unfold send_presence_to_destinations. split; frame.
  - unfold build_and_send_edu, send_edu. split; frame.
  - unfold send_edu. split; frame.
  - unfold send_device_messages. split; frame.
  - unfold wake_destination. split; frame.
  - unfold update_token_locked. split; frame.
  - unfold update_token_persisted. split; frame.
Qed.

Lemma step_presence_frame (s : FederationSender) (op : Op) :
  match op with
  | op_send_presence _ | op_presence_resumed _ => False
  | _ => True
  end →
  processing_pending_presence (step s op) = processing_pending_presence s
  ∧ presence_passes (step s op) = presence_passes s
  ∧ pending_presence (step s op) = pending_presence s.
Proof.
  destruct op; try done; intros _; simpl.
  - unfold notify_new_events. split_and!; frame.
  - unfold event_loop_fetched. split_and!; frame.
  - split_and!; apply handle_event_frame.
  - unfold event_loop_page_done. split_and!; frame.
  - split_and!; apply send_pdu_frame.
  - split_and!; apply send_read_receipt_frame.
  - split_and!; apply timer_fires_frame.
  - unfold clock_advance. split_and!; frame.
  - unfold send_presence_to_destinations. split_and!; frame.
  - unfold build_and_send_edu, send_edu. split_and!; frame.
  - unfold send_edu. split_and!; frame.
  - unfold send_device_messages. split_and!; frame.
  - unfold wake_destination. split_and!; frame.
  - unfold update_token_locked. split_and!; frame.
  - unfold update_token_persisted. split_and!; frame.
Qed.

Lemma singleflight_step s op : singleflight s → singleflight (step s op).
Proof.
  intros [Hev Hpr]. split.
  - assert (Hquiet : match op with
                     | op_notify_new_events _ | op_event_loop_fetched _
                     | op_event_loop_page_done _ _ => False
                     | _ => True
                     end →
                     event_loop_passes (step s op) =
                       (if is_processing (step s op) then 1 else 0)%nat).
    { intros Hop. by destruct (step_event_loop_frame s op Hop) as [-> ->]. }
    destruct op; try (apply Hquiet; exact I); simpl.
    + unfold notify_new_events. simpl.
      destruct (is_processing s) eqn:Hflag; simpl;
        [by rewrite Hflag|by rewrite Hev].
    + unfold event_loop_fetched, event_loop_finally.
      destruct (event_loop_passes s) as [|n] eqn:Hn; simpl;
        [by rewrite Hn|].
      destruct (is_processing s) eqn:Hflag; [|done]. injection Hev as ->.
      destruct page as [[nt evs]|]; simpl; [|done].
      destruct (bool_decide (evs = []) && (nt >=? last_poked_id s)); simpl;
        [done|]. by rewrite Hn, Hflag.
    + unfold event_loop_page_done, event_loop_finally.
      destruct (event_loop_passes s) as [|n] eqn:Hn; simpl;
        [by rewrite Hn|].
      destruct (is_processing s) eqn:Hflag; [|done]. injection Hev as ->.
      destruct raised; simpl; [by rewrite Hn|by rewrite Hn, Hflag].
  - assert (Hquiet : match op with
                     | op_send_presence _ | op_presence_resumed _ => False
                     | _ => True
                     end →
                     presence_passes (step s op) =
                       (if processing_pending_presence (step s op)
                        then 1 else 0)%nat).
    { intros Hop. by destruct (step_presence_frame s op Hop) as (-> & -> & _). }
    destruct op; try (apply Hquiet; exact I); simpl.
    + unfold send_presence, presence_loop, presence_finally.
      destruct use_presence; simpl; [|done].
      destruct (processing_pending_presence s) eqn:Hflag; simpl;
        [by rewrite Hflag|].
      rewrite Hpr.
      by destruct (decide (mine_by_user states ∪ pending_presence s = ∅)).
    + unfold presence_resumed, presence_loop, presence_finally.
      destruct (presence_passes s) as [|n] eqn:Hn; simpl; [by rewrite Hn|].
      destruct (processing_pending_presence s) eqn:Hflag; [|done].
      injection Hpr as ->.
      destruct result as [hs|]; simpl; [|done].
      pose proof (process_presence_inner_frame hs s) as Hf.
      destruct Hf as (_ & _ & _ & _ & _ & _ & _ & _ & _ & Hfl & Hpa & _).
      destruct (decide (pending_presence (_process_presence_inner hs s) = ∅));
        simpl; [by rewrite Hpa, Hn|by rewrite Hfl, Hpa, Hn, Hflag].
Qed.

Lemma singleflight_run ops s : singleflight s → singleflight (run ops s).
Proof.
  revert s. induction ops as [|op ops IH]; intros s Hs; [done|].
  simpl. apply IH. by apply singleflight_step.
Qed.

(** C9: in every state the dispatcher can reach, at most one pass of
    the event loop and at most one pass of the presence loop are
    running, and each flag is set exactly while its pass runs; entering
    while the flag is set starts no pass; a step that ends a pass
    leaves the flag cleared; and so does, in particular, a pass that is
    resumed with an exception.  A pass also ends, with its flag cleared,
    at each [break]: the event loop when it reads an empty page whose
    token has reached [_last_poked_id], and after a fetch its flag is set
    exactly if it goes on to handle the page; the presence loop when it
    finds nothing pending, be it on entry or after a batch. *)
Theorem singleflight_passes (ops : list Op) (pos : Z) (now : Q) :
  let s := run ops (init pos now) in
  (event_loop_passes s ≤ 1 ∧ presence_passes s ≤ 1)%nat
  ∧ (is_processing s = true ↔ event_loop_passes s = 1%nat)
  ∧ (processing_pending_presence s = true ↔ presence_passes s = 1%nat)
  ∧ (∀ current_id,
       is_processing s = true →
       event_loop_passes (notify_new_events current_id s)
         = event_loop_passes s)
  ∧ (∀ states,
       processing_pending_presence s = true →
       presence_passes (send_presence states s) = presence_passes s)
  ∧ (∀ op,
       (event_loop_passes (step s op) < event_loop_passes s)%nat →
       is_processing (step s op) = false)
  ∧ (∀ op,
       (presence_passes (step s op) < presence_passes s)%nat →
       processing_pending_presence (step s op) = false)
  ∧ (∀ next_token,
       is_processing (step s (op_event_loop_fetched None)) = false
       ∧ is_processing (step s (op_event_loop_page_done next_token true))
         = false
       ∧ processing_pending_presence (step s (op_presence_resumed None))
         = false)
  ∧ (∀ page,
       is_processing (event_loop_fetched page s).1
         = (event_loop_fetched page s).2
       ∧ event_loop_passes (event_loop_fetched page s).1
         = (if (event_loop_fetched page s).2 then 1 else 0)%nat)
  ∧ (∀ next_token,
       last_poked_id s ≤ next_token →
       (event_loop_fetched (Some (next_token, [])) s).2 = false
       ∧ is_processing (step s (op_event_loop_fetched (Some (next_token, []))))
         = false)
  ∧ (∀ result,
       result = None ∨ pending_presence s = ∅ →
       processing_pending_presence (step s (op_presence_resumed result))
         = false
       ∧ presence_passes (step s (op_presence_resumed result)) = 0%nat)
  ∧ (∀ states,
       processing_pending_presence s = false →
       mine_by_user states ∪ pending_presence s = ∅ →
       processing_pending_presence (step s (op_send_presence states)) = false
       ∧ presence_passes (step s (op_send_presence states)) = 0%nat).
Proof.
  intros s.
  assert (Hs : singleflight s).
  { apply singleflight_run. by split. }
  destruct Hs as [Hev Hpr].
  split_and!.
  - rewrite Hev. destruct (is_processing s); lia.
  - rewrite Hpr. destruct (processing_pending_presence s); lia.
  - rewrite Hev. by destruct (is_processing s).
  - rewrite Hpr. by destruct (processing_pending_presence s).
  - intros current_id Hflag. unfold notify_new_events. simpl. by rewrite Hflag.
  - intros states Hflag. unfold send_presence.
    destruct use_presence; simpl; [|done]. by rewrite Hflag.
  - intros op Hlt.
    destruct (singleflight_step s op (conj Hev Hpr)) as [Hev' _].
    destruct (is_processing (step s op)); [|done].
    destruct (is_processing s); lia.
  - intros op Hlt.
    destruct (singleflight_step s op (conj Hev Hpr)) as [_ Hpr'].
    destruct (processing_pending_presence (step s op)); [|done].
    destruct (processing_pending_presence s); lia.
  - intros next_token. simpl.
    unfold event_loop_fetched, event_loop_page_done, presence_resumed.
    destruct (is_processing s) eqn:Hflag;
      destruct (processing_pending_presence s) eqn:Hpflag;
      rewrite Hev, Hpr; simpl; by rewrite ?Hflag, ?Hpflag.
  - intros page. unfold event_loop_fetched. rewrite Hev.
    destruct (is_processing s) eqn:Hflag; simpl; [|done].
    destruct page as [[next_token events]|]; [|by simpl; rewrite Hev].
    destruct (bool_decide (events = []) && (next_token >=? last_poked_id s));
      simpl; [by rewrite Hev|done].
  - intros next_token Hle. simpl. unfold event_loop_fetched. rewrite Hev.
    destruct (is_processing s) eqn:Hflag; simpl; [|by rewrite Hflag].
    rewrite (proj2 (Z.geb_le _ _) Hle). done.
  - intros result Hexit. simpl. unfold presence_resumed. rewrite Hpr.
    destruct (processing_pending_presence s) eqn:Hpflag; simpl; [|done].
    destruct result as [hs|]; [|by simpl; rewrite Hpr].
    destruct Hexit as [|Hempty]; [done|].
    pose proof (process_presence_inner_frame hs s) as Hf.
    unfold queue_frame in Hf. destruct_and!.
    unfold presence_loop. rewrite decide_True by congruence.
    simpl. split; [done|].
    by replace (presence_passes (_process_presence_inner hs s))
         with 1%nat by congruence.
  - intros states Hflag Hempty. simpl. unfold send_presence.
    destruct use_presence; simpl; [|by rewrite Hflag in Hpr].
    rewrite Hflag. unfold presence_loop. simpl.
    rewrite decide_True by done. simpl. by rewrite Hflag in Hpr.
Qed.

(** ** Pending presence *)














(** ** The watermark of the event loop *)

Lemma step_last_poked_id (s : FederationSender) (op : Op) :
  last_poked_id (step s op) =
    match op with
    | op_notify_new_events current_id => Z.max current_id (last_poked_id s)
    | _ => last_poked_id s
    end.
Proof.
  destruct op; simpl.
  - unfold notify_new_events. frame.
  - unfold event_loop_fetched, event_loop_finally. frame.
  - unfold handle_event, _send_pdu. frame.
  - unfold event_loop_page_done, event_loop_finally. frame.
  - unfold _send_pdu. frame.
  - unfold send_read_receipt. frame.
  - unfold timer_fires, _flush_rrs_for_room. frame.
  - unfold clock_advance. frame.
  - unfold send_presence, presence_loop, presence_finally. frame.
  - unfold presence_resumed, presence_loop, presence_finally.
    destruct (presence_passes s); [done|]. destruct result as [hs|]; [|done].
    destruct (process_presence_inner_frame hs s)
      as (_ & _ & _ & _ & _ & _ & _ & _ & _ & _ & _ & _ & _ & Hp).
    by destruct (decide (pending_presence (_process_presence_inner hs s) = ∅)).
  - unfold send_presence_to_destinations. frame.
  - unfold build_and_send_edu, send_edu. frame.
  - unfold send_edu. frame.
  - unfold send_device_messages. frame.
  - unfold wake_destination. frame.
  - done.
  - unfold update_token_locked. frame.
  - unfold update_token_persisted. frame.
Qed.

(** X1: [_last_poked_id] never goes back, whatever the dispatcher does,
    and it is at least every id [notify_new_events] was called with. *)
Theorem last_poked_id_never_decreases (ops : list Op) (s : FederationSender) :
  last_poked_id s ≤ last_poked_id (run ops s)
  ∧ Forall (λ op, match op with
                  | op_notify_new_events current_id =>
                      current_id ≤ last_poked_id (run ops s)
                  | _ => True
                  end) ops.
Proof.
  revert s. induction ops as [|op ops IH]; intros s; [by split|].
  destruct (IH (step s op)) as [Hle Hall]. simpl.
  assert (Hstep : last_poked_id s ≤ last_poked_id (step s op)).
  { rewrite step_last_poked_id. destruct op; lia. }
  split; [lia|]. constructor; [|done].
  destruct op; try done.
  rewrite step_last_poked_id in Hle. lia.
Qed.

Lemma notify_new_events_running current_id s :
  singleflight s →
  is_processing (notify_new_events current_id s) = true
  ∧ event_loop_passes (notify_new_events current_id s) = 1%nat.
Proof.
  intros [Hev _]. unfold notify_new_events. simpl.
  destruct (is_processing s) eqn:Hflag; simpl.
  - by rewrite Hflag, Hev.
  - by rewrite Hev.
Qed.

(** X2: in every state the dispatcher can reach, [notify_new_events]
    returns with the event loop running: exactly one pass, started now or
    already there. *)
Theorem notify_new_events_loop_running
    (ops : list Op) (pos : Z) (now : Q) (current_id : Z) :
  let s := notify_new_events current_id (run ops (init pos now)) in
  is_processing s = true ∧ event_loop_passes s = 1%nat.
Proof.
  apply notify_new_events_running, singleflight_run. by split.
Qed.

(** X3: a poke that arrives while the loop waits for the store keeps the
    loop going: when the page comes back empty with a token below the
    poked id, the loop does not leave. *)
Theorem poke_seen_before_exit
    (ops : list Op) (pos : Z) (now : Q) (current_id next_token : Z) :
  next_token < current_id →
  let s := notify_new_events current_id (run ops (init pos now)) in
  event_loop_fetched (Some (next_token, [])) s = (s, true).
Proof.
  intros Hlt s.
  assert (Hpasses : event_loop_passes s = 1%nat).
  { apply notify_new_events_running, singleflight_run. by split. }
  unfold event_loop_fetched. rewrite Hpasses.
  assert (Hpoked : current_id ≤ last_poked_id s).
  { unfold s, notify_new_events. simpl.
    destruct (is_processing (run ops (init pos now))); simpl; lia. }
  destruct (Z.geb_spec next_token (last_poked_id s)); [lia|].
  by rewrite andb_false_r.
Qed.

(** ** Acknowledged positions *)

Lemma acks_app t1 t2 : acks (t1 ++ t2) = acks t1 ++ acks t2.
Proof. apply omap_app. Qed.

Lemma update_token_trace token raised s :
  trace (update_token token raised s) =
    trace s ++
    if last_ack s <? token
    then update_federation_out_pos "federation" token
         :: (if raised then [] else [send_federation_ack token])
    else [].
Proof.
  unfold update_token, update_token_locked, update_token_persisted. simpl.
  destruct (last_ack s <? token); [destruct raised|]; simpl;
    by rewrite <- ?app_assoc, ?app_nil_r.
Qed.

(** A complete call is the run of its parts. *)
Lemma update_token_run (token : Z) (raised : bool) (s : FederationSender) :
  update_token token raised s =
    run (op_update_token_enter token :: op_update_token_locked
         :: if (update_token_locked (update_token_enter token s)).2
            then [op_update_token_persisted raised] else []) s.
Proof.
  unfold update_token, run. cbn. unfold update_token_locked. cbn.
  by destruct (last_ack s <? token).
Qed.

Lemma step_federation_position (s : FederationSender) (op : Op) :
  federation_position (step s op) =
    match op with
    | op_update_token_enter token => token
    | _ => federation_position s
    end.
Proof.
  destruct op; simpl.
  - unfold notify_new_events. frame.
  - unfold event_loop_fetched, event_loop_finally. frame.
  - unfold handle_event, _send_pdu. frame.
  - unfold event_loop_page_done, event_loop_finally. frame.
  - unfold _send_pdu. frame.
  - unfold send_read_receipt. frame.
  - unfold timer_fires, _flush_rrs_for_room. frame.
  - unfold clock_advance. frame.
  - unfold send_presence, presence_loop, presence_finally. frame.
  - unfold presence_resumed, presence_loop, presence_finally.
    destruct (presence_passes s); [done|]. destruct result as [hs|]; [|done].
    destruct (process_presence_inner_frame hs s)
      as (_ & _ & _ & _ & _ & _ & _ & _ & _ & _ & _ & Hp & _).
    by destruct (decide (pending_presence (_process_presence_inner hs s) = ∅)).
  - unfold send_presence_to_destinations. frame.
  - unfold build_and_send_edu, send_edu. frame.
  - unfold send_edu. frame.
  - unfold send_device_messages. frame.
  - unfold wake_destination. frame.
  - done.
  - unfold update_token_locked. frame.
  - unfold update_token_persisted. frame.
Qed.

Lemma step_last_ack (s : FederationSender) (op : Op) :
  last_ack (step s op) =
    match op with
    | op_update_token_persisted false => federation_position s
    | _ => last_ack s
    end.
Proof.
  destruct op; simpl.
  - unfold notify_new_events. frame.
  - unfold event_loop_fetched, event_loop_finally. frame.
  - unfold handle_event, _send_pdu. frame.
  - unfold event_loop_page_done, event_loop_finally. frame.
  - unfold _send_pdu. frame.
  - unfold send_read_receipt. frame.
  - unfold timer_fires, _flush_rrs_for_room. frame.
  - unfold clock_advance. frame.
  - unfold send_presence, presence_loop, presence_finally. frame.
  - unfold presence_resumed, presence_loop, presence_finally.
    destruct (presence_passes s); [done|]. destruct result as [hs|]; [|done].
    destruct (process_presence_inner_frame hs s)
      as (_ & _ & _ & _ & _ & _ & _ & _ & _ & _ & _ & _ & Hp & _).
    by destruct (decide (pending_presence (_process_presence_inner hs s) = ∅)).
  - unfold send_presence_to_destinations. frame.
  - unfold build_and_send_edu, send_edu. frame.
  - unfold send_edu. frame.
  - unfold send_device_messages. frame.
  - unfold wake_destination. frame.
  - done.
  - unfold update_token_locked. frame.
  - unfold update_token_persisted. by destruct raised.
Qed.

(** A step whose token, if it is the entry of a call, is not below the
    position keeps [last_ack ≤ federation_position] and lowers neither. *)
Lemma positions_step (s : FederationSender) (op : Op) :
  last_ack s ≤ federation_position s →
  match op with
  | op_update_token_enter token => federation_position s ≤ token
  | _ => True
  end →
  last_ack (step s op) ≤ federation_position (step s op)
  ∧ federation_position s ≤ federation_position (step s op)
  ∧ last_ack s ≤ last_ack (step s op).
Proof.
  intros Hinv Hop. rewrite step_federation_position, step_last_ack.
  destruct op; try lia. destruct raised; lia.
Qed.

Lemma positions_run (ops : list Op) (s : FederationSender) :
  last_ack s ≤ federation_position s →
  tokens_ascend s ops →
  last_ack (run ops s) ≤ federation_position (run ops s)
  ∧ federation_position s ≤ federation_position (run ops s)
  ∧ last_ack s ≤ last_ack (run ops s).
Proof.
  revert s. induction ops as [|op ops IH]; intros s Hinv Hasc; [simpl; lia|].
  destruct Hasc as [Hop Hasc].
  destruct (positions_step s op Hinv Hop) as (H1 & H2 & H3).
  destruct (IH (step s op) H1 Hasc) as (H4 & H5 & H6).
  change (run (op :: ops) s) with (run ops (step s op)). lia.
Qed.

Lemma tokens_ascend_app (s : FederationSender) (before after : list Op) :
  tokens_ascend s (before ++ after) ↔
  tokens_ascend s before ∧ tokens_ascend (run before s) after.
Proof.
  revert s. induction before as [|op before IH]; intros s; simpl.
  - tauto.
  - rewrite IH. change (foldl step (step s op) before)
      with (run before (step s op)). tauto.
Qed.

(** C1 (as amended): take any run of the dispatcher, with [update_token]
    calls cut at their suspension points and interleaved with each other
    and with everything else, in which no call brings a token below the
    position it finds.  Then every step of the run leaves
    [last_ack ≤ federation_position], and lowers neither
    [federation_position] (what [get_current_token] returns) nor
    [last_ack]. *)
Theorem update_token_ascending_invariant
    (ops : list Op) (s : FederationSender) :
  last_ack s ≤ federation_position s →
  tokens_ascend s ops →
  ∀ before op after, ops = before ++ op :: after →
    let s1 := run before s in
    let s2 := step s1 op in
    last_ack s2 ≤ federation_position s2
    ∧ get_current_token s1 ≤ get_current_token s2
    ∧ last_ack s1 ≤ last_ack s2.
Proof.
  intros Hinv Hasc before op after ->. simpl.
  apply tokens_ascend_app in Hasc as [Hbefore [Hop _]].
  destruct (positions_run before s Hinv Hbefore) as (H1 & _ & _).
  unfold get_current_token. by apply positions_step.
Qed.

(** What a step adds to the acknowledged tokens. *)
Lemma acks_none (l : list Effect) :
  Forall (λ e, ∀ token, e ≠ send_federation_ack token) l → acks l = [].
Proof.
  induction 1 as [|e l He _ IH]; [done|].
  change (e :: l) with ([e] ++ l). rewrite acks_app, IH.
  destruct e; try done. by destruct (He token).
Qed.

Lemma step_acks (s : FederationSender) (op : Op) :
  acks (trace (step s op)) =
    acks (trace s) ++
    match op with
    | op_update_token_persisted false => [federation_position s]
    | _ => []
    end.
Proof.
  assert (Hquiet :
            (∀ e, may_emit s op e → ∀ token, e ≠ send_federation_ack token) →
            acks (trace (step s op)) = acks (trace s) ++ []).
  { intros H. destruct (step_emits s op) as (l & -> & Hl).
    rewrite acks_app. f_equal. apply acks_none.
    eapply Forall_impl; [exact Hl|exact H]. }
  destruct op;
    try (apply Hquiet; intros e He ack ->; simpl in He; naive_solver).
  clear Hquiet. simpl. unfold update_token_persisted.
  destruct raised; simpl; [by rewrite app_nil_r|by rewrite acks_app].
Qed.

Lemma linearized_acks (ops : list Op) :
  ∀ (holding : bool) (s : FederationSender) (bound : Z),
    StronglySorted Z.lt (acks (trace s)) →
    Forall (λ token, bound < token ≤ last_ack s) (acks (trace s)) →
    bound ≤ last_ack s →
    (holding = true → last_ack s < federation_position s) →
    tokens_ascend s ops →
    linearized holding s ops →
    StronglySorted Z.lt (acks (trace (run ops s)))
    ∧ Forall (λ token, bound < token ≤ last_ack (run ops s))
             (acks (trace (run ops s)))
    ∧ bound ≤ last_ack (run ops s).
Proof.
  induction ops as [|op ops IH]; intros holding s bound Hs Hb Hl Hh Hasc Hlin;
    [done|].
  change (run (op :: ops) s) with (run ops (step s op)).
  destruct Hasc as [Hop Hasc].
  pose proof (step_acks s op) as Ha.
  pose proof (step_last_ack s op) as Hla.
  pose proof (step_federation_position s op) as Hfp.
  assert (Hsame :
            acks (trace (step s op)) = acks (trace s) ++ [] →
            last_ack (step s op) = last_ack s →
            ∀ holding',
              (holding' = true →
               last_ack (step s op) < federation_position (step s op)) →
              linearized holding' (step s op) ops →
              StronglySorted Z.lt (acks (trace (run ops (step s op))))
              ∧ Forall (λ token, bound < token ≤ last_ack (run ops (step s op)))
                       (acks (trace (run ops (step s op))))
              ∧ bound ≤ last_ack (run ops (step s op))).
  { intros Ha' Hla' holding' Hh' Hlin'.
    apply (IH holding'); [by rewrite Ha', app_nil_r
                         |by rewrite Ha', Hla', app_nil_r
                         |by rewrite Hla'|done..]. }
  destruct op; simpl in Hlin;
    try (apply (Hsame Ha Hla holding); [rewrite Hla, Hfp; exact Hh|exact Hlin]).
  - apply (Hsame Ha Hla holding); [|exact Hlin].
    rewrite Hla, Hfp. intros H. specialize (Hh H). lia.
  - destruct Hlin as [-> Hlin].
    apply (Hsame Ha Hla (update_token_locked s).2); [|exact Hlin].
    rewrite Hla, Hfp. unfold update_token_locked.
    destruct (Z.ltb_spec (last_ack s) (federation_position s)); simpl;
      [done|discriminate].
  - destruct Hlin as [-> Hlin]. specialize (Hh eq_refl).
    destruct raised.
    + apply (Hsame Ha Hla false); [discriminate|exact Hlin].
    + apply (IH false); rewrite ?Ha, ?Hla; try done.
      * apply StronglySorted_app. split_and!; [|done|repeat constructor].
        intros x1 x2 H1 ->%list_elem_of_singleton.
        apply (proj1 (Forall_forall _ _) Hb) in H1. lia.
      * apply Forall_app. split; [|repeat constructor; lia].
        eapply Forall_impl; [exact Hb|]. simpl. intros; lia.
      * lia.
Qed.

(** X4: take any run of the dispatcher that respects the linearizer of
    [update_token] and in which no call brings a token below the
    position it finds; the calls may overlap, and the store may raise.
    Then the tokens sent with [send_federation_ack] increase strictly,
    lie above the position the sender started with, and none is above
    [_last_ack]. *)
Theorem acks_strictly_increasing (ops : list Op) (pos : Z) (now : Q) :
  tokens_ascend (init pos now) ops →
  linearized false (init pos now) ops →
  let s := run ops (init pos now) in
  StronglySorted Z.lt (acks (trace s))
  ∧ Forall (λ token, pos < token ≤ last_ack s) (acks (trace s))
  ∧ pos ≤ last_ack s.
Proof.
  intros Hasc Hlin. simpl.
  apply (linearized_acks ops false); simpl;
    [constructor|constructor|lia|discriminate|done|done].
Qed.

(** X5: when the store raises, [update_token] sends no ack and leaves
    [_last_ack] alone, so that the next call with the same token persists
    it again, acks it and records it. *)
Theorem update_token_retry_after_failure (token : Z) (s : FederationSender) :
  last_ack s < token →
  let s1 := update_token token true s in
  let s2 := update_token token false s1 in
  last_ack s1 = last_ack s
  ∧ trace s1 = trace s ++ [update_federation_out_pos "federation" token]
  ∧ last_ack s2 = token
  ∧ trace s2 = trace s1 ++ [update_federation_out_pos "federation" token;
                            send_federation_ack token].
Proof.
  intros Hlt. simpl.
  rewrite !update_token_trace, !update_token_last_ack.
  destruct (Z.ltb_spec (last_ack s) token); [|lia]. simpl.
  destruct (Z.ltb_spec (last_ack s) token); [|lia]. done.
Qed.

(** X6: a complete [update_token] call that the store accepts is
    idempotent: calling it again with the same token changes nothing. *)
Theorem update_token_idempotent (token : Z) (s : FederationSender) :
  update_token token false (update_token token false s)
    = update_token token false s.
Proof.
  unfold update_token, update_token_locked, update_token_persisted,
    update_token_enter.
  destruct s. simpl.
  destruct (Z.ltb_spec last_ack0 token); simpl.
  - by rewrite Z.ltb_irrefl.
  - destruct (Z.ltb_spec last_ack0 token); [lia|done].
Qed.

(** ** The registry of queues *)

Ltac grow_fold :=
  match goal with
  | |- ?Q ⊆ per_destination_queues (foldl ?f ?a ?l) =>
      apply (foldl_invariant (λ x, Q ⊆ per_destination_queues x) f l a);
      [| intros ? ? ? _; cbn]
  end.

Ltac grow_close :=
  first [ done
        | assumption
        | apply union_subseteq_r
        | etrans; [eassumption|apply union_subseteq_r] ].

Ltac grow :=
  cbn; repeat first [ grow_close | grow_fold | progress cbn | frame_case ].

Lemma step_registry_grows (s : FederationSender) (op : Op) :
  per_destination_queues s ⊆ per_destination_queues (step s op).
Proof.
  destruct op; simpl.
  - unfold notify_new_events. grow.
  - unfold event_loop_fetched, event_loop_finally. grow.
  - unfold handle_event, _send_pdu. grow.
  - unfold event_loop_page_done, event_loop_finally. grow.
  - unfold _send_pdu. grow.
  - unfold send_read_receipt. grow.
  - unfold timer_fires, _flush_rrs_for_room. grow.
  - unfold clock_advance. grow.
  - unfold send_presence, presence_loop, presence_finally. grow.
  - unfold presence_resumed, presence_loop, presence_finally,
      _process_presence_inner. grow.
  - unfold send_presence_to_destinations. grow.
  - unfold build_and_send_edu, send_edu. grow.
  - unfold send_edu. grow.
  - unfold send_device_messages. grow.
  - unfold wake_destination. grow.
  - done.
  - unfold update_token_locked. grow.
  - unfold update_token_persisted. grow.
Qed.

(** X7: a queue, once created, stays in the registry: no operation of
    the sender ever drops a destination from [_per_destination_queues]. *)
Theorem registry_never_shrinks (ops : list Op) (s : FederationSender) :
  per_destination_queues s ⊆ per_destination_queues (run ops s).
Proof.
  revert s. induction ops as [|op ops IH]; intros s; [done|].
  simpl. etrans; [apply step_registry_grows|apply IH].
Qed.

Lemma registered_emit_none e s :
  queue_call_dest e = None → registered s → registered (emit e s).
Proof.
  intros He [Ht Hrr]. split; [|exact Hrr].
  intros e' d [Hin| ->%list_elem_of_singleton]%elem_of_app Hd;
    [by eapply Ht|congruence].
Qed.

Lemma registered_emit_in e d s :
  queue_call_dest e = Some d → d ∈ per_destination_queues s →
  registered s → registered (emit e s).
Proof.
  intros He Hd [Ht Hrr]. split; [|exact Hrr].
  intros e' d' [Hin| ->%list_elem_of_singleton]%elem_of_app Hd';
    [by eapply Ht|].
  assert (d' = d) as -> by congruence. exact Hd.
Qed.

Lemma registered_call_queue d e s :
  queue_call_dest e = Some d → registered s → registered (call_queue d e s).
Proof.
  intros He [Ht Hrr]. split.
  - intros e' d' [Hin| ->%list_elem_of_singleton]%elem_of_app Hd'; simpl.
    + apply elem_of_union. right. by eapply Ht.
    + apply elem_of_union. left. apply elem_of_singleton. congruence.
  - intros room qs d' Hqs Hd'. simpl. apply elem_of_union. right.
    by eapply Hrr.
Qed.

Lemma registered_rr f s :
  (∀ room qs d, f (queues_awaiting_rr_flush_by_room s) !! room = Some qs →
                d ∈ qs → d ∈ per_destination_queues s) →
  registered s → registered (with_rr f s).
Proof. intros Hf [Ht _]. by split. Qed.

Ltac peel :=
  repeat match goal with
    | |- registered (with_order _ ?s) => change (registered s)
    | |- registered (inc_dist_counters _ ?s) => change (registered s)
    | |- registered (with_event_loop _ _ ?s) => change (registered s)
    | |- registered (with_last_poked_id _ ?s) => change (registered s)
    | |- registered (with_presence_loop _ _ ?s) => change (registered s)
    | |- registered (with_pending_presence _ ?s) => change (registered s)
    | |- registered (with_federation_position _ ?s) => change (registered s)
    | |- registered (with_last_ack _ ?s) => change (registered s)
    | |- registered (with_clock _ _ ?s) => change (registered s)
    end.

Lemma registered_send_pdu pdu destinations s :
  registered s → registered (_send_pdu pdu destinations s).
Proof.
  intros Hs. unfold _send_pdu.
  destruct (decide (list_to_set destinations ∖ {[server_name]} = ∅));
    [by peel|].
  apply (foldl_invariant registered); [by peel|].
  intros a d Ha _. by apply registered_call_queue.
Qed.

Lemma registered_presence_fold states destinations s :
  registered s →
  registered (foldl (λ s destination,
                       if decide (destination = server_name) then s
                       else call_queue destination
                              (queue_send_presence destination states) s)
                    s destinations).
Proof.
  intros Hs. apply (foldl_invariant registered); [done|].
  intros a d Ha _. destruct (decide (d = server_name)); [done|].
  by apply registered_call_queue.
Qed.

Lemma registered_presence_loop s : registered s → registered (presence_loop s).
Proof.
  intros Hs. unfold presence_loop, presence_finally.
  destruct (decide (pending_presence s = ∅)); [by peel|].
  apply registered_emit_none; [done|]. by peel.
Qed.

Lemma registered_send_read_receipt receipt hosts s :
  registered s → registered (send_read_receipt receipt hosts s).
Proof.
  intros Hs. unfold send_read_receipt.
  destruct (filter (λ d, d ≠ server_name) hosts) as [|d0 ds]; [done|].
  destruct (queues_awaiting_rr_flush_by_room s !! rr_room_id receipt)
    as [qs|] eqn:Hrr.
  - apply (foldl_invariant registered); [done|].
    intros a d Ha _. apply registered_rr; [|by apply registered_call_queue].
    intros room qs' d' Hl Hd'. simpl in *.
    destruct (decide (room = rr_room_id receipt)) as [->|Hne].
    + rewrite lookup_alter_eq in Hl.
      destruct (queues_awaiting_rr_flush_by_room a !! rr_room_id receipt)
        as [qa|] eqn:Hqa; [|done].
      injection Hl as <-. apply elem_of_union in Hd' as [Hd'|Hd'];
        [set_solver|].
      apply elem_of_union. right. by eapply (proj2 Ha).
    + rewrite lookup_alter_ne in Hl by done.
      apply elem_of_union. right. by eapply (proj2 Ha).
  - apply (foldl_invariant registered).
    + unfold _schedule_rr_flush_for_room, clock_call_later.
      apply registered_rr.
      * intros room qs' d' Hl Hd'. simpl in *.
        destruct (decide (room = rr_room_id receipt)) as [->|Hne].
        -- rewrite lookup_insert_eq in Hl. injection Hl as <-. set_solver.
        -- rewrite lookup_insert_ne in Hl by done. by eapply (proj2 Hs).
      * peel. by apply registered_emit_none.
    + intros a d Ha _.
      apply (registered_emit_in _ d); [done|simpl; set_solver|].
      by apply registered_call_queue.
Qed.

Lemma registered_timer_fires room s :
  registered s → registered (timer_fires room s).
Proof.
  intros Hs. unfold timer_fires.
  destruct (take_due_timer (clock_now s) room (clock_timers s)); [|done].
  unfold _flush_rrs_for_room. simpl.
  destruct (queues_awaiting_rr_flush_by_room s !! room) as [qs|] eqn:Hrr;
    [|by peel].
  assert (Hdel : registered
                   (with_rr (delete room)
                      (with_clock (clock_now s) l s))).
  { apply registered_rr; [|by peel].
    intros r qs' d [_ Hl]%lookup_delete_Some Hd. by eapply (proj2 Hs). }
  destruct (decide (qs = ∅)); [done|]. simpl.
  match goal with
  | |- registered (foldl ?f ?a ?l) =>
      apply (foldl_invariant
               (λ x, registered x
                     ∧ per_destination_queues x = per_destination_queues s)
               f l a)
  end.
  - split; [|done].
    unfold _schedule_rr_flush_for_room, clock_call_later.
    apply registered_rr.
    + intros r qs' d Hl Hd. simpl in *.
      destruct (decide (r = room)) as [->|Hne].
      * rewrite lookup_insert_eq in Hl. injection Hl as <-. set_solver.
      * rewrite lookup_insert_ne, lookup_delete_ne in Hl by done.
        by eapply (proj2 Hs).
    + peel. by apply registered_emit_none.
  - intros a q [Ha Hq] Hin. split; [|done].
    apply (registered_emit_in _ q); [done| |done].
    rewrite Hq. apply elem_of_elements in Hin. by eapply (proj2 Hs).
Qed.

Lemma registered_step s op : registered s → registered (step s op).
Proof.
  intros Hs. destruct op; simpl.
  - unfold notify_new_events. destruct (is_processing _); by peel.
  - unfold event_loop_fetched, event_loop_finally.
    destruct (event_loop_passes s); [done|].
    destruct page as [[nt evs]|]; [|by peel].
    destruct (bool_decide (evs = []) && (nt >=? last_poked_id s)); by peel.
  - destruct (handle_event_cases event hosts s) as [->|[ds ->]];
      [done|by apply registered_send_pdu].
  - unfold event_loop_page_done, event_loop_finally.
    destruct (event_loop_passes s); [done|].
    destruct raised; peel; by apply registered_emit_none.
  - by apply registered_send_pdu.
  - by apply registered_send_read_receipt.
  - by apply registered_timer_fires.
  - unfold clock_advance. destruct (Qle_bool _ _); by peel.
  - unfold send_presence. destruct use_presence; [|done]. simpl.
    destruct (processing_pending_presence s); [by peel|].
    apply registered_presence_loop. by peel.
  - unfold presence_resumed, presence_finally.
    destruct (presence_passes s); [done|].
    destruct result as [hs|]; [|by peel].
    apply registered_presence_loop. unfold _process_presence_inner.
    apply (foldl_invariant registered); [done|].
    intros a [destinations states] Ha _.
    by apply registered_presence_fold.
  - unfold send_presence_to_destinations.
    destruct (bool_decide (states = []) || negb use_presence); [done|].
    by apply registered_presence_fold.
  - unfold build_and_send_edu, send_edu.
    destruct (decide (dest = server_name)); [done|].
    destruct key as [k|]; [destruct (truthy k)|];
      by apply registered_call_queue.
  - unfold send_edu.
    destruct key as [k|]; [destruct (truthy k)|];
      by apply registered_call_queue.
  - unfold send_device_messages.
    destruct (decide (dest = server_name)); [done|].
    by apply registered_call_queue.
  - unfold wake_destination.
    destruct (decide (dest = server_name)); [done|].
    by apply registered_call_queue.
  - by peel.
  - unfold update_token_locked.
    destruct (last_ack s <? federation_position s); [|done].
    by apply registered_emit_none.
  - unfold update_token_persisted. destruct raised; [done|].
    peel. by apply registered_emit_none.
Qed.

(** X8: whatever the dispatcher is made to do, every call it made on a
    queue went to a queue that is in the registry (the queue was created
    before it was used and never dropped), and so is every queue that
    waits for a receipt flush. *)
Theorem calls_on_registered_queues (ops : list Op) (pos : Z) (now : Q) :
  let s := run ops (init pos now) in
  Forall (λ e, match queue_call_dest e with
               | Some d => d ∈ per_destination_queues s
               | None => True
               end) (trace s)
  ∧ map_Forall (λ _ qs, qs ⊆ per_destination_queues s)
               (queues_awaiting_rr_flush_by_room s).
Proof.
  assert (Hs : registered (run ops (init pos now))).
  { unfold run. apply (foldl_invariant registered).
    - split; simpl; [by intros e d ?%elem_of_nil|].
      intros room qs d. by rewrite lookup_empty.
    - intros a op Ha _. by apply registered_step. }
  destruct Hs as [Ht Hrr]. split.
  - apply Forall_forall. intros e He.
    destruct (queue_call_dest e) as [d|] eqn:Hd; [|done]. by eapply Ht.
  - intros room qs Hqs d Hd. by eapply Hrr.
Qed.

(** ** Scheduled flushes and their timers *)

Lemma timers_of_room room timers t :
  t ∈ timers_of room timers → t.2 = room.
Proof. by intros [? _]%list_elem_of_filter. Qed.

(** X9: in every state the dispatcher can reach, a room has an entry in
    [_queues_awaiting_rr_flush_by_room] exactly when one call of
    [_flush_rrs_for_room] is pending for it on the clock, and it has no
    entry exactly when no such call is pending. *)
Theorem rr_entry_iff_flush_pending
    (ops : list Op) (pos : Z) (now : Q) (room : string) :
  let s := run ops (init pos now) in
  (is_Some (queues_awaiting_rr_flush_by_room s !! room) ↔
     ∃ deadline, timers_of room (clock_timers s) = [(deadline, room)])
  ∧ (queues_awaiting_rr_flush_by_room s !! room = None ↔
       timers_of room (clock_timers s) = []).
Proof.
  intros s.
  assert (Hcons : timers_consistent s).
  { apply timers_consistent_run. intros r. simpl. by rewrite lookup_empty. }
  specialize (Hcons room).
  destruct (queues_awaiting_rr_flush_by_room s !! room) as [qs|].
  - destruct (timers_of room (clock_timers s)) as [|[dl r] [|t l]] eqn:Ht;
      try done.
    assert (r = room) as ->.
    { apply (timers_of_room room (clock_timers s) (dl, r)). rewrite Ht. left. }
    split; split.
    + intros _. by exists dl.
    + intros _. by eexists.
    + intros H. discriminate H.
    + intros H. discriminate H.
  - apply nil_length_inv in Hcons. rewrite Hcons.
    split; split.
    + intros H. by destruct H.
    + intros H. by destruct H.
    + done.
    + done.
Qed.

(** X10: in every state the dispatcher can reach, a timer that fires for
    a room finds the entry of the room: the [pop] of
    [_flush_rrs_for_room] does not raise. *)
Theorem fired_timer_finds_entry
    (ops : list Op) (pos : Z) (now : Q) (room : string)
    (rest : list (Q * string)) :
  let s := run ops (init pos now) in
  take_due_timer (clock_now s) room (clock_timers s) = Some rest →
  is_Some (_flush_rrs_for_room room (with_clock (clock_now s) rest s)).
Proof.
  intros s Hdue.
  assert (Hcons : timers_consistent s).
  { apply timers_consistent_run. intros r. simpl. by rewrite lookup_empty. }
  specialize (Hcons room).
  apply take_due_timer_Some in Hdue as (dl & before & after & Ht & _ & _).
  rewrite Ht, timers_of_app, timers_of_cons_eq, length_app in Hcons.
  simpl in Hcons. unfold _flush_rrs_for_room. simpl.
  destruct (queues_awaiting_rr_flush_by_room s !! room) as [qs|]; [|lia].
  by destruct (decide (qs = ∅)).
Qed.

(** ** Receipts that wait for a flush *)

Lemma send_read_receipt_pending_trace receipt hosts qs s :
  queues_awaiting_rr_flush_by_room s !! rr_room_id receipt = Some qs →
  trace (send_read_receipt receipt hosts s) =
    trace s ++ ((λ d, queue_read_receipt d receipt)
                  <$> filter (λ d, d ≠ server_name) hosts).
Proof.
  intros Hrr. unfold send_read_receipt. rewrite Hrr.
  destruct (filter (λ d, d ≠ server_name) hosts) as [|d0 ds];
    [by rewrite app_nil_r|].
  generalize (d0 :: ds). intros domains. revert s qs Hrr.
  induction domains as [|d l IH]; intros s qs Hrr; [by rewrite app_nil_r|].
  simpl. rewrite (IH _ ({[d]} ∪ qs)); simpl.
  - by rewrite <- app_assoc.
  - by rewrite lookup_alter_eq, Hrr.
Qed.

Lemma timer_fires_trace room s :
  trace (timer_fires room s) =
    trace s ++
    match take_due_timer (clock_now s) room (clock_timers s),
          queues_awaiting_rr_flush_by_room s !! room with
    | Some _, Some qs =>
        if decide (qs = ∅) then []
        else call_later (rr_txn_interval_per_room_ms
                         * inject_Z (Z.of_nat (size qs)))%Q room
             :: ((λ q, flush_read_receipts_for_room q room) <$> elements qs)
    | _, _ => []
    end.
Proof.
  unfold timer_fires.
  destruct (take_due_timer (clock_now s) room (clock_timers s)) as [rest|];
    [|by rewrite app_nil_r].
  unfold _flush_rrs_for_room. simpl.
  destruct (queues_awaiting_rr_flush_by_room s !! room) as [qs|];
    [|by rewrite app_nil_r].
  destruct (decide (qs = ∅)); [by rewrite app_nil_r|].
  simpl. rewrite trace_foldl_emit. simpl. by rewrite <- app_assoc.
Qed.

Lemma unflushed_app room t1 t2 :
  unflushed room (t1 ++ t2) = foldl (unflushed_step room) (unflushed room t1) t2.
Proof. unfold unflushed. apply foldl_app. Qed.

Lemma unflushed_queue_flush room receipt domains acc :
  foldl (unflushed_step room) acc
        (domains ≫= λ d, [queue_read_receipt d receipt;
                          flush_read_receipts_for_room d (rr_room_id receipt)])
    ⊆ acc.
Proof.
  revert acc. induction domains as [|d l IH]; intros acc; [done|].
  simpl. etrans; [apply IH|].
  destruct (decide (rr_room_id receipt = room)); set_solver.
Qed.

Lemma unflushed_queued room receipt domains acc :
  foldl (unflushed_step room) acc
        ((λ d, queue_read_receipt d receipt) <$> domains)
    = if decide (rr_room_id receipt = room) then list_to_set domains ∪ acc
      else acc.
Proof.
  revert acc. induction domains as [|d l IH]; intros acc; simpl.
  - destruct (decide (rr_room_id receipt = room)); [|done]. set_solver.
  - rewrite IH. destruct (decide (rr_room_id receipt = room)); [|done].
    set_solver.
Qed.

Lemma unflushed_flushed room r qs acc :
  foldl (unflushed_step room) acc
        ((λ q, flush_read_receipts_for_room q r) <$> qs)
    = if decide (r = room) then acc ∖ list_to_set qs else acc.
Proof.
  revert acc. induction qs as [|q l IH]; intros acc; simpl.
  - destruct (decide (r = room)); [|done]. set_solver.
  - rewrite IH. destruct (decide (r = room)); [|done]. set_solver.
Qed.

Lemma unflushed_quiet room l acc :
  Forall (λ e, match e with
               | queue_read_receipt _ _ | flush_read_receipts_for_room _ _ =>
                   False
               | _ => True
               end) l →
  foldl (unflushed_step room) acc l = acc.
Proof.
  intros Hl. revert acc. induction Hl as [|e l He _ IH]; intros acc; [done|].
  simpl. rewrite IH. by destruct e.
Qed.

Lemma unflushed_step_inv s op :
  (∀ room, unflushed room (trace s)
             ⊆ default ∅ (queues_awaiting_rr_flush_by_room s !! room)) →
  ∀ room, unflushed room (trace (step s op))
            ⊆ default ∅ (queues_awaiting_rr_flush_by_room (step s op) !! room).
Proof.
  intros Hinv.
  assert (Hquiet : match op with
                   | op_send_read_receipt _ _ | op_timer_fires _ => False
                   | _ => True
                   end →
                   ∀ room, unflushed room (trace (step s op))
                     ⊆ default ∅ (queues_awaiting_rr_flush_by_room (step s op)
                                    !! room)).
  { intros Hop room. destruct (step_rr_frame s op Hop) as [-> _].
    destruct (step_emits s op) as (l & -> & Hem).
    rewrite unflushed_app, unflushed_quiet; [apply Hinv|].
    eapply Forall_impl; [exact Hem|]. intros e He.
    destruct op; simpl in He, Hop; try done; destruct e; try done;
      naive_solver. }
  destruct op; try (apply Hquiet; exact I); simpl; intros r.
  - pose proof (send_read_receipt_rr receipt hosts s) as Hrr. simpl in Hrr.
    destruct (queues_awaiting_rr_flush_by_room s !! rr_room_id receipt)
      as [qs|] eqn:Hentry.
    + rewrite (send_read_receipt_pending_trace _ _ qs) by done.
      rewrite unflushed_app, unflushed_queued.
      specialize (Hinv r).
      destruct (filter (λ d, d ≠ server_name) hosts) as [|d0 ds] eqn:Hdom.
      { rewrite Hrr. destruct (decide (rr_room_id receipt = r)); [|done].
        set_solver. }
      destruct Hrr as [-> _].
      destruct (decide (rr_room_id receipt = r)) as [<-|Hne].
      * rewrite lookup_insert_eq. rewrite Hentry in Hinv. simpl in *.
        set_solver.
      * by rewrite lookup_insert_ne.
    + rewrite send_read_receipt_first by done.
      rewrite unflushed_app.
      specialize (Hinv r).
      destruct (filter (λ d, d ≠ server_name) hosts) as [|d0 ds] eqn:Hdom.
      { by rewrite Hrr. }
      destruct Hrr as [-> _]. simpl.
      etrans; [apply unflushed_queue_flush|].
      destruct (decide (rr_room_id receipt = r)) as [<-|Hne].
      * rewrite lookup_insert_eq. rewrite Hentry in Hinv. simpl in *.
        set_solver.
      * rewrite lookup_insert_ne by done. set_solver.
  - pose proof (timer_fires_rr room s) as Hrr. simpl in Hrr.
    rewrite timer_fires_trace, unflushed_app.
    pose proof (Hinv room) as Hroom. specialize (Hinv r).
    destruct (take_due_timer (clock_now s) room (clock_timers s));
      [|by rewrite Hrr].
    destruct (queues_awaiting_rr_flush_by_room s !! room) as [qs|] eqn:Hentry;
      [|by destruct Hrr as [-> _]].
    destruct (decide (qs = ∅)) as [->|Hne]; destruct Hrr as [-> _].
    + simpl in *. destruct (decide (r = room)) as [->|Hr].
      * rewrite lookup_delete_eq. done.
      * by rewrite lookup_delete_ne.
    + simpl. rewrite unflushed_flushed.
      destruct (decide (room = r)) as [<-|Hr].
      * rewrite lookup_insert_eq. simpl in *.
        rewrite list_to_set_elements_L. set_solver.
      * by rewrite lookup_insert_ne, lookup_delete_ne.
Qed.

(** X11: no queued receipt is left behind.  Whatever the dispatcher is
    made to do, a queue that holds a receipt of a room queued after the
    last flush of that room on it is registered in the entry of the room,
    and a call of [_flush_rrs_for_room] is pending for the room. *)
Theorem unflushed_receipts_are_scheduled
    (ops : list Op) (pos : Z) (now : Q) (room d : string) :
  let s := run ops (init pos now) in
  d ∈ unflushed room (trace s) →
  (∃ qs, queues_awaiting_rr_flush_by_room s !! room = Some qs ∧ d ∈ qs)
  ∧ ∃ deadline, (deadline, room) ∈ clock_timers s.
Proof.
  intros s Hd.
  assert (Hinv : ∀ r, unflushed r (trace s)
                        ⊆ default ∅ (queues_awaiting_rr_flush_by_room s !! r)).
  { unfold s, run.
    apply (foldl_invariant
             (λ x, ∀ r, unflushed r (trace x)
                     ⊆ default ∅ (queues_awaiting_rr_flush_by_room x !! r))).
    - intros r. done.
    - intros a op Ha _. by apply unflushed_step_inv. }
  specialize (Hinv room d Hd).
  destruct (queues_awaiting_rr_flush_by_room s !! room) as [qs|] eqn:Hentry;
    [|by apply not_elem_of_empty in Hinv].
  split; [by exists qs|].
  assert (Hcons : timers_consistent s).
  { apply timers_consistent_run. intros r. simpl. by rewrite lookup_empty. }
  specialize (Hcons room). rewrite Hentry in Hcons.
  destruct (timers_of room (clock_timers s)) as [|[dl r] l] eqn:Ht; [done|].
  assert (Hin : (dl, r) ∈ timers_of room (clock_timers s)).
  { rewrite Ht. left. }
  apply list_elem_of_filter in Hin as [Hr Hin]. simpl in Hr. subst r.
  by exists dl.
Qed.

(** ** A page of events, room by room *)

Lemma setdefault_append_keys room event by_room :
  (setdefault_append room event by_room).*1 =
    if decide (room ∈ by_room.*1) then by_room.*1 else by_room.*1 ++ [room].
Proof.
  induction by_room as [|[r evs] rest IH].
  - destruct (decide (room ∈ ([] : list (string * list EventBase)).*1))
      as [H|H]; [by apply elem_of_nil in H|done].
  - rewrite fmap_cons. cbn [setdefault_append fst].
    destruct (decide (r = room)) as [->|Hne].
    + rewrite decide_True; [done|left].
    + rewrite fmap_cons, IH. cbn [fst].
      destruct (decide (room ∈ rest.*1)).
      * rewrite decide_True; [done|by right].
      * rewrite decide_False; [done|]. rewrite elem_of_cons. naive_solver.
Qed.

Lemma setdefault_append_elem room event by_room r evs :
  NoDup by_room.*1 →
  (r, evs) ∈ setdefault_append room event by_room ↔
    (r ≠ room ∧ (r, evs) ∈ by_room)
    ∨ (r = room ∧ ((∃ old, (room, old) ∈ by_room ∧ evs = old ++ [event])
                   ∨ ((room ∉ by_room.*1) ∧ evs = [event]))).
Proof.
  induction by_room as [|[r0 evs0] rest IH]; intros Hnd.
  - cbn [setdefault_append]. rewrite list_elem_of_singleton. split.
    + intros [= -> ->]. right. split; [done|]. right.
      split; [apply not_elem_of_nil|done].
    + intros [[_ H]|[-> [(old & H & _)|[_ ->]]]].
      * by apply elem_of_nil in H.
      * by apply elem_of_nil in H.
      * done.
  - rewrite fmap_cons in Hnd. cbn [fst] in Hnd.
    apply NoDup_cons in Hnd as [Hr0 Hnd]. specialize (IH Hnd).
    assert (Hkey : ∀ x, (r0, x) ∈ rest → False).
    { intros x Hx. apply Hr0. apply list_elem_of_fmap. by exists (r0, x). }
    cbn [setdefault_append]. rewrite fmap_cons. cbn [fst].
    destruct (decide (r0 = room)) as [->|Hne].
    + rewrite !elem_of_cons. split.
      * intros [[= -> ->]|Hin].
        -- right. split; [done|]. left. exists evs0.
           split; [by left|done].
        -- left. split; [|by right]. intros ->. by eapply Hkey.
      * intros [[Hr [[= ? ?]|Hin]]|[-> [(old & Hold & ->)|[Hnot _]]]].
        -- done.
        -- by right.
        -- apply elem_of_cons in Hold as [[= ->]|Hold]; [by left|].
           exfalso. by eapply Hkey.
        -- exfalso. apply Hnot. by left.
    + rewrite !elem_of_cons, IH. split.
      * intros [[= -> ->]|[[Hr Hin]|[-> Hcase]]].
        -- left. split; [done|by left].
        -- left. split; [done|by right].
        -- right. split; [done|].
           destruct Hcase as [(old & Hold & ->)|[Hnot ->]].
           ++ left. exists old. split; [by right|done].
           ++ right. split; [|done].
              intros [Heq|Hin]; [congruence|done].
      * intros [[Hr [[= -> ->]|Hin]]|[-> Hcase]].
        -- by left.
        -- right. left. done.
        -- right. right. split; [done|].
           destruct Hcase as [(old & Hold & ->)|[Hnot ->]].
           ++ apply elem_of_cons in Hold as [[= ? ?]|Hold]; [done|].
              left. by exists old.
           ++ right. split; [|done]. intros Hin. apply Hnot. by right.
Qed.

Lemma events_by_room_snoc events event :
  events_by_room (events ++ [event]) =
    setdefault_append (room_id event) event (events_by_room events).
Proof. unfold events_by_room. by rewrite foldl_app. Qed.

Lemma events_by_room_spec events :
  NoDup (events_by_room events).*1
  ∧ ∀ r evs, (r, evs) ∈ events_by_room events ↔
             evs = filter (λ e, room_id e = r) events ∧ evs ≠ [].
Proof.
  induction events as [|event events [Hnd IH]] using rev_ind.
  - split; [constructor|]. intros r evs. split.
    + by intros ?%elem_of_nil.
    + by intros [-> ?].
  - rewrite events_by_room_snoc. split.
    + rewrite setdefault_append_keys.
      destruct (decide (room_id event ∈ (events_by_room events).*1));
        [done|].
      apply NoDup_app. split_and!; [done| |apply NoDup_singleton].
      intros x Hx ->%list_elem_of_singleton. done.
    + intros r evs. rewrite setdefault_append_elem by done.
      rewrite filter_app, filter_cons, filter_nil.
      destruct (decide (room_id event = r)) as [<-|Hne].
      * split.
        -- intros [[? _]|[_ [(old & Hold & ->)|[Hnot ->]]]]; [done| |].
           ++ apply IH in Hold as [-> _]. split; [done|].
              by destruct (filter _ events).
           ++ split; [|done].
              destruct (filter (λ e, room_id e = room_id event) events)
                as [|e0 l] eqn:Hf; [done|].
              exfalso. apply Hnot. apply list_elem_of_fmap.
              exists (room_id event, e0 :: l). split; [done|].
              apply IH. by rewrite Hf.
        -- intros [-> _]. right. split; [done|].
           destruct (filter (λ e, room_id e = room_id event) events)
             as [|e0 l] eqn:Hf.
           ++ right. split; [|done].
              intros ([r' old] & Hr' & Hold)%list_elem_of_fmap.
              simpl in Hr'. subst r'. apply IH in Hold as [-> Hne].
              by rewrite Hf in Hne.
           ++ left. exists (e0 :: l). split; [|done]. apply IH.
              by rewrite Hf.
      * rewrite app_nil_r. split.
        -- intros [[_ Hin]|[-> _]]; [by apply IH|done].
        -- intros H. left. split; [congruence|by apply IH].
Qed.

(** X12: grouping a page by room.  [events_by_room] has one entry for
    each room that occurs in the page, and the entry of a room lists the
    events of that room, in the order of the page; so the number of
    entries, which the loop reports as its room count, is the number of
    distinct rooms of the page. *)
Theorem events_by_room_groups (events : list EventBase) :
  NoDup (events_by_room events).*1
  ∧ (∀ r evs, (r, evs) ∈ events_by_room events ↔
              evs = filter (λ e, room_id e = r) events ∧ evs ≠ [])
  ∧ length (events_by_room events)
    = size (list_to_set (room_id <$> events) : gset string).
Proof.
  destruct (events_by_room_spec events) as [Hnd Hspec].
  split_and!; [done|done|].
  rewrite <- (length_fmap fst), <- (size_list_to_set (C := gset string))
    by done.
  f_equal. apply set_eq. intros r. rewrite !elem_of_list_to_set. split.
  - intros ([r' evs] & -> & Hin)%list_elem_of_fmap. simpl.
    apply Hspec in Hin as [-> Hne].
    destruct (filter (λ e, room_id e = r') events) as [|e0 l] eqn:Hf; [done|].
    assert (He0 : e0 ∈ filter (λ e, room_id e = r') events)
      by (rewrite Hf; left).
    apply list_elem_of_filter in He0 as [<- He0].
    apply list_elem_of_fmap. by exists e0.
  - intros (e & -> & He)%list_elem_of_fmap.
    apply list_elem_of_fmap.
    exists (room_id e, filter (λ e', room_id e' = room_id e) events).
    split; [done|]. apply Hspec. split; [done|].
    intros Hnil.
    assert (Hin : e ∈ filter (λ e', room_id e' = room_id e) events)
      by (by apply list_elem_of_filter).
    rewrite Hnil in Hin. by apply elem_of_nil in Hin.
Qed.

(** ** The order numbers of the events of a page *)

Lemma handle_event_reaches event hosts s :
  handle_event event hosts s =
    if reaches_send_pdu (event, hosts)
    then _send_pdu event
           (elements (match send_on_behalf_of event with
                      | Some origin_server =>
                          list_to_set (default [] hosts) ∖ {[origin_server]}
                      | None => list_to_set (default [] hosts)
                      end : gset string)) s
    else s.
Proof.
  unfold handle_event, reaches_send_pdu. simpl.
  destruct (is_mine_id (sender event));
    destruct (send_on_behalf_of event) as [x|];
    destruct (should_proactively_send event);
    destruct hosts as [hs|]; done.
Qed.

(** The counter moves by one at the steps that take an order number,
    and at no other step. *)
Lemma step_order_count (s : FederationSender) (op : Op) :
  order (step s op) = order s + if takes_order op then 1 else 0.
Proof.
  destruct (takes_order op) eqn:Htakes.
  - destruct op; try discriminate; simpl in *.
    + rewrite handle_event_reaches, Htakes. apply send_pdu_order.
    + apply send_pdu_order.
  - rewrite Z.add_0_r. destruct op; try discriminate;
      try (by apply step_order); simpl in *.
    by rewrite handle_event_reaches, Htakes.
Qed.

Lemma run_order_count (ops : list Op) (s : FederationSender) :
  order (run ops s) =
    order s + Z.of_nat (length (filter (λ op, takes_order op = true) ops)).
Proof.
  revert s. induction ops as [|op ops IH]; intros s; [simpl; lia|].
  change (run (op :: ops) s) with (run ops (step s op)).
  rewrite IH, step_order_count, filter_cons.
  destruct (takes_order op).
  - rewrite decide_True by done. simpl length. lia.
  - rewrite decide_False by done. lia.
Qed.

(** X13: the order numbers of the events of a page.  The batches of
    the rooms run interleaved, each handing its events to
    [handle_event] one after the other, so an event is handled after
    whatever ran before it: events of its own room that come earlier in
    the page, events of other rooms, anything else.  An event that
    [handle_event] turns away (not ours and on nobody's behalf, not to be
    sent proactively, or with hosts that could not be computed) leaves
    the sender as it was and uses no order number.  Every other event
    uses one, also when it has no remote host, and the calls made for it
    carry the counter it finds: the counter at the start plus the number
    of steps before it that took an order number. *)
Theorem room_events_order_numbers
    (before : list Op) (event : EventBase) (hosts : option (list string))
    (s : FederationSender) :
  let s1 := run before s in
  let s2 := handle_event event hosts s1 in
  order s1
    = order s + Z.of_nat (length (filter (λ op, takes_order op = true) before))
  ∧ (if reaches_send_pdu (event, hosts)
     then order s2 = order s1 + 1
          ∧ ∃ calls,
              trace s2 = trace s1 ++ calls
              ∧ Forall (λ e, ∃ d, e = send_pdu d event (order s1)) calls
     else s2 = s1).
Proof.
  simpl. split; [apply run_order_count|].
  rewrite handle_event_reaches.
  destruct (reaches_send_pdu (event, hosts)); [|done].
  split; [apply send_pdu_order|].
  eexists. split; [apply send_pdu_trace|].
  apply Forall_fmap, Forall_forall. intros d _. by exists d.
Qed.

(** ** Presence sent to given destinations *)

(** X14: [send_presence_to_destinations] does nothing when it is given
    no state or when presence is disabled; otherwise it hands the states
    to the queue of each destination in the order given, once for each
    occurrence, leaving out the local server. *)
Theorem send_presence_to_destinations_calls
    (states : list UserPresenceState) (destinations : list string)
    (s : FederationSender) :
  let s' := send_presence_to_destinations states destinations s in
  (if bool_decide (states = []) || negb use_presence then s' = s
   else trace s' =
          trace s ++ ((λ d, queue_send_presence d states)
                        <$> filter (λ d, d ≠ server_name) destinations))
  ∧ queue_frame s s'.
Proof.
  simpl. unfold send_presence_to_destinations.
  destruct (bool_decide (states = []) || negb use_presence);
    [split; [done|apply queue_frame_refl]|].
  split.
  - revert s. induction destinations as [|d l IH]; intros s; simpl.
    + by rewrite app_nil_r.
    + rewrite filter_cons. destruct (decide (d = server_name)) as [->|Hne].
      * rewrite decide_False by (by intros H). apply IH.
      * rewrite decide_True by done. rewrite IH. simpl.
        by rewrite <- app_assoc.
  - apply (foldl_invariant (queue_frame s)); [apply queue_frame_refl|].
    intros a d Ha _. destruct (decide (d = server_name)); [done|].
    eapply queue_frame_trans; [exact Ha|apply call_queue_frame].
Qed.

Lemma trace_same_nil (t l : list Effect) : t = t ++ l → l = [].
Proof. intros H. apply (app_inv_head t). by rewrite app_nil_r. Qed.

(** X15: with presence disabled nothing about presence ever happens:
    whatever the dispatcher is made to do, no state is pending, no
    presence pass runs, the presence interest is never asked for and no
    presence is handed to a queue. *)
Theorem presence_disabled_is_silent (ops : list Op) (pos : Z) (now : Q) :
  use_presence = false →
  let s := run ops (init pos now) in
  pending_presence s = ∅
  ∧ processing_pending_presence s = false
  ∧ presence_passes s = 0%nat
  ∧ Forall (λ e, match e with
                 | queue_send_presence _ _ | get_interested_remotes _ => False
                 | _ => True
                 end) (trace s).
Proof.
  intros Huse. simpl. unfold run.
  apply (foldl_invariant
           (λ x, pending_presence x = ∅
                 ∧ processing_pending_presence x = false
                 ∧ presence_passes x = 0%nat
                 ∧ Forall (λ e, match e with
                                | queue_send_presence _ _
                                | get_interested_remotes _ => False
                                | _ => True
                                end) (trace x))).
  { by repeat split. }
  intros a op (Hpend & Hflag & Hpasses & Htrace) _.
  destruct (step_emits a op) as (l & Hl & Hem).
  assert (Hstate : pending_presence (step a op) = ∅
                   ∧ processing_pending_presence (step a op) = false
                   ∧ presence_passes (step a op) = 0%nat).
  { destruct op;
      try (match goal with
           | |- context [step a ?o] =>
               destruct (step_presence_frame a o I) as (-> & -> & ->)
           end; done).
    - cbn [step]. unfold send_presence. by rewrite Huse.
    - cbn [step]. unfold presence_resumed. by rewrite Hpasses. }
  destruct Hstate as (? & ? & ?). split_and!; try done.
  rewrite Hl. apply Forall_app. split; [done|].
  assert (Hsame : match op with
                  | op_send_presence _ | op_presence_resumed _
                  | op_send_presence_to_destinations _ _ => l = []
                  | _ => True
                  end).
  { destruct op; try done; cbn [step] in Hl.
    - unfold send_presence in Hl. rewrite Huse in Hl.
      by apply trace_same_nil in Hl.
    - unfold presence_resumed in Hl. rewrite Hpasses in Hl.
      by apply trace_same_nil in Hl.
    - unfold send_presence_to_destinations in Hl. rewrite Huse in Hl.
      rewrite orb_true_r in Hl. by apply trace_same_nil in Hl. }
  destruct op; try (rewrite Hsame; constructor);
    (eapply Forall_impl; [exact Hem|]; intros e He; simpl in He;
     destruct e; try done; naive_solver).
Qed.

(** ** Replication rows *)

Lemma send_device_messages_fold hosts s :
  trace (foldl (λ s host, send_device_messages host s) s hosts) =
    trace s ++ (attempt_new_transaction
                  <$> filter (λ host, host ≠ server_name) hosts).
Proof.
  revert s. induction hosts as [|host hosts IH]; intros s; simpl.
  - by rewrite app_nil_r.
  - rewrite IH, filter_cons. unfold send_device_messages.
    destruct (decide (host = server_name)) as [->|Hne].
    + by rewrite decide_False by (by intros H).
    + rewrite decide_True by done. simpl. by rewrite <- app_assoc.
Qed.

(** X16: rows of the device list stream and of the to-device stream are
    handled alike: the queue of every entity that does not start with
    ["@"] and is not the local server is poked with
    [attempt_new_transaction], once, however often the entity occurs in
    the rows; entities that start with ["@"] are users and are skipped. *)
Theorem process_replication_rows_device_hosts
    (token : Z) (entities : list string) (s : FederationSender) :
  process_replication_rows token (to_device_rows entities) s
    = process_replication_rows token (device_lists_rows entities) s
  ∧ ∃ calls,
      trace (process_replication_rows token (device_lists_rows entities) s)
        = trace s ++ calls
      ∧ NoDup calls
      ∧ ∀ e, e ∈ calls ↔
             ∃ host, host ∈ entities ∧ startswith_at host = false
                     ∧ host ≠ server_name
                     ∧ e = attempt_new_transaction host.
Proof.
  split; [done|]. simpl. eexists. split; [apply send_device_messages_fold|].
  split.
  - apply NoDup_fmap_2; [by intros ?? [=]|].
    apply NoDup_filter, NoDup_elements.
  - intros e. rewrite list_elem_of_fmap. split.
    + intros (host & -> & [Hne Hin]%list_elem_of_filter).
      apply elem_of_elements, elem_of_list_to_set, list_elem_of_filter in Hin
        as [Hat Hin].
      by exists host.
    + intros (host & Hin & Hat & Hne & ->). exists host. split; [done|].
      apply list_elem_of_filter. split; [done|].
      apply elem_of_elements, elem_of_list_to_set, list_elem_of_filter. done.
Qed.

(** The receipt [_on_new_receipts] builds from a row. *)
Lemma on_new_receipts_run rows s :
  ∃ ops,
    _on_new_receipts rows s = run ops s
    ∧ Forall (λ op, ∃ row hosts,
                row ∈ rows.*1
                ∧ is_mine_id (row_user_id row) = true
                ∧ op = op_send_read_receipt
                         {| rr_room_id := row_room_id row;
                            rr_receipt_type := row_receipt_type row;
                            rr_user_id := row_user_id row;
                            rr_event_ids := [row_event_id row];
                            rr_data := row_data row |} hosts) ops.
Proof.
  revert s. induction rows as [|[row hosts] rows IH]; intros s.
  - by exists [].
  - assert (Hweak : ∀ ops,
              Forall (λ op, ∃ row' hosts',
                        row' ∈ rows.*1
                        ∧ is_mine_id (row_user_id row') = true
                        ∧ op = op_send_read_receipt
                                 {| rr_room_id := row_room_id row';
                                    rr_receipt_type := row_receipt_type row';
                                    rr_user_id := row_user_id row';
                                    rr_event_ids := [row_event_id row'];
                                    rr_data := row_data row' |} hosts') ops →
              Forall (λ op, ∃ row' hosts',
                        row' ∈ ((row, hosts) :: rows).*1
                        ∧ is_mine_id (row_user_id row') = true
                        ∧ op = op_send_read_receipt
                                 {| rr_room_id := row_room_id row';
                                    rr_receipt_type := row_receipt_type row';
                                    rr_user_id := row_user_id row';
                                    rr_event_ids := [row_event_id row'];
                                    rr_data := row_data row' |} hosts') ops).
    { intros ops Hops. eapply Forall_impl; [exact Hops|].
      intros op (row' & hosts' & Hin & Hmine & ->).
      exists row', hosts'. split; [by right|done]. }
    cbn [_on_new_receipts].
    destruct (is_mine_id (row_user_id row)) eqn:Hmine; simpl.
    + destruct hosts as [hosts|]; [|by exists []].
      match goal with
      | |- context [_on_new_receipts rows ?s1] =>
          destruct (IH s1) as (ops & Hrun & Hops)
      end.
      eexists (op_send_read_receipt _ hosts :: ops). split; [exact Hrun|].
      constructor; [|by apply Hweak].
      exists row, hosts. split; [left|done].
    + destruct (IH s) as (ops & Hrun & Hops).
      exists ops. split; [done|by apply Hweak].
Qed.

(** ** Receipts and remote domains *)

Lemma receipts_queued_app t1 t2 :
  receipts_queued (t1 ++ t2) = receipts_queued t1 ++ receipts_queued t2.
Proof. apply omap_app. Qed.

(** X18: [send_read_receipt] queues the receipt on the queue of every
    remote domain of the room, in the order of the hosts and once for
    each occurrence, whether or not a flush is scheduled for the room;
    and when the room has no remote domain it leaves the sender as it
    was: no entry, no timer, no queue. *)
Theorem send_read_receipt_queues_every_domain
    (receipt : ReadReceipt) (hosts : list string) (s : FederationSender) :
  (∃ l, trace (send_read_receipt receipt hosts s) = trace s ++ l
        ∧ receipts_queued l =
            (λ d, (d, receipt)) <$> filter (λ d, d ≠ server_name) hosts)
  ∧ ∀ n, send_read_receipt receipt (replicate n server_name) s = s.
Proof.
  split.
  - destruct (queues_awaiting_rr_flush_by_room s !! rr_room_id receipt)
      as [qs|] eqn:Hrr.
    + eexists. split; [by apply (send_read_receipt_pending_trace _ _ qs)|].
      induction (filter (λ d, d ≠ server_name) hosts) as [|d l IH];
        [done|]. simpl. f_equal. exact IH.
    + eexists. split; [by apply send_read_receipt_first|].
      destruct (filter (λ d, d ≠ server_name) hosts) as [|d0 ds]; [done|].
      generalize (d0 :: ds). intros domains. simpl.
      induction domains as [|d l IH]; [done|]. simpl. f_equal. exact IH.
  - intros n. unfold send_read_receipt.
    assert (Hnil : filter (λ d, d ≠ server_name) (replicate n server_name)
                   = []).
    { induction n as [|n IH]; [done|]. simpl. rewrite filter_cons.
      by rewrite decide_False by (by intros H). }
    by rewrite Hnil.
Qed.

(** ** Receipts from replication rows *)

Lemma send_read_receipt_queued receipt hosts s :
  ∃ l, trace (send_read_receipt receipt hosts s) = trace s ++ l
       ∧ receipts_queued l =
           (λ d, (d, receipt)) <$> filter (λ d, d ≠ server_name) hosts.
Proof.
  destruct (queues_awaiting_rr_flush_by_room s !! rr_room_id receipt)
    as [qs|] eqn:Hrr.
  - eexists. split; [by apply (send_read_receipt_pending_trace _ _ qs)|].
    induction (filter (λ d, d ≠ server_name) hosts) as [|d l IH];
      [done|]. simpl. f_equal. exact IH.
  - eexists. split; [by apply send_read_receipt_first|].
    destruct (filter (λ d, d ≠ server_name) hosts) as [|d0 ds]; [done|].
    generalize (d0 :: ds). intros domains. simpl.
    induction domains as [|d l IH]; [done|]. simpl. f_equal. exact IH.
Qed.

(** When the resolver answers for every row of a local user, the rows
    of local users are handed to [send_read_receipt] one by one. *)
Lemma on_new_receipts_exact rows s :
  Forall (λ row, is_mine_id (row_user_id row.1) = true → is_Some row.2) rows →
  _on_new_receipts rows s =
    run ((λ row, op_send_read_receipt (row_receipt row.1) (default [] row.2))
           <$> filter (λ row, is_mine_id (row_user_id row.1) = true) rows) s.
Proof.
  intros Hrows. revert s.
  induction Hrows as [|[row hosts] rows Hrow _ IH]; intros s; [done|].
  cbn [_on_new_receipts]. rewrite filter_cons. simpl in *.
  destruct (is_mine_id (row_user_id row)) eqn:Hmine; simpl.
  - destruct (Hrow eq_refl) as [hs ->]. apply IH.
  - apply IH.
Qed.

Lemma run_receipts_queued
    (rows : list (ReceiptsStreamRow * option (list string))) s :
  ∃ l, trace (run ((λ row, op_send_read_receipt (row_receipt row.1)
                                                (default [] row.2)) <$> rows) s)
       = trace s ++ l
       ∧ receipts_queued l =
           rows ≫= λ row, (λ d, (d, row_receipt row.1))
                            <$> filter (λ d, d ≠ server_name) (default [] row.2).
Proof.
  revert s. induction rows as [|row rows IH]; intros s.
  - exists []. by rewrite app_nil_r.
  - rewrite fmap_cons.
    change (run (?op :: ?ops) s) with (run ops (step s op)).
    cbn [step].
    destruct (send_read_receipt_queued (row_receipt row.1) (default [] row.2) s)
      as (l1 & Hl1 & Hq1).
    destruct (IH (send_read_receipt (row_receipt row.1) (default [] row.2) s))
      as (l2 & Hl2 & Hq2).
    exists (l1 ++ l2). split; [by rewrite Hl2, Hl1, <- app_assoc|].
    by rewrite receipts_queued_app, Hq1, Hq2.
Qed.

(** A resolver that raises for a row of a local user ends the
    coroutine: the rows after it are not looked at. *)
Lemma on_new_receipts_raise before row after s :
  is_mine_id (row_user_id row) = true →
  _on_new_receipts (before ++ (row, None) :: after) s
    = _on_new_receipts before s.
Proof.
  intros Hmine. revert s.
  induction before as [|[row' hosts'] before IH]; intros s.
  - cbn [app _on_new_receipts]. by rewrite Hmine.
  - cbn [app _on_new_receipts].
    destruct (negb (is_mine_id (row_user_id row'))); [apply IH|].
    destruct hosts' as [hs|]; [apply IH|done].
Qed.

(** X17: [_on_new_receipts] forwards the receipts of local users, and
    only those.  What it does is a sequence of [send_read_receipt]
    calls, one for a row of a local user; every receipt it queues is that
    of a local user, names the one event of its row, and is queued on a
    remote queue; and rows of remote users alone leave the sender
    untouched.  When the resolver answers for every row of a local user,
    it calls [send_read_receipt] for each of these rows, in the order of
    the rows, with the receipt built from the row, so the receipts queued
    are exactly those rows' receipts, each on every remote domain of its
    room.  When the resolver raises for a row of a local user, the rows
    before it are forwarded and those after it are not. *)
Theorem on_new_receipts_local_only
    (rows : list (ReceiptsStreamRow * option (list string)))
    (s : FederationSender) :
  (∃ ops, _on_new_receipts rows s = run ops s
          ∧ Forall (λ op, match op with
                          | op_send_read_receipt _ _ => True
                          | _ => False
                          end) ops)
  ∧ (∃ l, trace (_on_new_receipts rows s) = trace s ++ l
          ∧ Forall (λ '(d, receipt),
                      d ≠ server_name
                      ∧ is_mine_id (rr_user_id receipt) = true
                      ∧ ∃ row, row ∈ rows.*1
                               ∧ rr_room_id receipt = row_room_id row
                               ∧ rr_event_ids receipt = [row_event_id row])
                   (receipts_queued l))
  ∧ (Forall (λ row, is_mine_id (row_user_id row.1) = false) rows →
     _on_new_receipts rows s = s)
  ∧ (Forall (λ row, is_mine_id (row_user_id row.1) = true → is_Some row.2)
            rows →
     let sent := filter (λ row, is_mine_id (row_user_id row.1) = true) rows in
     _on_new_receipts rows s =
       run ((λ row, op_send_read_receipt (row_receipt row.1)
                                         (default [] row.2)) <$> sent) s
     ∧ ∃ l, trace (_on_new_receipts rows s) = trace s ++ l
            ∧ receipts_queued l =
                sent ≫= λ row, (λ d, (d, row_receipt row.1))
                                 <$> filter (λ d, d ≠ server_name)
                                            (default [] row.2))
  ∧ (∀ before row after,
       rows = before ++ (row, None) :: after →
       is_mine_id (row_user_id row) = true →
       _on_new_receipts rows s = _on_new_receipts before s).
Proof.
  destruct (on_new_receipts_run rows s) as (ops & Hrun & Hops).
  split_and!.
  - exists ops. split; [done|]. eapply Forall_impl; [exact Hops|].
    by intros op (row & hosts & _ & _ & ->).
  - rewrite Hrun. clear Hrun. revert s.
    induction Hops as [|op ops (row & hosts & Hin & Hmine & ->) _ IH];
      intros s.
    + exists []. by rewrite app_nil_r.
    + simpl.
      match goal with
      | |- context [run ops ?s1] => destruct (IH s1) as (l2 & Hl2 & HP2)
      end.
      match goal with
      | |- context [send_read_receipt ?r hosts s] =>
          destruct (send_read_receipt_emits r hosts s) as (l1 & Hl1 & HP1)
      end.
      exists (l1 ++ l2). split; [by rewrite Hl2, Hl1, <- app_assoc|].
      unfold receipts_queued. rewrite omap_app. apply Forall_app.
      split; [|exact HP2].
      clear Hl1. induction HP1 as [|e l1 He _ IHl]; [constructor|].
      destruct e; simpl in *; try exact IHl.
      constructor; [|exact IHl].
      destruct He as [(d & Hd & [= -> ->])|(_ & [(d & _ & [=])|(? & [=])])].
      split_and!; [done|done|]. by exists row.
  - intros Hremote. clear Hrun Hops ops. revert s.
    induction Hremote as [|[row hosts] rows Hrow _ IH]; intros s; [done|].
    cbn [_on_new_receipts]. simpl in Hrow. rewrite Hrow. apply IH.
  - intros Hanswers. simpl.
    rewrite (on_new_receipts_exact rows s Hanswers).
    split; [done|]. apply run_receipts_queued.
  - intros before row after -> Hmine. by apply on_new_receipts_raise.
Qed.

(** ** One turn of the receipt cycle *)

Lemma take_due_timer_skip now room before l :
  timers_of room before = [] →
  take_due_timer now room (before ++ l) =
    (before ++.) <$> take_due_timer now room l.
Proof.
  induction before as [|[dl r] before IH]; intros Hnone.
  - simpl. by destruct (take_due_timer now room l).
  - destruct (decide (r = room)) as [->|Hne].
    { by rewrite timers_of_cons_eq in Hnone. }
    rewrite timers_of_cons_ne in Hnone by done.
    simpl. rewrite bool_decide_eq_false_2 by done. rewrite andb_false_r.
    rewrite (IH Hnone). by destruct (take_due_timer now room l).
Qed.

Lemma clock_advance_forward t s :
  (clock_now s <= t)%Q → clock_advance t s = with_clock t (clock_timers s) s.
Proof.
  intros Hle. unfold clock_advance.
  by rewrite (proj2 (Qle_bool_iff _ _) Hle).
Qed.

(** The state a first receipt leaves behind. *)
Lemma first_receipt_state ops0 pos now0 receipt hosts :
  let s0 := run ops0 (init pos now0) in
  let room := rr_room_id receipt in
  let domains := filter (λ d, d ≠ server_name) hosts in
  let s1 := send_read_receipt receipt hosts s0 in
  queues_awaiting_rr_flush_by_room s0 !! room = None →
  domains ≠ [] →
  queues_awaiting_rr_flush_by_room s1 =
    <[room := ∅]> (queues_awaiting_rr_flush_by_room s0)
  ∧ clock_timers s1 =
      clock_timers s0 ++
      [((clock_now s0 + rr_txn_interval_per_room_ms
                        * inject_Z (Z.of_nat (length domains)))%Q, room)]
  ∧ timers_of room (clock_timers s0) = []
  ∧ clock_now s1 = clock_now s0.
Proof.
  intros s0 room domains s1 Hidle Hdom.
  pose proof (send_read_receipt_rr receipt hosts s0) as Hrr. simpl in Hrr.
  fold domains s1 room in Hrr.
  destruct domains as [|d0 ds] eqn:Hd; [done|].
  rewrite Hidle in Hrr. destruct Hrr as [Hrr Ht].
  split_and!; [done|done| |apply send_read_receipt_frame].
  assert (Hcons : timers_consistent s0).
  { apply timers_consistent_run. intros r. simpl. by rewrite lookup_empty. }
  specialize (Hcons room). rewrite Hidle in Hcons.
  by apply nil_length_inv in Hcons.
Qed.

Lemma send_read_receipt_pending_state receipt hosts qs s :
  queues_awaiting_rr_flush_by_room s !! rr_room_id receipt = Some qs →
  filter (λ d, d ≠ server_name) hosts ≠ [] →
  queues_awaiting_rr_flush_by_room (send_read_receipt receipt hosts s) =
    <[rr_room_id receipt :=
        list_to_set (filter (λ d, d ≠ server_name) hosts) ∪ qs]>
      (queues_awaiting_rr_flush_by_room s)
  ∧ clock_timers (send_read_receipt receipt hosts s) = clock_timers s.
Proof.
  intros Hentry Hdom.
  pose proof (send_read_receipt_rr receipt hosts s) as Hrr. simpl in Hrr.
  rewrite Hentry in Hrr.
  by destruct (filter (λ d, d ≠ server_name) hosts).
Qed.

(** X19: the cycle stops when nothing arrives.  After the first receipt
    of a room, once the delay of its timer has passed and the timer
    fires with no further receipt for the room, the room is idle again:
    its entry is gone, no timer is armed for it, and the firing called
    nothing. *)
Theorem receipt_cycle_stops
    (ops0 : list Op) (pos : Z) (now0 : Q)
    (receipt : ReadReceipt) (hosts : list string) (t : Q) :
  let s0 := run ops0 (init pos now0) in
  let room := rr_room_id receipt in
  let domains := filter (λ d, d ≠ server_name) hosts in
  let backoff :=
    (rr_txn_interval_per_room_ms * inject_Z (Z.of_nat (length domains)))%Q in
  let s1 := send_read_receipt receipt hosts s0 in
  let s2 := timer_fires room (clock_advance t s1) in
  queues_awaiting_rr_flush_by_room s0 !! room = None →
  domains ≠ [] →
  (clock_now s0 <= t)%Q →
  (clock_now s0 + backoff <= t)%Q →
  queues_awaiting_rr_flush_by_room s2 !! room = None
  ∧ timers_of room (clock_timers s2) = []
  ∧ trace s2 = trace s1.
Proof.
  intros s0 room domains backoff s1 s2 Hidle Hdom Hnow Hdue.
  destruct (first_receipt_state ops0 pos now0 receipt hosts Hidle Hdom)
    as (Hrr & Ht & Hnone & Hclock).
  fold s0 room domains s1 backoff in Hrr, Ht, Hnone, Hclock.
  assert (Hadv : clock_advance t s1 = with_clock t (clock_timers s1) s1).
  { apply clock_advance_forward. by rewrite Hclock. }
  assert (Htake : take_due_timer t room (clock_timers s1)
                  = Some (clock_timers s0)).
  { rewrite Ht, take_due_timer_skip by done. simpl.
    rewrite (proj2 (Qle_bool_iff _ _) Hdue).
    rewrite bool_decide_eq_true_2 by done. simpl. by rewrite app_nil_r. }
  pose proof (timer_fires_rr room (clock_advance t s1)) as Hfire.
  pose proof (timer_fires_trace room (clock_advance t s1)) as Htrace.
  fold s2 in Hfire, Htrace. rewrite Hadv in Hfire, Htrace.
  simpl in Hfire, Htrace. rewrite Htake, Hrr, lookup_insert_eq in Hfire, Htrace.
  rewrite decide_True in Hfire by done.
  rewrite decide_True in Htrace by done.
  destruct Hfire as [-> ->]. split_and!.
  - by rewrite lookup_delete_eq.
  - done.
  - by rewrite Htrace, app_nil_r.
Qed.

(** X20: receipts that accrue are flushed when the timer fires.  After
    the first receipt of a room, a second receipt for the room is only
    queued; when the timer then fires, [flush_read_receipts_for_room] is
    called once on the queue of each remote domain of the second receipt,
    the room gets a new, empty entry, and a timer is armed for
    [rr_txn_interval_per_room_ms] times the number of those queues. *)
Theorem accrued_receipts_flushed_at_deadline
    (ops0 : list Op) (pos : Z) (now0 : Q)
    (receipt later_receipt : ReadReceipt) (hosts later_hosts : list string)
    (t : Q) :
  let s0 := run ops0 (init pos now0) in
  let room := rr_room_id receipt in
  let domains := filter (λ d, d ≠ server_name) hosts in
  let later_domains := filter (λ d, d ≠ server_name) later_hosts in
  let queues : gset string := list_to_set later_domains in
  let backoff :=
    (rr_txn_interval_per_room_ms * inject_Z (Z.of_nat (length domains)))%Q in
  let next_backoff :=
    (rr_txn_interval_per_room_ms * inject_Z (Z.of_nat (size queues)))%Q in
  let s1 := send_read_receipt receipt hosts s0 in
  let s2 := send_read_receipt later_receipt later_hosts s1 in
  let s3 := timer_fires room (clock_advance t s2) in
  queues_awaiting_rr_flush_by_room s0 !! room = None →
  domains ≠ [] →
  rr_room_id later_receipt = room →
  later_domains ≠ [] →
  (clock_now s0 <= t)%Q →
  (clock_now s0 + backoff <= t)%Q →
  trace s2 = trace s1 ++ ((λ d, queue_read_receipt d later_receipt)
                            <$> later_domains)
  ∧ queues_awaiting_rr_flush_by_room s3 !! room = Some ∅
  ∧ timers_of room (clock_timers s3) = [((t + next_backoff)%Q, room)]
  ∧ ∃ flushes,
      trace s3 = trace s2 ++ call_later next_backoff room :: flushes
      ∧ NoDup flushes
      ∧ ∀ e, e ∈ flushes ↔
             ∃ d, d ∈ later_hosts ∧ d ≠ server_name
                  ∧ e = flush_read_receipts_for_room d room.
Proof.
  intros s0 room domains later_domains queues backoff next_backoff s1 s2 s3
    Hidle Hdom Hroom Hlater Hnow Hdue.
  destruct (first_receipt_state ops0 pos now0 receipt hosts Hidle Hdom)
    as (Hrr & Ht & Hnone & Hclock).
  fold s0 room domains s1 backoff in Hrr, Ht, Hnone, Hclock.
  assert (Hentry : queues_awaiting_rr_flush_by_room s1
                     !! rr_room_id later_receipt = Some ∅).
  { by rewrite Hroom, Hrr, lookup_insert_eq. }
  destruct (send_read_receipt_pending_state later_receipt later_hosts ∅ s1
              Hentry Hlater) as [Hrr2 Ht2].
  fold later_domains s2 in Hrr2, Ht2. rewrite Hroom in Hrr2.
  assert (Hld' : filter (λ d, d ≠ server_name) later_hosts = later_domains)
    by done.
  assert (Hclock2 : clock_now s2 = clock_now s0).
  { rewrite <- Hclock. apply send_read_receipt_frame. }
  assert (Hqueues : (list_to_set later_domains ∪ ∅ : gset string) = queues).
  { unfold queues. set_solver. }
  rewrite Hqueues in Hrr2.
  assert (Hne : queues ≠ ∅).
  { unfold queues. clear -Hlater. destruct later_domains; [done|set_solver]. }
  split; [by apply (send_read_receipt_pending_trace _ _ ∅)|].
  assert (Hadv : clock_advance t s2 = with_clock t (clock_timers s2) s2).
  { apply clock_advance_forward. by rewrite Hclock2. }
  assert (Htake : take_due_timer t room (clock_timers s2)
                  = Some (clock_timers s0)).
  { rewrite Ht2, Ht, take_due_timer_skip by done. simpl.
    rewrite (proj2 (Qle_bool_iff _ _) Hdue).
    rewrite bool_decide_eq_true_2 by done. simpl. by rewrite app_nil_r. }
  pose proof (timer_fires_rr room (clock_advance t s2)) as Hfire.
  pose proof (timer_fires_trace room (clock_advance t s2)) as Htrace.
  fold s3 in Hfire, Htrace. rewrite Hadv in Hfire, Htrace.
  simpl in Hfire, Htrace.
  rewrite Htake, Hrr2, lookup_insert_eq in Hfire, Htrace.
  rewrite decide_False in Hfire by done.
  rewrite decide_False in Htrace by done.
  destruct Hfire as [Hrr3 Ht3]. split_and!.
  - by rewrite Hrr3, lookup_insert_eq.
  - by rewrite Ht3, timers_of_app, Hnone, timers_of_cons_eq.
  - eexists. split; [exact Htrace|]. split.
    + apply NoDup_fmap_2; [by intros ?? [=]|apply NoDup_elements].
    + intros e. rewrite list_elem_of_fmap. split.
      * intros (d & -> & Hd). exists d.
        apply elem_of_elements, elem_of_list_to_set in Hd.
        rewrite <- Hld' in Hd. apply list_elem_of_filter in Hd as [? ?]. done.
      * intros (d & Hin & Hd & ->). exists d. split; [done|].
        apply elem_of_elements, elem_of_list_to_set. rewrite <- Hld'.
        by apply list_elem_of_filter.
Qed.

(** ** The registry holds the queues that were called *)

Lemma created_emit e s : created_for_call s → created_for_call (emit e s).
Proof.
  intros Hs d Hd. destruct (Hs d Hd) as (e' & He' & Hdest).
  exists e'. split; [|done]. apply elem_of_app. by left.
Qed.

Lemma created_call_queue d e s :
  queue_call_dest e = Some d →
  created_for_call s → created_for_call (call_queue d e s).
Proof.
  intros He Hs d' [->%elem_of_singleton|Hd']%elem_of_union.
  - exists e. split; [|done]. apply elem_of_app. right. left.
  - destruct (Hs d' Hd') as (e' & He' & Hdest).
    exists e'. split; [|done]. apply elem_of_app. by left.
Qed.

Ltac peel_created :=
  repeat match goal with
    | |- created_for_call (with_order _ ?s) => change (created_for_call s)
    | |- created_for_call (inc_dist_counters _ ?s) =>
        change (created_for_call s)
    | |- created_for_call (with_event_loop _ _ ?s) =>
        change (created_for_call s)
    | |- created_for_call (with_last_poked_id _ ?s) =>
        change (created_for_call s)
    | |- created_for_call (with_presence_loop _ _ ?s) =>
        change (created_for_call s)
    | |- created_for_call (with_pending_presence _ ?s) =>
        change (created_for_call s)
    | |- created_for_call (with_federation_position _ ?s) =>
        change (created_for_call s)
    | |- created_for_call (with_last_ack _ ?s) => change (created_for_call s)
    | |- created_for_call (with_clock _ _ ?s) => change (created_for_call s)
    | |- created_for_call (with_rr _ ?s) => change (created_for_call s)
    end.

Lemma created_send_pdu pdu destinations s :
  created_for_call s → created_for_call (_send_pdu pdu destinations s).
Proof.
  intros Hs. unfold _send_pdu.
  destruct (decide (list_to_set destinations ∖ {[server_name]} = ∅));
    [by peel_created|].
  apply (foldl_invariant created_for_call); [by peel_created|].
  intros a d Ha _. by apply created_call_queue.
Qed.

Lemma created_presence_fold states destinations s :
  created_for_call s →
  created_for_call
    (foldl (λ s destination,
              if decide (destination = server_name) then s
              else call_queue destination
                     (queue_send_presence destination states) s)
           s destinations).
Proof.
  intros Hs. apply (foldl_invariant created_for_call); [done|].
  intros a d Ha _. destruct (decide (d = server_name)); [done|].
  by apply created_call_queue.
Qed.

Lemma created_presence_loop s :
  created_for_call s → created_for_call (presence_loop s).
Proof.
  intros Hs. unfold presence_loop, presence_finally.
  destruct (decide (pending_presence s = ∅)); [by peel_created|].
  apply created_emit. by peel_created.
Qed.

Lemma created_step s op : created_for_call s → created_for_call (step s op).
Proof.
  intros Hs. destruct op; simpl.
  - unfold notify_new_events. destruct (is_processing _); by peel_created.
  - unfold event_loop_fetched, event_loop_finally.
    destruct (event_loop_passes s); [done|].
    destruct page as [[nt evs]|]; [|by peel_created].
    destruct (bool_decide (evs = []) && (nt >=? last_poked_id s));
      by peel_created.
  - destruct (handle_event_cases event hosts s) as [->|[ds ->]];
      [done|by apply created_send_pdu].
  - unfold event_loop_page_done, event_loop_finally.
    destruct (event_loop_passes s); [done|].
    destruct raised; peel_created; by apply created_emit.
  - by apply created_send_pdu.
  - unfold send_read_receipt.
    destruct (filter (λ d, d ≠ server_name) hosts) as [|d0 ds]; [done|].
    destruct (queues_awaiting_rr_flush_by_room s !! rr_room_id receipt).
    + apply (foldl_invariant created_for_call); [done|].
      intros a d Ha _. peel_created. by apply created_call_queue.
    + apply (foldl_invariant created_for_call).
      * unfold _schedule_rr_flush_for_room, clock_call_later.
        peel_created. by apply created_emit.
      * intros a d Ha _. apply created_emit. by apply created_call_queue.
  - unfold timer_fires.
    destruct (take_due_timer (clock_now s) room (clock_timers s)); [|done].
    unfold _flush_rrs_for_room. simpl.
    destruct (queues_awaiting_rr_flush_by_room s !! room) as [qs|];
      [|by peel_created].
    destruct (decide (qs = ∅)); simpl; [by peel_created|].
    apply (foldl_invariant created_for_call).
    + unfold _schedule_rr_flush_for_room, clock_call_later.
      peel_created. apply created_emit. by peel_created.
    + intros a q Ha _. by apply created_emit.
  - unfold clock_advance. destruct (Qle_bool _ _); by peel_created.
  - unfold send_presence. destruct use_presence; [|done]. simpl.
    destruct (processing_pending_presence s); [by peel_created|].
    apply created_presence_loop. by peel_created.
  - unfold presence_resumed, presence_finally.
    destruct (presence_passes s); [done|].
    destruct result as [hs|]; [|by peel_created].
    apply created_presence_loop. unfold _process_presence_inner.
    apply (foldl_invariant created_for_call); [done|].
    intros a [destinations states] Ha _.
    by apply created_presence_fold.
  - unfold send_presence_to_destinations.
    destruct (bool_decide (states = []) || negb use_presence); [done|].
    by apply created_presence_fold.
  - unfold build_and_send_edu, send_edu.
    destruct (decide (dest = server_name)); [done|].
    destruct key as [k|]; [destruct (truthy k)|];
      by apply created_call_queue.
  - unfold send_edu.
    destruct key as [k|]; [destruct (truthy k)|];
      by apply created_call_queue.
  - unfold send_device_messages.
    destruct (decide (dest = server_name)); [done|].
    by apply created_call_queue.
  - unfold wake_destination.
    destruct (decide (dest = server_name)); [done|].
    by apply created_call_queue.
  - by peel_created.
  - unfold update_token_locked.
    destruct (last_ack s <? federation_position s); [|done].
    by apply created_emit.
  - unfold update_token_persisted. destruct raised; [done|].
    peel_created. by apply created_emit.
Qed.

(** X21: queues are created lazily and only for use: whatever the
    dispatcher is made to do, a destination is in the registry exactly
    when a call was made on its queue. *)
Theorem registry_is_called_destinations
    (ops : list Op) (pos : Z) (now : Q) (d : string) :
  let s := run ops (init pos now) in
  d ∈ per_destination_queues s ↔
    ∃ e, e ∈ trace s ∧ queue_call_dest e = Some d.
Proof.
  intros s. split.
  - revert d. unfold s, run.
    apply (foldl_invariant created_for_call).
    + intros d' Hd'. by apply elem_of_empty in Hd'.
    + intros a op Ha _. by apply created_step.
  - intros (e & He & Hd).
    assert (Hs : registered s).
    { unfold s, run. apply (foldl_invariant registered).
      - split; simpl; [by intros e' d' ?%elem_of_nil|].
        intros room qs d'. by rewrite lookup_empty.
      - intros a op Ha _. by apply registered_step. }
    by eapply (proj1 Hs).
Qed.

(** ** A presence pass that fails *)

(** X22: presence that arrived during a pass that fails is not lost.
    The exception ends the pass and clears the flag but leaves
    [pending_presence] as it is, and the next [send_presence] call starts
    a pass whose first batch holds those states together with its own. *)
Theorem presence_kept_after_failed_pass
    (ops : list Op) (pos : Z) (now : Q) (states : list UserPresenceState) :
  let s := run ops (init pos now) in
  let s1 := presence_resumed None s in
  let s2 := send_presence states s1 in
  use_presence = true →
  processing_pending_presence s = true →
  pending_presence s ≠ ∅ →
  pending_presence s1 = pending_presence s
  ∧ processing_pending_presence s1 = false
  ∧ trace s1 = trace s
  ∧ trace s2 =
      trace s ++ [get_interested_remotes
                    (values (mine_by_user states ∪ pending_presence s))]
  ∧ processing_pending_presence s2 = true
  ∧ pending_presence s2 = ∅.
Proof.
  intros s s1 s2 Huse Hflag Hpending.
  assert (Hsf : singleflight s).
  { apply singleflight_run. by split. }
  destruct Hsf as [_ Hpasses]. rewrite Hflag in Hpasses.
  assert (Hs1 : s1 = presence_finally s).
  { unfold s1, presence_resumed. by rewrite Hpasses. }
  assert (Hne : mine_by_user states ∪ pending_presence s ≠ ∅).
  { intros He. apply Hpending. apply map_eq. intros k.
    rewrite lookup_empty.
    assert (Hk : (mine_by_user states ∪ pending_presence s) !! k = None)
      by (by rewrite He, lookup_empty).
    by apply lookup_union_None in Hk as [_ ?]. }
  split_and!; try (by rewrite Hs1).
  - unfold s2, send_presence, presence_loop. rewrite Huse, Hs1. simpl.
    by rewrite decide_False.
  - unfold s2, send_presence, presence_loop. rewrite Huse, Hs1. simpl.
    by rewrite decide_False.
  - unfold s2, send_presence, presence_loop. rewrite Huse, Hs1. simpl.
    by destruct (decide (mine_by_user states ∪ pending_presence s = ∅)).
Qed.

End Sender.

(** ** A concrete server

    The server ["s1"], with presence enabled and the default of 50 read
    receipt transactions per room per second (20 ms for each domain). *)

(** Scenario 1: a local event in a room shared with ["s2"] goes to
    ["s2"] only, and both counters grow by one. *)
Example self_loopback_suppression :
  let s := handle_event "s1" is_mine_s1 (event_of "$e" "@u:s1" None)
             (Some ["s1"; "s2"]) (init 0 0) in
  trace s = [send_pdu "s2" (event_of "$e" "@u:s1" None) 1]
  ∧ sent_pdus_destination_dist_count s = 1
  ∧ sent_pdus_destination_dist_total s = 1
  ∧ order s = 2.
Proof. vm_compute. done. Qed.

(** Scenario 2: an event sent on behalf of ["s3"] is not sent to ["s3"]. *)
Example behalf_of_exclusion :
  trace (handle_event "s1" is_mine_s1 (event_of "$e" "@u:s4" (Some "s3"))
           (Some ["s1"; "s3"; "s5"]) (init 0 0))
  = [send_pdu "s5" (event_of "$e" "@u:s4" (Some "s3")) 1].
Proof. vm_compute. done. Qed.

(** Scenario 6: [update_token 100] then [update_token 95]: one persist
    and one ack, for 100; the second call does neither, and leaves the
    position at 95. *)
Example position_ack :
  let s := update_token 95 false (update_token 100 false (init 0 0)) in
  trace s = [update_federation_out_pos "federation" 100; send_federation_ack 100]
  ∧ last_ack s = 100 ∧ federation_position s = 95.
Proof. vm_compute. done. Qed.

(** A page with the events A1, B1, A2 of the rooms A and B, the batch
    of room B running between the two events of room A: A2 is sent with
    order 3. *)
Example interleaved_rooms_orders :
  let event id room :=
    {| event_id := id; room_id := room; sender := "@u:s1";
       prev_event_ids := ["$prev"]; send_on_behalf_of := None;
       should_proactively_send := true |} in
  trace (run "s1" is_mine_s1 true 50
           [op_handle_event (event "$A1" "!A:s1") (Some ["s1"; "s2"]);
            op_handle_event (event "$B1" "!B:s1") (Some ["s1"; "s2"]);
            op_handle_event (event "$A2" "!A:s1") (Some ["s1"; "s2"])]
           (init 0 0))
  = [send_pdu "s2" (event "$A1" "!A:s1") 1;
     send_pdu "s2" (event "$B1" "!B:s1") 2;
     send_pdu "s2" (event "$A2" "!A:s1") 3].
Proof. vm_compute. done. Qed.

(** Scenario 3: with two remote domains the first receipt arms a timer
    for 40 ms and flushes both queues; a receipt 5 ms later is only
    queued; the timer does not fire at 10 ms; at 40 ms it flushes both
    queues and is armed again; at 80 ms nothing is pending and the cycle
    stops. *)
Example receipt_batching :
  let first := receipt_of "@u:s1" "$a" in
  let second := receipt_of "@u:s1" "$b" in
  let s := run "s1" is_mine_s1 true 50 [op_send_read_receipt first ["s1"; "s2"; "s3"];
                   op_clock_advance 5;
                   op_send_read_receipt second ["s1"; "s2"; "s3"];
                   op_clock_advance 10; op_timer_fires "!room:s1";
                   op_clock_advance 40; op_timer_fires "!room:s1";
                   op_clock_advance 80; op_timer_fires "!room:s1"]
                  (init 0 0) in
  trace s = [call_later (2000 # 50) "!room:s1";
             queue_read_receipt "s2" first;
             flush_read_receipts_for_room "s2" "!room:s1";
             queue_read_receipt "s3" first;
             flush_read_receipts_for_room "s3" "!room:s1";
             queue_read_receipt "s2" second;
             queue_read_receipt "s3" second;
             call_later (2000 # 50) "!room:s1";
             flush_read_receipts_for_room "s3" "!room:s1";
             flush_read_receipts_for_room "s2" "!room:s1"]
  ∧ clock_timers s = []
  ∧ queues_awaiting_rr_flush_by_room s !! "!room:s1" = None.
Proof. vm_compute. done. Qed.

(** ** The claims at concrete inputs *)

(** C1, as stated, fails: [update_token 95] after [update_token 100]
    lowers the position that [get_current_token] returns, to 95, below
    the acknowledged position, which stays at 100. *)
Lemma update_token_smaller_token_lowers_position :
  let s1 := update_token 100 false (init 0 0) in
  let s2 := update_token 95 false s1 in
  get_current_token s1 = 100
  ∧ get_current_token s2 = 95
  ∧ last_ack s2 = 100
  ∧ ¬ (get_current_token s1 ≤ get_current_token s2)
  ∧ ¬ (last_ack s2 ≤ federation_position s2).
Proof. vm_compute. split_and!; try done; intros H; by apply H. Qed.

(** Two overlapping calls: the second enters with 105 while the first,
    which entered with 100, waits for the store; the first then acks
    105. *)
Lemma update_token_ascending_invariant_witness :
  let s1 := run "s1" is_mine_s1 true 50
              [op_update_token_enter 100; op_update_token_locked;
               op_update_token_enter 105] (init 0 0) in
  let s2 := step "s1" is_mine_s1 true 50 s1 (op_update_token_persisted false) in
  last_ack s2 ≤ federation_position s2
  ∧ get_current_token s1 ≤ get_current_token s2
  ∧ last_ack s1 ≤ last_ack s2.
Proof.
  apply (update_token_ascending_invariant "s1" is_mine_s1 true 50%Q
           [op_update_token_enter 100; op_update_token_locked;
            op_update_token_enter 105; op_update_token_persisted false;
            op_update_token_locked; op_update_token_persisted true]
           (init 0 0))
    with (before := [op_update_token_enter 100; op_update_token_locked;
                     op_update_token_enter 105])
         (op := op_update_token_persisted false)
         (after := [op_update_token_locked; op_update_token_persisted true]).
  - vm_compute. discriminate.
  - vm_compute. split_and!; try exact I; discriminate.
  - reflexivity.
Defined.

(** C2, as stated, fails: an EDU addressed to the local server and
    handed to [send_edu] is put on the queue of the local server. *)
Lemma send_edu_to_self_enqueues :
  let edu := {| origin := "s1"; destination := "s1";
                edu_type := "m.typing"; content := "{}" |} in
  let s := step "s1" is_mine_s1 true 50 (init 0 0) (op_send_edu edu None) in
  trace s = [queue_send_edu "s1" edu]
  ∧ ¬ Forall (λ e, ¬ self_call "s1" e) (trace s).
Proof.
  split; [reflexivity|].
  intros H. apply Forall_cons in H as [H _]. by apply H.
Qed.

Lemma no_self_enqueue_witness :
  Forall (λ e, ¬ self_call "s1" e)
    (trace (run "s1" is_mine_s1 true 50
              [op_handle_event (event_of "$e" "@u:s1" None) (Some ["s1"; "s2"]);
               op_send_edu {| origin := "s1"; destination := "s2";
                              edu_type := "m.typing"; content := "{}" |}
                           (Some (HStr "k"));
               op_build_and_send_edu "s1" "m.typing" "{}" None;
               op_send_read_receipt (receipt_of "@u:s1" "$e") ["s1"; "s2"];
               op_send_device_messages "s1"]
              (init 0 0))).
Proof.
  apply no_self_enqueue.
  repeat (apply Forall_cons;
          split; [simpl; first [discriminate | intros []]|]).
  apply Forall_nil_2.
Defined.

Lemma receipt_window_single_timer_witness :
  let first := receipt_of "@u:s1" "$a" in
  let ops := [op_clock_advance 5;
              op_send_read_receipt (receipt_of "@u:s1" "$b") ["s2"; "s3"];
              op_clock_advance 39; op_timer_fires "!room:s1"] in
  let s0 := run "s1" is_mine_s1 true 50 [] (init 0 0) in
  let s1 := send_read_receipt "s1" 50 first ["s1"; "s2"; "s3"] s0 in
  let s := run "s1" is_mine_s1 true 50 ops s1 in
  is_Some (queues_awaiting_rr_flush_by_room s !! rr_room_id first)
  ∧ ∃ later, trace s = trace s1 ++ later
             ∧ Forall (λ e, ¬ rr_activity (rr_room_id first) e) later.
Proof.
  intros first ops s0 s1 s.
  pose proof (receipt_window_single_timer "s1" is_mine_s1 true 50%Q
                [] 0 0%Q first ["s1"; "s2"; "s3"] ops) as H.
  cbv zeta in H. destruct H as [_ Hwindow].
  - vm_compute. reflexivity.
  - vm_compute. discriminate.
  - vm_compute. reflexivity.
  - destruct (Hwindow ops []) as (Hentry & _ & Hquiet).
    + symmetry. apply app_nil_r.
    + split; [exact Hentry|exact Hquiet].
Defined.

Lemma flush_rrs_for_room_cycle_witness :
  let s := run "s1" is_mine_s1 true 50 [op_send_read_receipt (receipt_of "@u:s1" "$a") ["s2"; "s3"];
                   op_send_read_receipt (receipt_of "@u:s1" "$b") ["s2"; "s3"]]
                  (init 0 0) in
  ∃ s', _flush_rrs_for_room 50 "!room:s1" s = Some s'.
Proof.
  intros s.
  destruct (flush_rrs_for_room_cycle 50%Q "!room:s1" {["s2"; "s3"]} s)
    as (s' & Hs' & _).
  - vm_compute. reflexivity.
  - exists s'. exact Hs'.
Defined.


Lemma singleflight_passes_witness :
  let s := run "s1" is_mine_s1 true 50 [op_notify_new_events 5;
                   op_send_presence [presence_of "@u:s1" "online"]]
                  (init 0 0) in
  event_loop_passes (notify_new_events 7 s) = event_loop_passes s
  ∧ presence_passes
      (send_presence is_mine_s1 true [presence_of "@u:s1" "offline"] s)
    = presence_passes s
  ∧ is_processing (step "s1" is_mine_s1 true 50 s (op_event_loop_fetched None)) = false
  ∧ processing_pending_presence (step "s1" is_mine_s1 true 50 s (op_presence_resumed None)) = false
  ∧ is_processing (step "s1" is_mine_s1 true 50 s
                     (op_event_loop_fetched (Some (7, [])))) = false
  ∧ processing_pending_presence
      (step "s1" is_mine_s1 true 50 s (op_presence_resumed (Some []))) = false.
Proof.
  intros s.
  pose proof (singleflight_passes "s1" is_mine_s1 true 50%Q
                [op_notify_new_events 5;
                 op_send_presence [presence_of "@u:s1" "online"]] 0 0%Q) as H.
  cbv zeta in H.
  destruct H as (_ & _ & _ & Hnotify & Hpresence & Hev & Hpr & _ & _
                 & Hbreak & Hdrained & _).
  split_and!.
  - apply Hnotify. vm_compute. reflexivity.
  - apply Hpresence. vm_compute. reflexivity.
  - apply Hev. vm_compute. lia.
  - apply Hpr. vm_compute. lia.
  - apply Hbreak. vm_compute. discriminate.
  - apply Hdrained. right. vm_compute. reflexivity.
Defined.

(** ** Further properties at concrete inputs *)

Lemma poke_seen_before_exit_witness :
  let s := notify_new_events 10 (run "s1" is_mine_s1 true 50 [] (init 0 0)) in
  event_loop_fetched (Some (5, [])) s = (s, true).
Proof.
  apply (poke_seen_before_exit "s1" is_mine_s1 true 50%Q [] 0 0%Q 10 5).
  lia.
Defined.

Lemma update_token_retry_after_failure_witness :
  let s1 := update_token 100 true (init 0 0) in
  let s2 := update_token 100 false s1 in
  last_ack s1 = last_ack (init 0 0)
  ∧ trace s1 = trace (init 0 0) ++ [update_federation_out_pos "federation" 100]
  ∧ last_ack s2 = 100
  ∧ trace s2 = trace s1 ++ [update_federation_out_pos "federation" 100;
                            send_federation_ack 100].
Proof.
  apply (update_token_retry_after_failure 100 (init 0 0)).
  vm_compute. reflexivity.
Defined.

Lemma fired_timer_finds_entry_witness :
  let s := run "s1" is_mine_s1 true 50
             [op_send_read_receipt (receipt_of "@u:s1" "$a") ["s1"; "s2"];
              op_clock_advance 100] (init 0 0) in
  is_Some (_flush_rrs_for_room 50 "!room:s1" (with_clock (clock_now s) [] s)).
Proof.
  apply (fired_timer_finds_entry "s1" is_mine_s1 true 50%Q
           [op_send_read_receipt (receipt_of "@u:s1" "$a") ["s1"; "s2"];
            op_clock_advance 100] 0 0%Q "!room:s1" []).
  vm_compute. reflexivity.
Defined.

Lemma unflushed_receipts_are_scheduled_witness :
  let s := run "s1" is_mine_s1 true 50
             [op_send_read_receipt (receipt_of "@u:s1" "$a") ["s1"; "s2"];
              op_send_read_receipt (receipt_of "@u:s1" "$b") ["s2"; "s3"]]
             (init 0 0) in
  (∃ qs, queues_awaiting_rr_flush_by_room s !! "!room:s1" = Some qs
         ∧ "s3" ∈ qs)
  ∧ ∃ deadline, (deadline, "!room:s1") ∈ clock_timers s.
Proof.
  apply (unflushed_receipts_are_scheduled "s1" is_mine_s1 true 50%Q
           [op_send_read_receipt (receipt_of "@u:s1" "$a") ["s1"; "s2"];
            op_send_read_receipt (receipt_of "@u:s1" "$b") ["s2"; "s3"]]
           0 0%Q "!room:s1" "s3").
  apply (bool_decide_unpack _). vm_compute. exact I.
Defined.

Lemma presence_disabled_is_silent_witness :
  let s := run "s1" is_mine_s1 false 50
             [op_send_presence [presence_of "@u:s1" "online"];
              op_send_presence_to_destinations
                [presence_of "@u:s1" "online"] ["s2"];
              op_presence_resumed (Some [(["s2"], [presence_of "@u:s1" "online"])])]
             (init 0 0) in
  pending_presence s = ∅
  ∧ processing_pending_presence s = false
  ∧ presence_passes s = 0%nat
  ∧ Forall (λ e, match e with
                 | queue_send_presence _ _ | get_interested_remotes _ => False
                 | _ => True
                 end) (trace s).
Proof.
  apply (presence_disabled_is_silent "s1" is_mine_s1 false 50%Q).
  reflexivity.
Defined.

(** A row of a remote user between two rows of local users: the two
    local receipts go to the remote domains of the room, the remote one
    goes nowhere. *)
Lemma on_new_receipts_local_only_witness :
  let rows := [(row_of "@u:s1" "$a", Some ["s1"; "s2"; "s3"]);
               (row_of "@x:s9" "$b", Some ["s1"; "s2"]);
               (row_of "@v:s1" "$c", Some ["s2"])] in
  receipts_queued (trace (_on_new_receipts "s1" is_mine_s1 50 rows (init 0 0)))
  = [("s2", receipt_of "@u:s1" "$a"); ("s3", receipt_of "@u:s1" "$a");
     ("s2", receipt_of "@v:s1" "$c")].
Proof.
  intros rows.
  destruct (on_new_receipts_local_only "s1" is_mine_s1 true 50%Q rows
              (init 0 0)) as (_ & _ & _ & Hexact & _).
  destruct Hexact as (_ & l & Htrace & Hqueued).
  - repeat constructor; intros _; by eexists.
  - rewrite Htrace. change (trace (init 0 0)) with (@nil Effect).
    rewrite app_nil_l, Hqueued. vm_compute. reflexivity.
Defined.

(** Two overlapping calls under the linearizer: 105 enters while the
    call that entered with 100 waits for the store; that call acks 105,
    and the test of the second call then finds nothing to persist. *)
Lemma acks_strictly_increasing_witness :
  let s := run "s1" is_mine_s1 true 50
             [op_update_token_enter 100; op_update_token_locked;
              op_update_token_enter 105; op_update_token_persisted false;
              op_update_token_locked; op_update_token_enter 110;
              op_update_token_locked; op_update_token_persisted false]
             (init 0 0) in
  StronglySorted Z.lt (acks (trace s))
  ∧ Forall (λ token, 0 < token ≤ last_ack s) (acks (trace s))
  ∧ 0 ≤ last_ack s.
Proof.
  apply (acks_strictly_increasing "s1" is_mine_s1 true 50%Q
           [op_update_token_enter 100; op_update_token_locked;
            op_update_token_enter 105; op_update_token_persisted false;
            op_update_token_locked; op_update_token_enter 110;
            op_update_token_locked; op_update_token_persisted false] 0 0%Q).
  - vm_compute. split_and!; try exact I; discriminate.
  - vm_compute. split_and!; try exact I; reflexivity.
Defined.

(** Without the linearizer a token could be acked twice: two calls
    both pass the test before either hears from the store. *)
Example acks_repeat_without_the_linearizer :
  let ops := [op_update_token_enter 100; op_update_token_locked;
              op_update_token_enter 100; op_update_token_locked;
              op_update_token_persisted false;
              op_update_token_persisted false] in
  ¬ linearized "s1" is_mine_s1 true 50 false (init 0 0) ops
  ∧ acks (trace (run "s1" is_mine_s1 true 50 ops (init 0 0))) = [100; 100].
Proof.
  split; [|vm_compute; reflexivity].
  vm_compute. intros (_ & [=] & _).
Qed.

(** Without the condition on the tokens the acks can go back: 200
    enters while the call with 100 waits, so that call acks 200; then 90
    enters while a later call waits for the store, and that call acks
    90. *)
Example acks_go_back_with_the_tokens :
  let s := run "s1" is_mine_s1 true 50
             [op_update_token_enter 100; op_update_token_locked;
              op_update_token_persisted false;
              op_update_token_enter 200; op_update_token_locked;
              op_update_token_enter 90; op_update_token_persisted false]
             (init 0 0) in
  linearized "s1" is_mine_s1 true 50 false (init 0 0)
    [op_update_token_enter 100; op_update_token_locked;
     op_update_token_persisted false;
     op_update_token_enter 200; op_update_token_locked;
     op_update_token_enter 90; op_update_token_persisted false]
  ∧ acks (trace s) = [100; 90].
Proof. vm_compute. split_and!; try exact I; reflexivity. Qed.

Lemma receipt_cycle_stops_witness :
  let s0 := run "s1" is_mine_s1 true 50 [] (init 0 0) in
  let s1 := send_read_receipt "s1" 50 (receipt_of "@u:s1" "$a") ["s1"; "s2"] s0 in
  let s2 := timer_fires 50 "!room:s1" (clock_advance 20 s1) in
  queues_awaiting_rr_flush_by_room s2
    !! rr_room_id (receipt_of "@u:s1" "$a") = None
  ∧ timers_of (rr_room_id (receipt_of "@u:s1" "$a")) (clock_timers s2) = []
  ∧ trace s2 = trace s1.
Proof.
  pose proof (receipt_cycle_stops "s1" is_mine_s1 true 50%Q [] 0 0%Q
                (receipt_of "@u:s1" "$a") ["s1"; "s2"] 20%Q) as H.
  cbv zeta in H. apply H.
  - vm_compute. reflexivity.
  - vm_compute. discriminate.
  - vm_compute. discriminate.
  - vm_compute. discriminate.
Defined.

Lemma accrued_receipts_flushed_at_deadline_witness :
  let s0 := run "s1" is_mine_s1 true 50 [] (init 0 0) in
  let s1 := send_read_receipt "s1" 50 (receipt_of "@u:s1" "$a") ["s1"; "s2"] s0 in
  let s2 := send_read_receipt "s1" 50 (receipt_of "@v:s1" "$b")
              ["s1"; "s2"; "s3"] s1 in
  let s3 := timer_fires 50 "!room:s1" (clock_advance 20 s2) in
  queues_awaiting_rr_flush_by_room s3
    !! rr_room_id (receipt_of "@u:s1" "$a") = Some ∅.
Proof.
  pose proof (accrued_receipts_flushed_at_deadline "s1" is_mine_s1 true 50%Q
                [] 0 0%Q (receipt_of "@u:s1" "$a") (receipt_of "@v:s1" "$b")
                ["s1"; "s2"] ["s1"; "s2"; "s3"] 20%Q) as H.
  cbv zeta in H. destruct H as (_ & Hentry & _).
  - vm_compute. reflexivity.
  - vm_compute. discriminate.
  - reflexivity.
  - vm_compute. discriminate.
  - vm_compute. discriminate.
  - vm_compute. discriminate.
  - exact Hentry.
Defined.

Lemma presence_kept_after_failed_pass_witness :
  let s := run "s1" is_mine_s1 true 50
             [op_send_presence [presence_of "@u:s1" "online"];
              op_send_presence [presence_of "@v:s1" "offline"]] (init 0 0) in
  let s1 := presence_resumed "s1" None s in
  pending_presence s1 = pending_presence s
  ∧ processing_pending_presence s1 = false.
Proof.
  pose proof (presence_kept_after_failed_pass "s1" is_mine_s1 true 50%Q
                [op_send_presence [presence_of "@u:s1" "online"];
                 op_send_presence [presence_of "@v:s1" "offline"]] 0 0%Q
                [presence_of "@u:s1" "unavailable"]) as H.
  cbv zeta in H. destruct H as (Hpending & Hflag & _).
  - reflexivity.
  - vm_compute. reflexivity.
  - vm_compute. discriminate.
  - split; [exact Hpending|exact Hflag].
Defined.
